(** * jg: a JSON lexer and parser skeleton (github.com/alexhholmes/jg)

    A shallow embedding of the Go packages [lexer] (token.go, lexer.go) and
    [parser] (document.go, parser.go), followed by the properties of the
    specification that were checked against them.  The module [lexer0]
    embeds the lexer.go whose [Next] returns the byte count alone, and
    [parser0] reads parser.go against it.

    Conventions.
    - A Go [int] or [rune] is a [Z].  The counters of the lexer move by at
      most a few units per call, so the 64-bit wrap-around of [int] is out of
      reach of any run and is not written out.
    - A Go [[]byte] is the list of its visible bytes together with the bytes
      of its backing array that lie between [len] and [cap] (field [spare]
      of the lexer): re-slicing past [len] is legal in Go up to [cap].
    - A Go [string] is a [string]; [string(b)] is [string_of_list_byte b].
    - A call either returns (with the state it leaves behind) or halts the
      process: [log.Fatalf], a run-time panic, or a loop that never ends. *)

From Stdlib Require Import ZArith Lia List Bool Strings.String Strings.Byte.
From stdpp Require Import gmap strings list.

#[local] Open Scope Z_scope.

(** ** Results of calls *)

(** Messages of [log.Fatalf], by format string, with their arguments. *)
Inductive fatal : Type :=
| Fatal_invalid_utf8 (line pos : Z)
    (* "Invalid UTF-8 character at %d:%d" *)
| Fatal_unexpected_lexer (r : Z) (line pos : Z)
    (* "Unexpected lexer %s at %d:%d" *)
| Fatal_object_EOF (line col : Z)
    (* "unexpected EOF at line %d column %d" *)
| Fatal_expected_colon (line col : Z)
    (* "unexpected lexer at line %d column %d: expected colon" *)
| Fatal_element_exists (name : string)
    (* "element with name %s already exists" *)
| Fatal_root (line pos : Z)
    (* "unexpected token at line %d column %d: must be object or array" *)
| Fatal_EOF (line pos : Z)
    (* "Unexpected EOF at %d:%d" *)
| Fatal_unexpected_token (r : Z) (line pos : Z)
    (* "Unexpected token %s at %d:%d" *).

(** Run-time panics of Go. *)
Inductive panic : Type :=
| slice_bounds_out_of_range
| index_out_of_range
| assignment_to_entry_in_nil_map
| nil_pointer_dereference.

Inductive halt : Type :=
| Fatalf (m : fatal)
| Panic (p : panic)
| Diverges.   (* the fuel of a loop ran out *)

Inductive result (St A : Type) : Type :=
| Ret (a : A) (s : St)
| Halt (h : halt).
Arguments Ret {St A} a s.
Arguments Halt {St A} h.

(** State passing with halting. *)
Definition M (St A : Type) : Type := St -> result St A.

Definition ret {St A} (a : A) : M St A := fun s => Ret a s.
Definition bind {St A B} (c : M St A) (k : A -> M St B) : M St B :=
  fun s => match c s with
           | Ret a s' => k a s'
           | Halt h => Halt h
           end.
Definition get {St} : M St St := fun s => Ret s s.
Definition modify {St} (f : St -> St) : M St unit := fun s => Ret tt (f s).
Definition stop {St A} (h : halt) : M St A := fun _ => Halt h.
(** A partial operation of the run-time: [None] is the panic [p]. *)
Definition orPanic {St A} (p : panic) (o : option A) : M St A :=
  match o with
  | Some a => ret a
  | None => stop (Panic p)
  end.

Declare Scope go_scope.
Delimit Scope go_scope with go.
Notation "x <- c ;; k" := (bind c (fun x => k))
  (at level 62, c at next level, right associativity) : go_scope.
Notation "c ;;; k" := (bind c (fun _ => k))
  (at level 62, right associativity) : go_scope.

(** ** Package unicode/utf8 and unicode (Go standard library) *)

Abbreviation rune := Z (only parsing).
Definition RuneError : rune := 0xFFFD.

Definition byteZ (b : byte) : Z := Z.of_N (Byte.to_N b).
Definition len {A} (s : list A) : Z := Z.of_nat (length s).

(** [p[i]] once the length was checked; the default is never read. *)
Definition at_ (p : list byte) (i : nat) : Z := byteZ (nth i p x00).

(** [utf8.DecodeRune]: the first rune of [p] and its width in bytes;
    [(RuneError, 0)] on an empty slice, [(RuneError, 1)] on a malformed
    sequence.  [lo] and [hi] are the accept range of the second byte. *)
Definition DecodeRune (p : list byte) : rune * Z :=
  let n := len p in
  if n <? 1 then (RuneError, 0) else
  let p0 := at_ p 0 in
  if p0 <? 0x80 then (p0, 1) else
  if (p0 <? 0xC2) || (0xF4 <? p0) then (RuneError, 1) else
  let sz := if p0 <? 0xE0 then 2 else if p0 <? 0xF0 then 3 else 4 in
  let lo := if p0 =? 0xE0 then 0xA0 else if p0 =? 0xF0 then 0x90 else 0x80 in
  let hi := if p0 =? 0xED then 0x9F else if p0 =? 0xF4 then 0x8F else 0xBF in
  if n <? sz then (RuneError, 1) else
  let b1 := at_ p 1 in
  if (b1 <? lo) || (hi <? b1) then (RuneError, 1) else
  if sz <=? 2 then
    (Z.lor (Z.shiftl (Z.land p0 0x1F) 6) (Z.land b1 0x3F), 2) else
  let b2 := at_ p 2 in
  if (b2 <? 0x80) || (0xBF <? b2) then (RuneError, 1) else
  if sz <=? 3 then
    (Z.lor (Z.lor (Z.shiftl (Z.land p0 0x0F) 12)
                  (Z.shiftl (Z.land b1 0x3F) 6))
           (Z.land b2 0x3F), 3) else
  let b3 := at_ p 3 in
  if (b3 <? 0x80) || (0xBF <? b3) then (RuneError, 1) else
  (Z.lor (Z.lor (Z.lor (Z.shiftl (Z.land p0 0x07) 18)
                       (Z.shiftl (Z.land b1 0x3F) 12))
                (Z.shiftl (Z.land b2 0x3F) 6))
         (Z.land b3 0x3F), 4).

(** The range table [unicode.Digit] (category Nd) above Latin-1, as in the
    tables of Unicode 15.0.0; every range has stride 1. *)
Definition Digit_ranges : list (Z * Z) :=
  [ (0x0660, 0x0669); (0x06f0, 0x06f9); (0x07c0, 0x07c9); (0x0966, 0x096f);
    (0x09e6, 0x09ef); (0x0a66, 0x0a6f); (0x0ae6, 0x0aef); (0x0b66, 0x0b6f);
    (0x0be6, 0x0bef); (0x0c66, 0x0c6f); (0x0ce6, 0x0cef); (0x0d66, 0x0d6f);
    (0x0de6, 0x0def); (0x0e50, 0x0e59); (0x0ed0, 0x0ed9); (0x0f20, 0x0f29);
    (0x1040, 0x1049); (0x1090, 0x1099); (0x17e0, 0x17e9); (0x1810, 0x1819);
    (0x1946, 0x194f); (0x19d0, 0x19d9); (0x1a80, 0x1a89); (0x1a90, 0x1a99);
    (0x1b50, 0x1b59); (0x1bb0, 0x1bb9); (0x1c40, 0x1c49); (0x1c50, 0x1c59);
    (0xa620, 0xa629); (0xa8d0, 0xa8d9); (0xa900, 0xa909); (0xa9d0, 0xa9d9);
    (0xa9f0, 0xa9f9); (0xaa50, 0xaa59); (0xabf0, 0xabf9); (0xff10, 0xff19);
    (0x104a0, 0x104a9); (0x10d30, 0x10d39); (0x11066, 0x1106f);
    (0x110f0, 0x110f9); (0x11136, 0x1113f); (0x111d0, 0x111d9);
    (0x112f0, 0x112f9); (0x11450, 0x11459); (0x114d0, 0x114d9);
    (0x11650, 0x11659); (0x116c0, 0x116c9); (0x11730, 0x11739);
    (0x118e0, 0x118e9); (0x11950, 0x11959); (0x11c50, 0x11c59);
    (0x11d50, 0x11d59); (0x11da0, 0x11da9); (0x11f50, 0x11f59);
    (0x16a60, 0x16a69); (0x16ac0, 0x16ac9); (0x16b50, 0x16b59);
    (0x1d7ce, 0x1d7ff); (0x1e140, 0x1e149); (0x1e2f0, 0x1e2f9);
    (0x1e4f0, 0x1e4f9); (0x1e950, 0x1e959); (0x1fbf0, 0x1fbf9) ].

(** [unicode.IsDigit]: the ASCII digits below [MaxLatin1], the table above. *)
Definition IsDigit (r : rune) : bool :=
  if r <=? 0xFF then (0x30 <=? r) && (r <=? 0x39)
  else existsb (fun '(lo, hi) => (lo <=? r) && (r <=? hi)) Digit_ranges.

(** [string(r)] for a rune [r]: its UTF-8 encoding, and the encoding of
    U+FFFD for a value that is no rune (negative, a surrogate, or above
    U+10FFFF). *)
Definition byte_of_Z (z : Z) : byte :=
  default x00 (Byte.of_N (Z.to_N (z mod 256))).

Definition EncodeRune (r : rune) : list byte :=
  if (0 <=? r) && (r <=? 0x7F) then [byte_of_Z r]
  else if (0 <=? r) && (r <=? 0x7FF) then
    [ byte_of_Z (Z.lor 0xC0 (Z.shiftr r 6));
      byte_of_Z (Z.lor 0x80 (Z.land r 0x3F)) ]
  else if ((0 <=? r) && (r <? 0xD800)) || ((0xDFFF <? r) && (r <=? 0xFFFF)) then
    [ byte_of_Z (Z.lor 0xE0 (Z.shiftr r 12));
      byte_of_Z (Z.lor 0x80 (Z.land (Z.shiftr r 6) 0x3F));
      byte_of_Z (Z.lor 0x80 (Z.land r 0x3F)) ]
  else if (0xFFFF <? r) && (r <=? 0x10FFFF) then
    [ byte_of_Z (Z.lor 0xF0 (Z.shiftr r 18));
      byte_of_Z (Z.lor 0x80 (Z.land (Z.shiftr r 12) 0x3F));
      byte_of_Z (Z.lor 0x80 (Z.land (Z.shiftr r 6) 0x3F));
      byte_of_Z (Z.lor 0x80 (Z.land r 0x3F)) ]
  else [xef; xbf; xbd].

Definition string_of_rune (r : rune) : string :=
  string_of_list_byte (EncodeRune r).

(** ** Go slices of bytes *)

(** [s[lo:]]: needs [0 <= lo <= len(s)]. *)
Definition slice_from (s : list byte) (lo : Z) : option (list byte) :=
  if (0 <=? lo) && (lo <=? len s) then Some (drop (Z.to_nat lo) s) else None.

(** [s[lo:hi]] for a slice [s] with backing bytes [extra] after its length:
    needs [0 <= lo <= hi <= cap(s)], and may read into [extra]. *)
Definition slice_range (s extra : list byte) (lo hi : Z) : option (list byte) :=
  if (0 <=? lo) && (lo <=? hi) && (hi <=? len s + len extra)
  then Some (drop (Z.to_nat lo) (take (Z.to_nat hi) (s ++ extra)))
  else None.

(** ** Package lexer *)

Module lexer.

(** token.go *)
Inductive TokenType : Type :=
| EOF | NEWLINE | WHITESPACE | QUOTE | LBRACE | RBRACE | LBRACKET | RBRACKET
| COMMA | COLON | NUMBER | STRING | TRUE | FALSE | NULL.

#[global] Instance TokenType_eq_dec : EqDecision TokenType.
Proof. solve_decision. Defined.

Definition TokenType_String (t : TokenType) : string :=
  match t with
  | EOF => "EOF" | NEWLINE => "NEWLINE" | WHITESPACE => "WHITESPACE"
  | QUOTE => "QUOTE" | LBRACE => "LBRACE" | RBRACE => "RBRACE"
  | LBRACKET => "LBRACKET" | RBRACKET => "RBRACKET" | COMMA => "COMMA"
  | COLON => "COLON" | NUMBER => "NUMBER" | STRING => "STRING"
  | TRUE => "TRUE" | FALSE => "FALSE" | NULL => "NULL"
  end.

(** [structures]: the runes of the JSON structure elements. *)
Definition structures : gmap Z TokenType :=
  <[ 0x7B := LBRACE ]> (     (* '{' *)
  <[ 0x7D := RBRACE ]> (     (* '}' *)
  <[ 0x5B := LBRACKET ]> (   (* '[' *)
  <[ 0x5D := RBRACKET ]> (   (* ']' *)
  <[ 0x2C := COMMA ]> (      (* ',' *)
  <[ 0x3A := COLON ]> ∅))))). (* ':' *)

(** [structures[r]] in its one-result form: the zero value of [TokenType],
    which is [EOF], for a rune the map does not hold. *)
Definition structures_at (r : rune) : TokenType := default EOF (structures !! r).

Record Token : Type := mkToken {
  Typ : TokenType;     (* Type *)
  Literal : string;
  Line : Z;
  Col : Z;             (* documented: the character position on the line *)
  Pos : Z              (* documented: the byte position where the token starts *)
}.

(** lexer.go *)
Record Lexer : Type := mkLexer {
  input : list byte;
  spare : list byte;   (* backing array of [input] between len and cap *)
  tokens : list Token;
  line : Z;
  col : Z;
  pos : Z
}.

Definition NewLexer (input spare : list byte) : Lexer :=
  {| input := input; spare := spare; tokens := []; line := 1; col := 0; pos := 0 |}.

Definition Reset (l : Lexer) : Lexer :=
  {| input := input l; spare := spare l; tokens := []; line := 1; col := 0; pos := 0 |}.

(** [l.tokens[len(l.tokens)-1]]: index -1 on an empty log, a panic. *)
Definition Token_ (l : Lexer) : option Token := last (tokens l).

Definition Tokens (l : Lexer) : list Token := tokens l.
Definition Len (l : Lexer) : Z := len (tokens l).

#[local] Open Scope go_scope.

Definition set_line (v : Z) : M Lexer unit :=
  modify (fun l => {| input := input l; spare := spare l; tokens := tokens l;
                      line := v; col := col l; pos := pos l |}).
Definition set_col (v : Z) : M Lexer unit :=
  modify (fun l => {| input := input l; spare := spare l; tokens := tokens l;
                      line := line l; col := v; pos := pos l |}).
Definition set_pos (v : Z) : M Lexer unit :=
  modify (fun l => {| input := input l; spare := spare l; tokens := tokens l;
                      line := line l; col := col l; pos := v |}).
Definition add_col (d : Z) : M Lexer unit := l <- get ;; set_col (col l + d).

(** [appendToken]: the struct literal names [Type], [Literal], [Line] and
    [Col]; [Col] receives [l.pos], and [Pos] keeps its zero value. *)
Definition appendToken (t : TokenType) (literal : string) : M Lexer unit :=
  modify (fun l =>
    {| input := input l; spare := spare l;
       tokens := tokens l ++ [ {| Typ := t; Literal := literal;
                                  Line := line l; Col := pos l; Pos := 0 |} ];
       line := line l; col := col l; pos := pos l |}).

(** The errors [Next] returns, by format string of [fmt.Errorf]. *)
Inductive error : Type :=
| unexpected_rune (r : rune) (line col : Z)   (* "unexpected rune %s at %d:%d" *)
| unexpected_identifier (line col : Z)        (* "unexpected identifier at %d:%d" *)
| invalid_UTF8 (line col : Z)                 (* "invalid UTF-8 character at %d:%d" *)
| unexpected_EOF (line col : Z).              (* "unexpected EOF at %d:%d" *)

(** The string made of one double quote. *)
Definition quote_literal : string := string_of_list_byte [x22].

(** Rounds granted to the scanning loops: more than a scan that ends can
    take over this input, each of its rounds moving by a byte at least. *)
Definition rounds (l : Lexer) : nat := S (length (input l)).

(** [readReserved].  In the second condition [&&] binds tighter than [||]:
    [string(slice[:4]) == "null"] is evaluated whenever the test for "true"
    fails, also on a slice shorter than four bytes, and both keywords share
    the branch that appends a [TRUE] token. *)
Definition readReserved : M Lexer (Z * option error) :=
  l <- get ;;
  slice <- orPanic slice_bounds_out_of_range (slice_from (input l) (pos l)) ;;
  let upto (n : Z) : M Lexer string :=
    b <- orPanic slice_bounds_out_of_range (slice_range slice (spare l) 0 n) ;;
    ret (string_of_list_byte b) in
  is_false <- (if 5 <=? len slice
               then s5 <- upto 5 ;; ret (String.eqb s5 "false")
               else ret false) ;;
  if is_false : bool then
    appendToken FALSE "false" ;;; add_col 4 ;;; ret (4, None)
  else
    is_true <- (if 4 <=? len slice
                then s4 <- upto 4 ;; ret (String.eqb s4 "true")
                else ret false) ;;
    matched <- (if is_true : bool then ret true
                else s4 <- upto 4 ;; ret (String.eqb s4 "null")) ;;
    if matched : bool then
      s4 <- upto 4 ;; appendToken TRUE s4 ;;; add_col 3 ;;; ret (3, None)
    else ret (0, Some (unexpected_identifier (line l) (col l))).

(** [readString]: every round decodes the rune at [l.pos] (the cursor does
    not move inside the loop), and tests [structures[r] == EOF] before the
    test for the closing quote. *)
Fixpoint readString_loop (fuel : nat) (size : Z) : M Lexer (Z * option error) :=
  match fuel with
  | O => stop Diverges
  | S fuel' =>
    l <- get ;;
    p <- orPanic slice_bounds_out_of_range (slice_from (input l) (pos l)) ;;
    let '(r, s) := DecodeRune p in
    if r =? RuneError then ret (0, Some (invalid_UTF8 (line l) (col l)))
    else if bool_decide (structures_at r = EOF)
    then ret (0, Some (unexpected_EOF (line l) (col l)))
    else if r =? 0x22 then
      (if negb (size =? 0) then
         add_col (-1) ;;;
         b <- orPanic slice_bounds_out_of_range
                (slice_range (input l) (spare l) (pos l) (pos l + size)) ;;
         appendToken STRING (string_of_list_byte b) ;;;
         add_col 1
       else ret tt) ;;;
      appendToken QUOTE quote_literal ;;;
      add_col 1 ;;;
      ret (size + s, None)
    else
      add_col 1 ;;;
      readString_loop fuel' (size + s)
  end.

Definition readString : M Lexer (Z * option error) :=
  l <- get ;; readString_loop (rounds l) 0.

(** [readNumber]: no token is appended here, nor by [Next] on its return. *)
Fixpoint readNumber_loop (fuel : nat) (hasDecimal : bool) (size : Z)
  : M Lexer (Z * option error) :=
  match fuel with
  | O => stop Diverges
  | S fuel' =>
    l <- get ;;
    if len (input l) <=? pos l + size
    then ret (0, Some (unexpected_EOF (line l) (col l)))
    else
      p <- orPanic slice_bounds_out_of_range (slice_from (input l) (pos l + size)) ;;
      let '(r, s) := DecodeRune p in
      if r =? RuneError then ret (0, Some (invalid_UTF8 (line l) (col l)))
      else
        let t := structures_at r in
        if bool_decide (t = WHITESPACE) || bool_decide (t = NEWLINE)
           || bool_decide (t = COMMA)
        then ret (size, None)
        else if r =? 0x2E then
          if hasDecimal
          then stop (Fatalf (Fatal_unexpected_lexer r (line l) (pos l)))
          else add_col 1 ;;; readNumber_loop fuel' true (size + s)
        else if negb (IsDigit r)
        then stop (Fatalf (Fatal_unexpected_lexer r (line l) (pos l)))
        else add_col 1 ;;; readNumber_loop fuel' hasDecimal (size + s)
  end.

Definition readNumber (size : Z) : M Lexer (Z * option error) :=
  l <- get ;; readNumber_loop (rounds l) false size.

(** [if s, err := c; err != nil { return 0, err } else { size += s }] *)
Definition add_size (size : Z) (c : M Lexer (Z * option error))
  : M Lexer (Z * option error) :=
  x <- c ;;
  match x with
  | (_, Some err) => ret (0, Some err)
  | (s, None) => ret (size + s, None)
  end.

(** The end-of-input branch of [Next]. *)
Definition emitEOF : M Lexer (Z * option error) :=
  l <- get ;;
  set_line (line l + 1) ;;;
  set_col 0 ;;;
  appendToken EOF (TokenType_String EOF) ;;;
  ret (0, None).

(** [Next]: the byte count and the error it returns.  The inner computation
    is the [if]/[switch] on the rune: it yields the final [size], or the
    error of an early [return 0, err]. *)
Definition Next : M Lexer (Z * option error) :=
  l <- get ;;
  if len (input l) <=? pos l then emitEOF
  else
    p <- orPanic slice_bounds_out_of_range (slice_from (input l) (pos l)) ;;
    let '(r, size) := DecodeRune p in
    if r =? RuneError then stop (Fatalf (Fatal_invalid_utf8 (line l) (pos l)))
    else if size =? 0 then emitEOF
    else
      x <- (match structures !! r with
            | Some token =>
              add_col 1 ;;;
              appendToken token (TokenType_String token) ;;;
              ret (size, None)
            | None =>
              if r =? 0x0A then
                set_line (line l + 1) ;;;
                set_col 0 ;;;
                appendToken NEWLINE (TokenType_String NEWLINE) ;;;
                ret (size, None)
              else if (r =? 0x20) || (r =? 0x09) || (r =? 0x0D) then
                (if r =? 0x09 then add_col 4 else add_col 1) ;;;
                appendToken WHITESPACE (TokenType_String WHITESPACE) ;;;
                ret (size, None)
              else if (r =? 0x74) || (r =? 0x66) || (r =? 0x6E) then
                add_size size readReserved
              else if r =? 0x22 then
                add_size size readString
              else if (r =? 0x2D) || IsDigit r then
                add_size size (readNumber size)
              else
                ret (0, Some (unexpected_rune r (line l) (col l)))
            end) ;;
      match x with
      | (_, Some err) => ret (0, Some err)
      | (size, None) =>
        l' <- get ;;
        set_pos (pos l' + size) ;;;
        ret (size, None)
      end.

(** [peek]: the rune after the one under the cursor, or [(0, 0)] when the
    rune under the cursor is the last. *)
Definition peek : M Lexer (rune * Z) :=
  l <- get ;;
  p <- orPanic slice_bounds_out_of_range (slice_from (input l) (pos l)) ;;
  let '(_, size) := DecodeRune p in
  if len (input l) <=? pos l + size then ret (0, 0)
  else
    q <- orPanic slice_bounds_out_of_range
           (slice_from (input l) (pos l + size)) ;;
    ret (DecodeRune q).

End lexer.

(** ** Package parser *)

Module parser.
Import lexer.
#[local] Open Scope go_scope.

(** document.go.  Objects, arrays and values live in the heap; a value of
    the interface type [element] is nil or the address of one of them. *)
Abbreviation loc := nat (only parsing).
Definition element : Type := option loc.

Record object : Type := mkObject {
  o_parent : element;                    (* parent *)
  m : option (gmap string element)       (* [None] is the nil map *)
}.
Record array : Type := mkArray {
  a_parent : element;                    (* parent *)
  e : list element
}.
Record value : Type := mkValue {
  v_parent : element;                    (* parent *)
  t : Token
}.
Inductive node : Type :=
| Object (o : object)
| Array (a : array)
| Value (v : value).

Record Document : Type := mkDocument {
  index : option (gmap string element);
  elements : list element
}.

(** The [Parser] of parser.go, which owns the lexer that [CreateObject]
    is handed ([&p.lexer]). *)
Record Parser : Type := mkParser { lexer : Lexer }.

(** What a call of the package may change: the parser it runs on and the
    heap of elements. *)
Record World : Type := mkWorld {
  this : Parser;
  heap : gmap loc node
}.

(** A call on the [l] of [CreateObject], which is [&p.lexer]. *)
Definition onLexer {A} (c : M Lexer A) : M World A :=
  fun w => match c (lexer (this w)) with
           | Ret a l' => Ret a {| this := {| lexer := l' |}; heap := heap w |}
           | Halt h => Halt h
           end.

(** [l.Token()] as a call: the panic of the index expression included. *)
Definition Token : M Lexer lexer.Token :=
  l <- get ;; orPanic index_out_of_range (Token_ l).

(** [&object{...}], [&array{...}], [&value{...}]: a fresh address. *)
Definition new (n : node) : M World element :=
  fun w => let p := fresh (dom (heap w)) in
           Ret (Some p) {| this := this w; heap := <[ p := n ]> (heap w) |}.

(** [object.AddElement], on the object the receiver points to. *)
Definition object_AddElement (name : string) (x : element) : M object unit :=
  o <- get ;;
  let ok := match m o with
            | Some mp => bool_decide (is_Some (mp !! name))
            | None => false      (* a nil map holds no key *)
            end in
  if ok then stop (Fatalf (Fatal_element_exists name))
  else match m o with
       | Some mp => modify (fun o => {| o_parent := o_parent o;
                                        m := Some (<[ name := x ]> mp) |})
       | None => stop (Panic assignment_to_entry_in_nil_map)
       end.

(** [array.AddElement] *)
Definition array_AddElement (_ : string) (x : element) : M array unit :=
  modify (fun a => {| a_parent := a_parent a; e := e a ++ [x] |}).

(** A method call on the node at address [p]. *)
Definition onObject (p : loc) (o : object) (c : M object unit) : M World unit :=
  fun w => match c o with
           | Ret _ o' => Ret tt {| this := this w; heap := <[ p := Object o' ]> (heap w) |}
           | Halt h => Halt h
           end.
Definition onArray (p : loc) (a : array) (c : M array unit) : M World unit :=
  fun w => match c a with
           | Ret _ a' => Ret tt {| this := this w; heap := <[ p := Array a' ]> (heap w) |}
           | Halt h => Halt h
           end.

(** [recv.AddElement(name, x)] through the interface; [value.AddElement]
    hands the call to [v.parent], one level of [depth] each time. *)
Fixpoint AddElement (depth : nat) (recv : element) (name : string) (x : element)
  : M World unit :=
  match recv with
  | None => stop (Panic nil_pointer_dereference)
  | Some p =>
    w <- get ;;
    match heap w !! p with
    | None => stop (Panic nil_pointer_dereference)
    | Some (Object o) => onObject p o (object_AddElement name x)
    | Some (Array a) => onArray p a (array_AddElement name x)
    | Some (Value v) =>
      match depth with
      | O => stop Diverges
      | S depth' => AddElement depth' (v_parent v) name x
      end
    end
  end.

(** [CreateObject]: the loop reads tokens up to a [RBRACE]; the object it
    returns is made after the loop, with an empty map, and no call of
    [AddElement] occurs.  The results of [l.Next()] are dropped. *)
Fixpoint CreateObject_loop (fuel : nat) : M Lexer unit :=
  match fuel with
  | O => stop Diverges
  | S fuel' =>
    t0 <- Token ;;
    if bool_decide (Typ t0 = RBRACE) then ret tt
    else
      Next ;;;
      t1 <- Token ;;
      (if bool_decide (Typ t1 = EOF) then
         tl <- Token ;; tc <- Token ;;
         stop (Fatalf (Fatal_object_EOF (Line tl) (Col tc)))
       else
         t2 <- Token ;;
         if bool_decide (Typ t2 = STRING) then
           Token ;;;
           Next ;;;
           t3 <- Token ;;
           (if negb (bool_decide (Typ t3 = COLON)) then
              tl <- Token ;; tc <- Token ;;
              stop (Fatalf (Fatal_expected_colon (Line tl) (Col tc)))
            else ret tt) ;;;
           Next ;;;
           ret tt
         else ret tt) ;;;
      CreateObject_loop fuel'
  end.

Definition CreateObject (fuel : nat) : M World element :=
  onLexer (CreateObject_loop fuel) ;;;
  new (Object {| o_parent := None; m := Some ∅ |}).

End parser.

(** ** Package lexer, the file whose [Next] returns the count alone *)

(** lexer.go as the first 222 lines of part_003 have it: token types that
    are untyped integer constants, a [Token] without [Col], a map
    [tokenMap] from strings to token types kept in every lexer, an [index]
    into the log, and a [Next] with one result.  parser.go is written
    against this [Next] ([p.lexer.Next() != 0]). *)
Module lexer0.

(** [type TokenType int]; the constants, [EOF = iota] onwards, are untyped,
    which lets the code compare a rune with [EOF]. *)
Abbreviation TokenType := Z (only parsing).
Definition EOF : Z := 0.
Definition NEWLINE : Z := 1.
Definition WHITESPACE : Z := 2.
Definition QUOTE : Z := 3.
Definition LBRACE : Z := 4.
Definition RBRACE : Z := 5.
Definition LBRACKET : Z := 6.
Definition RBRACKET : Z := 7.
Definition COMMA : Z := 8.
Definition COLON : Z := 9.
Definition NUMBER : Z := 10.
Definition STRING : Z := 11.
Definition TRUE : Z := 12.
Definition FALSE : Z := 13.
Definition NULL : Z := 14.

Record Token : Type := mkToken {
  Typ : TokenType;     (* Type *)
  Literal : string;
  Line : Z;
  Pos : Z
}.

Record Lexer : Type := mkLexer {
  input : list byte;
  spare : list byte;   (* backing array of [input] between len and cap *)
  tokens : list Token;
  pos : Z;
  index : Z;
  line : Z;
  tokenMap : gmap string TokenType
}.

(** The string of one byte, for the keys that a string literal of this file
    cannot spell. *)
Definition chr (b : byte) : string := string_of_list_byte [b].

Definition NewLexer (input spare : list byte) : Lexer :=
  {| input := input; spare := spare; tokens := []; pos := 0; index := 0;
     line := 1;
     tokenMap :=
       <[ "{" := LBRACE ]> (
       <[ "}" := RBRACE ]> (
       <[ "[" := LBRACKET ]> (
       <[ "]" := RBRACKET ]> (
       <[ "," := COMMA ]> (
       <[ ":" := COLON ]> (
       <[ "true" := TRUE ]> (
       <[ "false" := FALSE ]> (
       <[ "null" := NULL ]> (
       <[ chr x22 := QUOTE ]> (          (* the double quote *)
       <[ " " := WHITESPACE ]> (
       <[ chr x09 := WHITESPACE ]> (     (* \t *)
       <[ chr x0d := WHITESPACE ]> (     (* \r *)
       <[ chr x0a := NEWLINE ]> ∅))))))))))))) |}.   (* \n *)

(** [Reset] leaves the log (and the buffer and the map) as they are. *)
Definition Reset (l : Lexer) : Lexer :=
  {| input := input l; spare := spare l; tokens := tokens l; pos := 0;
     index := 0; line := 1; tokenMap := tokenMap l |}.

(** [l.tokens[l.index]]: a panic when the index is outside the log. *)
Definition Token_ (l : Lexer) : option Token :=
  if 0 <=? index l then tokens l !! Z.to_nat (index l) else None.

Definition Tokens (l : Lexer) : list Token := tokens l.

#[local] Open Scope go_scope.

Definition set_line (v : Z) : M Lexer unit :=
  modify (fun l => {| input := input l; spare := spare l; tokens := tokens l;
                      pos := pos l; index := index l; line := v;
                      tokenMap := tokenMap l |}).
Definition set_pos (v : Z) : M Lexer unit :=
  modify (fun l => {| input := input l; spare := spare l; tokens := tokens l;
                      pos := v; index := index l; line := line l;
                      tokenMap := tokenMap l |}).
Definition set_index (v : Z) : M Lexer unit :=
  modify (fun l => {| input := input l; spare := spare l; tokens := tokens l;
                      pos := pos l; index := v; line := line l;
                      tokenMap := tokenMap l |}).
Definition add_index (d : Z) : M Lexer unit :=
  l <- get ;; set_index (index l + d).

Definition appendToken (t : TokenType) (literal : string) : M Lexer unit :=
  modify (fun l =>
    {| input := input l; spare := spare l;
       tokens := tokens l ++ [ {| Typ := t; Literal := literal;
                                  Line := line l; Pos := pos l |} ];
       pos := pos l; index := index l; line := line l;
       tokenMap := tokenMap l |}).

(** Rounds granted to the two loops over the buffer. *)
Definition rounds (l : Lexer) : nat := S (length (input l)).

(** The loop of the [QUOTE] case of [lexToken]: [p] is its local [pos], the
    value it yields is [pos] at the [break].  A backslash is passed over as
    any other rune is. *)
Fixpoint string_loop (fuel : nat) (size : Z) (p : Z) : M Lexer Z :=
  match fuel with
  | O => stop Diverges
  | S fuel' =>
    l <- get ;;
    sl <- orPanic slice_bounds_out_of_range (slice_from (input l) p) ;;
    let '(r, s) := DecodeRune sl in
    if r =? RuneError then stop (Fatalf (Fatal_invalid_utf8 (line l) (pos l)))
    else if r =? EOF then stop (Fatalf (Fatal_EOF (line l) (pos l)))
    else if r =? 0x5C then string_loop fuel' size (p + s)
    else if r =? 0x22 then
      literal <- orPanic slice_bounds_out_of_range
                   (slice_range (input l) (spare l) (pos l) (pos l + s)) ;;
      str <- orPanic slice_bounds_out_of_range
               (slice_range (input l) (spare l) (pos l + size) p) ;;
      appendToken STRING (string_of_list_byte str) ;;;
      appendToken QUOTE (string_of_list_byte literal) ;;;
      ret p
    else string_loop fuel' size (p + s)
  end.

Definition lexToken (token : TokenType) (r : rune) (size : Z) : M Lexer Z :=
  if token =? EOF then appendToken EOF EmptyString ;;; ret size
  else if token =? NEWLINE then
    l <- get ;; set_line (line l + 1) ;;; ret size
  else if token =? WHITESPACE then add_index 1 ;;; ret size
  else if token =? QUOTE then
    appendToken QUOTE (string_of_rune r) ;;;
    l <- get ;;
    p <- string_loop (rounds l) size (pos l + size) ;;
    ret (size + (p - pos l))
  else appendToken token (string_of_rune r) ;;; ret size.

(** The loop of the number branch of [Next]; it yields [size] at the
    [break].  [l.tokenMap[string(r)]] in its one-result form is [EOF], the
    zero value, for a key the map does not hold. *)
Fixpoint number_loop (fuel : nat) (hasDecimal : bool) (size : Z) : M Lexer Z :=
  match fuel with
  | O => stop Diverges
  | S fuel' =>
    l <- get ;;
    sl <- orPanic slice_bounds_out_of_range
            (slice_from (input l) (pos l + size)) ;;
    let '(r, s) := DecodeRune sl in
    if r =? RuneError then stop (Fatalf (Fatal_invalid_utf8 (line l) (pos l)))
    else if r =? EOF then stop (Fatalf (Fatal_EOF (line l) (pos l)))
    else
      let t := match tokenMap l !! string_of_rune r with
               | Some t => t
               | None => EOF
               end in
      if (t =? WHITESPACE) || (t =? NEWLINE) || (t =? COMMA) then ret size
      else if r =? 0x2E then
        if hasDecimal
        then stop (Fatalf (Fatal_unexpected_token r (line l) (pos l)))
        else add_index 1 ;;; number_loop fuel' true (size + s)
      else if negb (IsDigit r)
      then stop (Fatalf (Fatal_unexpected_token r (line l) (pos l)))
      else add_index 1 ;;; number_loop fuel' hasDecimal (size + s)
  end.

(** [string(l.input[l.pos:l.pos+n])]: the slice may reach into the backing
    array, and panics past its capacity. *)
Definition word (n : Z) : M Lexer string :=
  l <- get ;;
  b <- orPanic slice_bounds_out_of_range
         (slice_range (input l) (spare l) (pos l) (pos l + n)) ;;
  ret (string_of_list_byte b).

Definition Next : M Lexer Z :=
  l <- get ;;
  if len (input l) =? 0 then appendToken EOF EmptyString ;;; ret 0
  else if len (input l) <=? pos l then
    set_line (line l + 1) ;;; appendToken EOF EmptyString ;;; ret 0
  else
    sl <- orPanic slice_bounds_out_of_range (slice_from (input l) (pos l)) ;;
    let '(r, size) := DecodeRune sl in
    if r =? RuneError then stop (Fatalf (Fatal_invalid_utf8 (line l) (pos l)))
    else
      size <- (match tokenMap l !! string_of_rune r with
               | Some token => lexToken token r size
               | None =>
                 if (r =? 0x74) || (r =? 0x66) || (r =? 0x6E) then
                   w5 <- word 5 ;;
                   if String.eqb w5 "false" then
                     appendToken FALSE "false" ;;; add_index 4 ;;;
                     ret (size + 4)
                   else
                     w4 <- word 4 ;;
                     if String.eqb w4 "true" then
                       appendToken TRUE "true" ;;; add_index 3 ;;;
                       ret (size + 3)
                     else
                       w4' <- word 4 ;;
                       if String.eqb w4' "null" then
                         appendToken NULL "null" ;;; add_index 3 ;;;
                         ret (size + 3)
                       else ret size
                 else if IsDigit r || (r =? 0x2D) then
                   size' <- number_loop (rounds l) false size ;;
                   lit <- orPanic slice_bounds_out_of_range
                            (slice_range (input l) (spare l) (pos l)
                                         (pos l + size')) ;;
                   appendToken NUMBER (string_of_list_byte lit) ;;;
                   ret size'
                 else stop (Fatalf (Fatal_unexpected_token r (line l) (pos l)))
               end) ;;
      l' <- get ;;
      set_pos (pos l' + size) ;;;
      ret size.

(** [peak]: the rune after the one under the cursor, or [(0, 0)]. *)
Definition peak : M Lexer (rune * Z) :=
  l <- get ;;
  p <- orPanic slice_bounds_out_of_range (slice_from (input l) (pos l)) ;;
  let '(_, size) := DecodeRune p in
  if len (input l) <=? pos l + size then ret (0, 0)
  else
    q <- orPanic slice_bounds_out_of_range
           (slice_from (input l) (pos l + size)) ;;
    ret (DecodeRune q).

End lexer0.

(** ** parser.go, over the lexer it is written against *)

(** [Parse] tests [p.lexer.Next() != 0]: the expression has a type only
    when [Next] has one result, so parser.go is read here with the lexer of
    [lexer0].  document.go's [CreateObject] reads [Token().Col], a field
    the [Token] of that lexer does not have: its body has no reading
    against this lexer, and the call in [Parse] is a parameter of the model.
    What is proved of [Parse] holds whatever that call does. *)
Module parser0.
#[local] Open Scope go_scope.

Record Parser : Type := mkParser { lexer : lexer0.Lexer }.

(** What a call may change: the parser it runs on and the heap of
    elements. *)
Record World : Type := mkWorld {
  this : Parser;
  heap : gmap nat parser.node
}.

Definition NewParser (input spare : list byte) : World :=
  {| this := {| lexer := lexer0.NewLexer input spare |}; heap := ∅ |}.

(** A call on [p.lexer]. *)
Definition onLexer {A} (c : M lexer0.Lexer A) : M World A :=
  fun w => match c (lexer (this w)) with
           | Ret a l' => Ret a {| this := {| lexer := l' |}; heap := heap w |}
           | Halt h => Halt h
           end.

(** [p.lexer.Token()] as a call: the panic of the index expression
    included. *)
Definition Token : M lexer0.Lexer lexer0.Token :=
  l <- get ;; orPanic index_out_of_range (lexer0.Token_ l).

(** The first loop of [Parse]; [log.Printf] writes to the log only. *)
Fixpoint Parse_drain (fuel : nat) : M lexer0.Lexer unit :=
  match fuel with
  | O => stop Diverges
  | S fuel' =>
    n <- lexer0.Next ;;
    if negb (n =? 0) then Parse_drain fuel' else ret tt
  end.

Section Parse.

(** [CreateObject(&p.lexer)] *)
Variable CreateObject : M World parser.element.

(** The second loop of [Parse]. *)
Fixpoint Parse_build (fuel : nat) (d : parser.Document)
  : M World parser.Document :=
  match fuel with
  | O => stop Diverges
  | S fuel' =>
    n <- onLexer lexer0.Next ;;
    if negb (n =? 0) then
      t <- onLexer Token ;;
      onLexer lexer0.Next ;;;
      if lexer0.Typ t =? lexer0.LBRACE then
        o <- CreateObject ;;
        Parse_build fuel' {| parser.index := parser.index d;
                             parser.elements := parser.elements d ++ [o] |}
      else if lexer0.Typ t =? lexer0.LBRACKET then Parse_build fuel' d
      else if lexer0.Typ t =? lexer0.EOF then ret d
      else stop (Fatalf (Fatal_root (lexer0.Line t) (lexer0.Pos t)))
    else ret d
  end.

(** [Parse].  The loops get a round more than the buffer has bytes: every
    round of the first loop but its last moves the cursor by a byte at
    least. *)
Definition Parse : M World parser.Document :=
  w <- get ;;
  let fuel := lexer0.rounds (lexer (this w)) in
  onLexer (Parse_drain fuel) ;;;
  Parse_build fuel {| parser.index := None; parser.elements := [] |}.

End Parse.

End parser0.

(** ** Notions used by the statements *)

Import lexer parser.

(** The bytes of a string, and of a string between double quotes. *)
Definition bytes (s : string) : list byte := list_byte_of_string s.
Definition quoted (s : string) : list byte := [x22] ++ bytes s ++ [x22].

(** The inputs of the specification's examples:
    {"key": "value", "num": 10000, "num2": 10000.0, "bool": true},
    the same as main.go writes it (a line per entry, indented by tabs),
    {"a":1,"a":2} and {"a": 1.2.3}. *)
Definition example_input : list byte :=
  bytes "{" ++ quoted "key" ++ bytes ": " ++ quoted "value" ++ bytes ", "
  ++ quoted "num" ++ bytes ": 10000, "
  ++ quoted "num2" ++ bytes ": 10000.0, "
  ++ quoted "bool" ++ bytes ": true}".
Definition main_input : list byte :=
  bytes "{" ++ [x0a; x09; x09]
  ++ quoted "key" ++ bytes ": " ++ quoted "value" ++ bytes "," ++ [x0a; x09; x09]
  ++ quoted "num" ++ bytes ": 10000," ++ [x0a; x09; x09]
  ++ quoted "num2" ++ bytes ": 10000.0," ++ [x0a; x09; x09]
  ++ quoted "bool" ++ bytes ": true" ++ [x0a; x09]
  ++ bytes "}".
Definition duplicate_input : list byte :=
  bytes "{" ++ quoted "a" ++ bytes ":1," ++ quoted "a" ++ bytes ":2}".
Definition malformed_input : list byte :=
  bytes "{" ++ quoted "a" ++ bytes ": 1.2.3}".

(** Three lines: "[", "[" and two spaces before "]". *)
Definition three_lines : list byte :=
  bytes "[" ++ [x0a] ++ bytes "[" ++ [x0a] ++ bytes "  ]".

(** [n] calls of [Next] in a row, with what each returned. *)
Fixpoint NextN (n : nat) : M Lexer (list (Z * option error)) :=
  match n with
  | O => ret []
  | S n' => (x <- Next ;; xs <- NextN n' ;; ret (x :: xs))%go
  end.

(** What the code run by one call of [Next] may change before the cursor is
    moved: it appends tokens, each with [Col] the byte position of the
    cursor and [Pos] zero, and leaves the buffer and the cursor alone. *)
Definition keeps (l l' : Lexer) : Prop :=
  input l' = input l /\ spare l' = spare l /\ pos l' = pos l /\
  exists new, tokens l' = tokens l ++ new /\
              Forall (fun t => Col t = pos l /\ Pos t = 0) new.

(** The byte under the cursor, when the cursor is inside the buffer. *)
Definition byte_at_cursor (l : Lexer) : option byte :=
  if 0 <=? pos l then input l !! Z.to_nat (pos l) else None.




(** Two lexers over the same buffer with the cursor at the same byte. *)
Definition same_cursor (l1 l2 : Lexer) : Prop :=
  input l1 = input l2 /\ spare l1 = spare l2 /\ pos l1 = pos l2.

(** Two calls that end the same way: both halt, or both return, with the
    same count, an error in both or in neither, and lexers that agree on
    buffer and cursor. *)
Definition agree (r1 r2 : result Lexer (Z * option error)) : Prop :=
  match r1, r2 with
  | Ret (n1, e1) l1, Ret (n2, e2) l2 =>
    n1 = n2 /\ (e1 = None <-> e2 = None) /\ same_cursor l1 l2
  | Halt _, Halt _ => True
  | _, _ => False
  end.

(** A halt of the code itself, not the fuel of the model running out. *)
Definition halts_for_real (h : halt) : Prop :=
  match h with
  | Diverges => False
  | _ => True
  end.

(** A halt that is not the duplicate-key failure of [AddElement]. *)
Definition not_duplicate_key (h : halt) : Prop :=
  match h with
  | Fatalf (Fatal_element_exists _) => False
  | _ => True
  end.

(** What may follow the first byte of a number: ASCII digits, with one '.'
    at most; [dec] says whether a '.' was met before.  The result says
    whether the text met one, and is [None] when a byte is neither. *)
Fixpoint number_tail (dec : bool) (bs : list byte) : option bool :=
  match bs with
  | [] => Some dec
  | b :: bs' =>
    if (0x30 <=? byteZ b) && (byteZ b <=? 0x39) then number_tail dec bs'
    else if (byteZ b =? 0x2E) && negb dec then number_tail true bs'
    else None
  end.

(** The lexer [l] with another column. *)
Definition with_col (l : Lexer) (c : Z) : Lexer :=
  {| input := input l; spare := spare l; tokens := tokens l;
     line := line l; col := c; pos := pos l |}.

(** The state of a lexer as calls of [Next] keep it: line, column and
    cursor within their ranges, every token of the log with a line of the
    input read so far, a byte position not past the cursor in [Col] and 0
    in [Pos], and the log in the order of the lines and of the byte
    positions. *)
Definition well_formed (l : Lexer) : Prop :=
  1 <= line l /\ 0 <= col l /\ 0 <= pos l /\
  Forall (fun t => 1 <= Line t <= line l /\ 0 <= Col t <= pos l /\ Pos t = 0)
         (tokens l) /\
  forall (i j : nat) (a b : lexer.Token),
    (i < j)%nat -> tokens l !! i = Some a -> tokens l !! j = Some b ->
    Line a <= Line b /\ Col a <= Col b.

(** The element [e] is [k] values away from the element [q]: following
    [parent] from value to value [k] times leads from [e] to [q]. *)
Fixpoint reaches (h : gmap loc node) (k : nat) (e q : element) : Prop :=
  match k with
  | O => e = q
  | S k' => exists p v, e = Some p /\ h !! p = Some (Value v) /\
                        reaches h k' (v_parent v) q
  end.

(** The element is a container: the address of an object or an array. *)
Definition container (h : gmap loc node) (q : element) : Prop :=
  exists p, q = Some p /\
            ((exists o, h !! p = Some (Object o)) \/
             (exists a, h !! p = Some (Array a))).

(** A lexer over an opening brace whose log holds the [LBRACE] token, as
    it stands when the brace has been read; [rest] is what follows. *)
Definition after_brace (rest : list byte) : Lexer :=
  {| input := bytes "{" ++ rest; spare := [];
     tokens := [ {| Typ := LBRACE; Literal := "LBRACE"; Line := 1; Col := 0;
                    Pos := 0 |} ];
     line := 1; col := 1; pos := 1 |}.

(** A halt of the code itself that is not the duplicate-key failure. *)
Definition plain_halt (h : halt) : Prop :=
  halts_for_real h /\ not_duplicate_key h.

(** The lexer carries the map that [lexer0.NewLexer] installs. *)
Definition has_tokenMap (l : lexer0.Lexer) : Prop :=
  lexer0.tokenMap l = lexer0.tokenMap (lexer0.NewLexer [] []).

(** What the map of [lexer0.NewLexer] holds under the string of one byte. *)
Definition token_of_byte (b : byte) : option Z :=
  match b with
  | x7b => Some lexer0.LBRACE | x7d => Some lexer0.RBRACE
  | x5b => Some lexer0.LBRACKET | x5d => Some lexer0.RBRACKET
  | x2c => Some lexer0.COMMA | x3a => Some lexer0.COLON
  | x22 => Some lexer0.QUOTE
  | x20 | x09 | x0d => Some lexer0.WHITESPACE
  | x0a => Some lexer0.NEWLINE
  | _ => None
  end.

(** The lexer [l] with another index. *)
Definition with_index (l : lexer0.Lexer) (v : Z) : lexer0.Lexer :=
  {| lexer0.input := lexer0.input l; lexer0.spare := lexer0.spare l;
     lexer0.tokens := lexer0.tokens l; lexer0.pos := lexer0.pos l;
     lexer0.index := v; lexer0.line := lexer0.line l;
     lexer0.tokenMap := lexer0.tokenMap l |}.

(** [n] calls of the one-result [Next] in a row, with what each returned. *)
Fixpoint NextN0 (n : nat) : M lexer0.Lexer (list Z) :=
  match n with
  | O => ret []
  | S n' => (x <- lexer0.Next ;; xs <- NextN0 n' ;; ret (x :: xs))%go
  end.

(** ** The run-time model *)

Ltac split_ifs :=
  repeat match goal with
         | |- context [if ?c then _ else _] =>
           lazymatch c with
           | context [if _ then _ else _] => fail
           | _ => destruct c
           end
         end.

Lemma DecodeRune_width (p : list byte) : 0 <= snd (DecodeRune p) <= 4.
Proof.
  unfold DecodeRune. cbv zeta. split_ifs; simpl; lia.
Qed.

Lemma DecodeRune_nonempty (b : byte) (p : list byte) :
  1 <= snd (DecodeRune (b :: p)).
Proof.
  unfold DecodeRune. cbv zeta.
  replace (len (b :: p) <? 1) with false
    by (unfold len; simpl length; symmetry; apply Z.ltb_ge; lia).
  split_ifs; simpl; lia.
Qed.

Lemma len_nonneg {A} (s : list A) : 0 <= len s.
Proof. unfold len. lia. Qed.

Lemma slice_from_inside (s : list byte) (lo : Z) :
  0 <= lo < len s ->
  exists b p, slice_from s lo = Some (b :: p).
Proof.
  intros H. unfold slice_from.
  replace ((0 <=? lo) && (lo <=? len s)) with true
    by (symmetry; apply andb_true_iff; split; apply Z.leb_le; lia).
  destruct (drop (Z.to_nat lo) s) as [|b p] eqn:E; eauto.
  apply (f_equal length) in E. rewrite length_drop in E.
  unfold len in H. simpl in E. lia.
Qed.

(** ** The lexer, call by call *)

(** Symbolic execution of a call that returned: unfold the monad, split on
    every test in the order the code makes them. *)
Create HintDb go discriminated.
#[local] Hint Unfold bind get ret stop modify orPanic add_col set_col set_line
  set_pos appendToken emitEOF add_size : go.

Ltac no_variable c :=
  tryif (match c with context [?v] => is_var v end) then fail else idtac.

Ltac run_step H :=
  match type of H with
  | context [match ?c with _ => _ end] =>
    lazymatch c with
    | context [match _ with _ => _ end] => fail
    | _ =>
      first [ match goal with
              | Heq : c = _ |- _ => rewrite Heq in H
              end
            | lazymatch type of c with
              | bool =>
                no_variable c;
                let v := eval vm_compute in c in
                lazymatch v with
                | true => change c with true in H
                | false => change c with false in H
                end
              end
            | let E := fresh "E" in destruct c eqn:E ]
    end
  | Ret _ _ = Ret _ _ => inversion H; subst; clear H
  | Halt _ = Ret _ _ => discriminate H
  | Ret _ _ = Halt _ => discriminate H
  | Halt _ = Halt _ => inversion H; subst; clear H
  end.

Ltac run H :=
  repeat (autounfold with go in H;
          cbn beta iota zeta delta
            [fst snd input spare tokens line col pos this heap lexer] in H;
          run_step H).

(** The same for the lexer with the one-result [Next]. *)
Create HintDb go0 discriminated.
#[local] Hint Unfold bind get ret stop modify orPanic lexer0.set_line
  lexer0.set_pos lexer0.set_index lexer0.add_index lexer0.appendToken
  lexer0.word parser0.onLexer parser0.Token : go0.

Ltac run0 H :=
  repeat (autounfold with go0 in H;
          cbn beta iota zeta delta
            [fst snd lexer0.input lexer0.spare lexer0.tokens lexer0.pos
             lexer0.index lexer0.line lexer0.tokenMap parser0.this
             parser0.heap parser0.lexer] in H;
          run_step H).

Ltac keeps_now :=
  repeat split; cbn [input spare tokens pos];
  try (eexists; split;
       [ first [ reflexivity | symmetry; apply app_nil_r
               | rewrite <- app_assoc; reflexivity ]
       | repeat constructor ]).

Lemma keeps_refl (l : Lexer) : keeps l l.
Proof.
  repeat split. exists []. rewrite app_nil_r. auto.
Qed.

Lemma keeps_trans (l1 l2 l3 : Lexer) : keeps l1 l2 -> keeps l2 l3 -> keeps l1 l3.
Proof.
  intros (Hi & Hs & Hp & n1 & Ht1 & Hf1) (Hi' & Hs' & Hp' & n2 & Ht2 & Hf2).
  repeat split; try congruence.
  exists (n1 ++ n2). split.
  - rewrite Ht2, Ht1, app_assoc. reflexivity.
  - apply Forall_app. split; [assumption|]. rewrite <- Hp. assumption.
Qed.

Lemma keeps_col (l : Lexer) (c : Z) :
  keeps l {| input := input l; spare := spare l; tokens := tokens l;
             line := line l; col := c; pos := pos l |}.
Proof. keeps_now. Qed.

(** [readReserved] returns 4 or 3 after appending one token, or an error
    and the lexer as it was. *)
Lemma readReserved_spec (l l' : Lexer) (n : Z) (err : option error) :
  readReserved l = Ret (n, err) l' ->
  keeps l l' /\
  match err with
  | Some _ => n = 0 /\ l' = l
  | None => (n = 3 \/ n = 4) /\ exists t, tokens l' = tokens l ++ [t]
  end.
Proof.
  intros H. unfold readReserved in H. destruct l as [i sp tk ln c p].
  run H; (split; [keeps_now|]); eauto.
Qed.

(** [readString] never appends a token when it returns an error. *)
Lemma readString_loop_spec (fuel : nat) :
  forall (size : Z) (l l' : Lexer) (n : Z) (err : option error),
    readString_loop fuel size l = Ret (n, err) l' ->
    keeps l l' /\
    match err with
    | Some _ => n = 0 /\ tokens l' = tokens l
    | None => 0 <= size -> 0 <= n
    end.
Proof.
  induction fuel as [|fuel IH]; intros size l l' n err H; [discriminate H|].
  cbn [readString_loop] in H. destruct l as [i sp tk ln c p].
  run H; try (split; [keeps_now|]; eauto; fail);
    match goal with
    | E : DecodeRune ?s = (_, ?w) |- _ =>
      pose proof (DecodeRune_width s) as Hw; rewrite E in Hw; simpl in Hw
    end.
  - split; [keeps_now|]. lia.
  - split; [keeps_now|]. lia.
  - apply IH in H. destruct H as [Hk Hr]. split.
    + eapply keeps_trans; [|exact Hk]. keeps_now.
    + destruct err; [exact Hr|]. intros Hs. apply Hr. lia.
Qed.

Lemma readString_spec (l l' : Lexer) (n : Z) (err : option error) :
  readString l = Ret (n, err) l' ->
  keeps l l' /\
  match err with
  | Some _ => n = 0 /\ tokens l' = tokens l
  | None => 0 <= n
  end.
Proof.
  unfold readString. intros H. run H.
  apply readString_loop_spec in H. destruct H as [Hk Hr].
  split; [exact Hk|]. destruct err; [exact Hr|]. apply Hr. lia.
Qed.

(** [readNumber] appends no token; what it returns without error is at
    least the [size] it was given. *)
Lemma readNumber_loop_spec (fuel : nat) :
  forall (dec : bool) (size : Z) (l l' : Lexer) (n : Z) (err : option error),
    readNumber_loop fuel dec size l = Ret (n, err) l' ->
    keeps l l' /\ tokens l' = tokens l /\
    match err with
    | Some _ => n = 0
    | None => size <= n
    end.
Proof.
  induction fuel as [|fuel IH]; intros dec size l l' n err H; [discriminate H|].
  cbn [readNumber_loop] in H. destruct l as [i sp tk ln c p].
  run H; try (split; [keeps_now|]; split; [reflexivity|]; eauto; lia);
    match goal with
    | E : DecodeRune ?s = (_, ?w) |- _ =>
      pose proof (DecodeRune_width s) as Hw; rewrite E in Hw; simpl in Hw
    end;
    apply IH in H; destruct H as (Hk & Ht & Hr);
    (split; [eapply keeps_trans; [|exact Hk]; keeps_now|]);
    (split; [exact Ht|]); destruct err; auto; lia.
Qed.

Lemma readNumber_spec (size : Z) (l l' : Lexer) (n : Z) (err : option error) :
  readNumber size l = Ret (n, err) l' ->
  keeps l l' /\ tokens l' = tokens l /\
  match err with
  | Some _ => n = 0
  | None => size <= n
  end.
Proof.
  unfold readNumber. intros H. run H.
  apply readNumber_loop_spec in H. exact H.
Qed.

(** One call of [Next]: the buffer stays, the cursor moves forward by the
    count returned, tokens are appended, and none is when an error comes
    back. *)
Lemma Next_spec (l l' : Lexer) (n : Z) (err : option error) :
  Next l = Ret (n, err) l' ->
  input l' = input l /\ spare l' = spare l /\
  pos l' = pos l + n /\ 0 <= n /\
  (exists new, tokens l' = tokens l ++ new /\
               Forall (fun t => Col t = pos l /\ Pos t = 0) new) /\
  (err <> None -> n = 0 /\ tokens l' = tokens l).
Proof.
  intros H. unfold Next in H. destruct l as [i sp tk ln c p].
  run H;
    try match goal with
        | E : DecodeRune ?s = (_, ?w) |- _ =>
          pose proof (DecodeRune_width s) as Hw; rewrite E in Hw; simpl in Hw
        end;
    try match goal with
        | E : readReserved _ = Ret _ _ |- _ =>
          apply readReserved_spec in E;
          destruct E as [(Hi & Hs & Hp & new & Ht & Hf) Hr]
        | E : readString _ = Ret _ _ |- _ =>
          apply readString_spec in E;
          destruct E as [(Hi & Hs & Hp & new & Ht & Hf) Hr]
        | E : readNumber _ _ = Ret _ _ |- _ =>
          apply readNumber_spec in E;
          destruct E as [(Hi & Hs & Hp & new & Ht & Hf) [Hu Hr]]
        end;
    cbn [input spare tokens pos] in *.
  all: repeat match goal with
              | |- _ /\ _ => split
              end.
  all: try congruence; try lia; eauto.
  all: try (eexists; split;
            [ first [ reflexivity | symmetry; apply app_nil_r ]
            | repeat constructor ]; fail).
  all: try (intros _; split; [reflexivity|]; intuition congruence).
  all: try (destruct Hr; subst; lia).
  all: try (destruct Hr as [? ?]; subst; cbn [tokens pos]; lia).
  intros _. destruct Hr as [_ ->]. auto.
Qed.

(** Past the end of the buffer a call appends one [EOF] token, bumps the
    line, and returns 0 with no error. *)
Lemma Next_past_end (l : Lexer) :
  len (input l) <= pos l ->
  Next l = Ret (0, None)
             {| input := input l; spare := spare l;
                tokens := tokens l ++ [ {| Typ := EOF; Literal := "EOF";
                                           Line := line l + 1; Col := pos l;
                                           Pos := 0 |} ];
                line := line l + 1; col := 0; pos := pos l |}.
Proof.
  intros H. unfold Next. autounfold with go. cbn beta iota.
  apply Z.leb_le in H. rewrite H. reflexivity.
Qed.

Lemma NextN_keeps_buffer (k : nat) :
  forall (l l' : Lexer) (rs : list (Z * option error)),
    NextN k l = Ret rs l' ->
    input l' = input l /\ spare l' = spare l /\ pos l <= pos l'.
Proof.
  induction k as [|k IH]; intros l l' rs H; cbn [NextN] in H.
  - run H. repeat split; lia.
  - run H. destruct a as [n err].
    apply Next_spec in E. destruct E as (Hi & Hs & Hp & Hn & _).
    apply IH in E0. destruct E0 as (Hi' & Hs' & Hp').
    repeat split; try congruence. lia.
Qed.

(** C6: a call of [Next] that returns leaves the cursor where it was or
    further; with the cursor at or past the end of the buffer, any number
    of calls in a row return 0 and no error, each appending an [EOF]
    token. *)
Theorem Next_cursor_forward_and_EOF_repeats (l : Lexer) :
  (forall n err l', Next l = Ret (n, err) l' -> pos l <= pos l') /\
  (len (input l) <= pos l ->
   forall k : nat, exists l' eofs,
     NextN k l = Ret (repeat (0, None) k) l' /\
     pos l' = pos l /\
     tokens l' = tokens l ++ eofs /\
     length eofs = k /\
     Forall (fun t => Typ t = EOF) eofs).
Proof.
  split.
  - intros n err l' H. apply Next_spec in H. lia.
  - intros Hend k. revert l Hend.
    induction k as [|k IH]; intros l Hend.
    + exists l, []. cbn [NextN repeat]. rewrite app_nil_r. repeat split. constructor.
    + pose proof (Next_past_end l Hend) as HN.
      match type of HN with _ = Ret _ ?l1 => set (l1' := l1) in * end.
      destruct (IH l1' Hend) as (l' & eofs & Hrun & Hpos & Htok & Hlen & Hall).
      exists l'. eexists (_ :: eofs).
      cbn [NextN repeat]. unfold bind at 1. rewrite HN.
      unfold bind at 1. rewrite Hrun. cbn [ret].
      repeat split.
      * exact Hpos.
      * rewrite Htok. subst l1'. cbn [tokens]. rewrite <- app_assoc. reflexivity.
      * cbn [length]. rewrite Hlen. reflexivity.
      * constructor; [reflexivity | exact Hall].
Qed.

(** C7: after any number of calls of [Next] on a lexer made over a buffer,
    [Reset] gives the lexer [NewLexer] makes over that buffer: the log is
    empty, the buffer is the same, and every run of calls returns the same
    results and leaves the same lexer. *)
Theorem Reset_is_NewLexer (buf extra : list byte) (n : nat)
        (rs : list (Z * option error)) (l : Lexer) :
  NextN n (NewLexer buf extra) = Ret rs l ->
  Reset l = NewLexer buf extra /\
  tokens (Reset l) = [] /\
  input (Reset l) = buf /\
  forall k : nat, NextN k (Reset l) = NextN k (NewLexer buf extra).
Proof.
  intros H. apply NextN_keeps_buffer in H. destruct H as (Hi & Hs & _).
  assert (HR : Reset l = NewLexer buf extra).
  { unfold Reset, NewLexer. rewrite Hi, Hs. reflexivity. }
  rewrite HR. repeat split.
Qed.

(** C10: [Token] has a value exactly when the log holds a token, and the
    value is the token appended last; the log is empty on a lexer just made
    or just reset, and a call of [Next] that returns an error leaves it as
    it was, so only a call that succeeded can make [Token] defined. *)
Theorem Token_defined_iff_log_nonempty (l : Lexer) :
  (is_Some (Token_ l) <-> tokens l <> []) /\
  (forall ts t, tokens l = ts ++ [t] -> Token_ l = Some t) /\
  Token_ (Reset l) = None /\
  (forall buf extra, Token_ (NewLexer buf extra) = None) /\
  (forall n e l', Next l = Ret (n, Some e) l' -> Token_ l' = Token_ l).
Proof.
  unfold Token_. repeat split.
  - apply last_is_Some.
  - apply last_is_Some.
  - intros ts t ->. apply last_snoc.
  - intros n e l' H. apply Next_spec in H.
    destruct H as (_ & _ & _ & _ & _ & H).
    destruct H as [_ ->]; [discriminate | reflexivity].
Qed.

(** ** Runes under the cursor *)

Lemma byteZ_range (b : byte) : 0 <= byteZ b < 256.
Proof.
  unfold byteZ. pose proof (Byte.to_N_bounded b) as H. lia.
Qed.

Lemma DecodeRune_ascii (b : byte) (rest : list byte) :
  byteZ b < 0x80 -> DecodeRune (b :: rest) = (byteZ b, 1).
Proof.
  intros H. unfold DecodeRune. cbv zeta.
  replace (len (b :: rest) <? 1) with false
    by (unfold len; simpl length; symmetry; apply Z.ltb_ge; lia).
  unfold at_. cbn [nth].
  apply Z.ltb_lt in H. rewrite H. reflexivity.
Qed.

Lemma byte_at_cursor_slice (l : Lexer) (b : byte) :
  byte_at_cursor l = Some b ->
  (len (input l) <=? pos l) = false /\
  exists rest, slice_from (input l) (pos l) = Some (b :: rest).
Proof.
  unfold byte_at_cursor, slice_from. intros H.
  destruct (0 <=? pos l) eqn:E0; [|discriminate H].
  apply Z.leb_le in E0.
  pose proof (lookup_lt_Some _ _ _ H) as Hlt.
  assert (Hin : pos l < len (input l)) by (unfold len; lia).
  split; [apply Z.leb_gt; exact Hin|].
  exists (drop (S (Z.to_nat (pos l))) (input l)).
  replace (pos l <=? len (input l)) with true by (symmetry; apply Z.leb_le; lia).
  cbn [andb]. f_equal. apply drop_S. exact H.
Qed.

(** The map [structures] read as a chain of comparisons. *)
Lemma structures_spec (r : rune) :
  structures !! r =
  if r =? 0x7B then Some LBRACE else if r =? 0x7D then Some RBRACE
  else if r =? 0x5B then Some LBRACKET else if r =? 0x5D then Some RBRACKET
  else if r =? 0x2C then Some COMMA else if r =? 0x3A then Some COLON
  else None.
Proof.
  unfold structures. rewrite !lookup_insert, lookup_empty.
  repeat case_decide; subst; try reflexivity;
    repeat match goal with
           | |- context [?a =? ?b] => destruct (Z.eqb_spec a b); try congruence
           end.
Qed.

(** Decide the comparisons of a known rune against constants. *)
Ltac eqb_lia :=
  repeat match goal with
         | H : (_ =? _) = true |- _ => apply Z.eqb_eq in H
         | H : (_ =? _) = false |- _ => apply Z.eqb_neq in H
         | H : (_ <=? _) = true |- _ => apply Z.leb_le in H
         | H : (_ <=? _) = false |- _ => apply Z.leb_gt in H
         | H : (_ <? _) = true |- _ => apply Z.ltb_lt in H
         | H : (_ <? _) = false |- _ => apply Z.ltb_ge in H
         | H : (_ || _) = true |- _ => apply orb_true_iff in H; destruct H
         | H : (_ || _) = false |- _ => apply orb_false_iff in H; destruct H
         | H : (_ && _) = true |- _ => apply andb_true_iff in H; destruct H
         | H : (_ && _) = false |- _ => apply andb_false_iff in H; destruct H
         end.

Lemma structures_quote : structures !! 0x22 = None.
Proof. rewrite structures_spec. reflexivity. Qed.

Lemma structures_number (r : rune) :
  r = 0x2D \/ 0x30 <= r <= 0x39 -> structures !! r = None.
Proof.
  intros H. rewrite structures_spec.
  repeat match goal with
         | |- context [?a =? ?b] => destruct (Z.eqb_spec a b); try lia
         end.
  reflexivity.
Qed.

(** C3: with the cursor on a double quote, [Next] returns the error
    "unexpected EOF" and leaves the lexer as it was, whatever follows the
    quote: no [QUOTE] or [STRING] token is appended and the cursor stays. *)
Theorem Next_on_quote_is_unexpected_EOF (l : Lexer) :
  byte_at_cursor l = Some x22 ->
  Next l = Ret (0, Some (unexpected_EOF (line l) (col l))) l.
Proof.
  intros Hb. destruct (byte_at_cursor_slice l _ Hb) as (Hlen & rest & Hsl).
  pose proof (DecodeRune_ascii x22 rest eq_refl) as Hd.
  change (byteZ x22) with 0x22 in Hd.
  pose proof structures_quote as Hq.
  destruct l as [i sp tk ln c p]. cbn [input pos line col] in *.
  match goal with |- ?lhs = _ => destruct lhs as [[n err] l'|h] eqn:H end;
    unfold Next, readString, rounds in H; cbn [readString_loop] in H;
    run H; reflexivity.
Qed.

Lemma IsDigit_ascii (r : rune) : 0x30 <= r <= 0x39 -> IsDigit r = true.
Proof.
  intros H. unfold IsDigit.
  replace (r <=? 0xFF) with true by (symmetry; apply Z.leb_le; lia).
  apply andb_true_iff. split; apply Z.leb_le; lia.
Qed.

(** C4: with the cursor on '-' or an ASCII digit, a call of [Next] that
    returns (with or without an error) has appended no token: the log is
    the one before the call, and no [NUMBER] token carries the literal. *)
Theorem Next_on_number_appends_no_token (l : Lexer) (b : byte) :
  byte_at_cursor l = Some b ->
  b = x2d \/ 0x30 <= byteZ b <= 0x39 ->
  forall n err l', Next l = Ret (n, err) l' -> tokens l' = tokens l.
Proof.
  intros Hb Hnum n err l' H.
  destruct (byte_at_cursor_slice l _ Hb) as (Hlen & rest & Hsl).
  assert (Hr : byteZ b = 0x2D \/ 0x30 <= byteZ b <= 0x39)
    by (destruct Hnum as [-> | Hnum]; [left; reflexivity | right; exact Hnum]).
  assert (Hd : DecodeRune (b :: rest) = (byteZ b, 1))
    by (apply DecodeRune_ascii; lia).
  pose proof (structures_number _ Hr) as Hq.
  destruct l as [i sp tk ln c p]. cbn [input pos line col tokens] in *.
  unfold Next in H. run H;
    try match goal with
        | E : readNumber _ _ = Ret _ _ |- _ =>
          apply readNumber_spec in E; destruct E as (_ & Ht & _);
          cbn [tokens] in *; congruence
        end;
    try reflexivity;
    exfalso; eqb_lia; try (unfold RuneError in *; lia);
    try match goal with
        | E : IsDigit _ = false |- _ =>
          rewrite IsDigit_ascii in E by lia; discriminate E
        end.
Qed.

(** ** Reserved words *)

Lemma slice_range_prefix (s extra : list byte) (n : Z) :
  0 <= n <= len s ->
  slice_range s extra 0 n = Some (take (Z.to_nat n) s).
Proof.
  intros H. unfold slice_range.
  replace ((0 <=? 0) && (0 <=? n) && (n <=? len s + len extra)) with true.
  - cbn [Z.to_nat drop]. f_equal. apply take_app_le. unfold len in H. lia.
  - symmetry. pose proof (len_nonneg extra).
    repeat (apply andb_true_iff; split); apply Z.leb_le; lia.
Qed.

Lemma slice_from_Some (s p : list byte) (lo : Z) :
  slice_from s lo = Some p ->
  0 <= lo /\ len s = lo + len p.
Proof.
  unfold slice_from. intros H.
  destruct ((0 <=? lo) && (lo <=? len s)) eqn:E; [|discriminate H].
  injection H as <-. eqb_lia. split; [assumption|].
  unfold len in *. rewrite length_drop. lia.
Qed.

(** Refute the paths of [readReserved] that compare a known prefix with
    another keyword. *)
Ltac wrong_keyword :=
  exfalso;
  repeat match goal with
         | E : slice_range (_ :: _) _ 0 _ = Some _ |- _ =>
           rewrite slice_range_prefix in E
             by (eqb_lia; unfold len in *; cbn [length] in *; lia);
           injection E as <-
         | E : slice_range (_ :: _) _ 0 _ = None |- _ =>
           rewrite slice_range_prefix in E
             by (eqb_lia; unfold len in *; cbn [length] in *; lia);
           discriminate E
         | E : (string_of_list_byte _ =? _)%string = _ |- _ =>
           simpl in E; discriminate E
         end;
  eqb_lia; unfold len in *; cbn [length] in *; lia.

(** The literal of the token when the comparison succeeded. *)
Ltac right_keyword :=
  repeat match goal with
         | E : (string_of_list_byte _ =? _)%string = true |- _ =>
           apply String.eqb_eq in E; rewrite E
         end;
  reflexivity.

(** C2: with the keyword null under the cursor, [Next] appends a token of
    type [TRUE] (not [NULL]) with the literal "null", and moves the cursor
    past its four bytes; the column grows by 3. *)
Theorem Next_on_null_appends_TRUE (l : Lexer) (rest : list byte) :
  slice_from (input l) (pos l) = Some (bytes "null" ++ rest) ->
  Next l = Ret (4, None)
             {| input := input l; spare := spare l;
                tokens := tokens l ++ [ {| Typ := TRUE; Literal := "null";
                                           Line := line l; Col := pos l;
                                           Pos := 0 |} ];
                line := line l; col := col l + 3; pos := pos l + 4 |}.
Proof.
  intros Hsl. destruct (slice_from_Some _ _ _ Hsl) as [Hp Hl].
  change (bytes "null" ++ rest) with (x6e :: x75 :: x6c :: x6c :: rest) in *.
  assert (Hlen : (len (input l) <=? pos l) = false)
    by (apply Z.leb_gt; rewrite Hl; unfold len; cbn [length]; lia).
  pose proof (DecodeRune_ascii x6e (x75 :: x6c :: x6c :: rest) eq_refl) as Hd.
  change (byteZ x6e) with 0x6E in Hd.
  assert (Hq : structures !! 0x6E = None)
    by (rewrite structures_spec; reflexivity).
  destruct l as [i sp tk ln c p]. cbn [input pos line col tokens spare] in *.
  match goal with |- ?lhs = _ => destruct lhs as [[n err] l'|h] eqn:H end;
    unfold Next, readReserved in H; run H;
    first [ right_keyword | wrong_keyword ].
Qed.

(** The two other keywords are lexed as the specification says. *)
Lemma Next_on_true (l : Lexer) (rest : list byte) :
  slice_from (input l) (pos l) = Some (bytes "true" ++ rest) ->
  Next l = Ret (4, None)
             {| input := input l; spare := spare l;
                tokens := tokens l ++ [ {| Typ := TRUE; Literal := "true";
                                           Line := line l; Col := pos l;
                                           Pos := 0 |} ];
                line := line l; col := col l + 3; pos := pos l + 4 |}.
Proof.
  intros Hsl. destruct (slice_from_Some _ _ _ Hsl) as [Hp Hl].
  change (bytes "true" ++ rest) with (x74 :: x72 :: x75 :: x65 :: rest) in *.
  assert (Hlen : (len (input l) <=? pos l) = false)
    by (apply Z.leb_gt; rewrite Hl; unfold len; cbn [length]; lia).
  pose proof (DecodeRune_ascii x74 (x72 :: x75 :: x65 :: rest) eq_refl) as Hd.
  change (byteZ x74) with 0x74 in Hd.
  assert (Hq : structures !! 0x74 = None)
    by (rewrite structures_spec; reflexivity).
  destruct l as [i sp tk ln c p]. cbn [input pos line col tokens spare] in *.
  match goal with |- ?lhs = _ => destruct lhs as [[n err] l'|h] eqn:H end;
    unfold Next, readReserved in H; run H;
    first [ right_keyword | wrong_keyword ].
Qed.

Lemma Next_on_false (l : Lexer) (rest : list byte) :
  slice_from (input l) (pos l) = Some (bytes "false" ++ rest) ->
  Next l = Ret (5, None)
             {| input := input l; spare := spare l;
                tokens := tokens l ++ [ {| Typ := FALSE; Literal := "false";
                                           Line := line l; Col := pos l;
                                           Pos := 0 |} ];
                line := line l; col := col l + 4; pos := pos l + 5 |}.
Proof.
  intros Hsl. destruct (slice_from_Some _ _ _ Hsl) as [Hp Hl].
  change (bytes "false" ++ rest)
    with (x66 :: x61 :: x6c :: x73 :: x65 :: rest) in *.
  assert (Hlen : (len (input l) <=? pos l) = false)
    by (apply Z.leb_gt; rewrite Hl; unfold len; cbn [length]; lia).
  pose proof (DecodeRune_ascii x66 (x61 :: x6c :: x73 :: x65 :: rest) eq_refl)
    as Hd.
  change (byteZ x66) with 0x66 in Hd.
  assert (Hq : structures !! 0x66 = None)
    by (rewrite structures_spec; reflexivity).
  destruct l as [i sp tk ln c p]. cbn [input pos line col tokens spare] in *.
  match goal with |- ?lhs = _ => destruct lhs as [[n err] l'|h] eqn:H end;
    unfold Next, readReserved in H; run H;
    first [ right_keyword | wrong_keyword ].
Qed.

(** ** The examples, evaluated *)

(** A mismatch over four bytes or more is the error "unexpected
    identifier"; a shorter rest is re-sliced to four bytes, which panics
    when the capacity of the buffer does not allow it. *)
Example Next_on_trux :
  Next (NewLexer (bytes "trux") [])
  = Ret (0, Some (unexpected_identifier 1 0)) (NewLexer (bytes "trux") []).
Proof. vm_compute. reflexivity. Qed.

Example Next_on_tru_exact_capacity :
  Next (NewLexer (bytes "tru") []) = Halt (Panic slice_bounds_out_of_range).
Proof. vm_compute. reflexivity. Qed.

Example Next_on_tru_spare_capacity :
  Next (NewLexer (bytes "tru") [x00])
  = Ret (0, Some (unexpected_identifier 1 0)) (NewLexer (bytes "tru") [x00]).
Proof. vm_compute. reflexivity. Qed.

(** The scan of a number: the comma that ends it is consumed with it, and
    a space or a closing brace after the digits is fatal. *)
Example Next_on_12_comma (extra : list byte) :
  Next (NewLexer (bytes "12,") extra)
  = Ret (3, None)
        {| input := bytes "12,"; spare := extra; tokens := [];
           line := 1; col := 1; pos := 3 |}.
Proof. vm_compute. reflexivity. Qed.

Example Next_on_12_space (extra : list byte) :
  Next (NewLexer (bytes "12 ") extra)
  = Halt (Fatalf (Fatal_unexpected_lexer 0x20 1 0)).
Proof. vm_compute. reflexivity. Qed.

Example Next_on_12_brace (extra : list byte) :
  Next (NewLexer (bytes "12}") extra)
  = Halt (Fatalf (Fatal_unexpected_lexer 0x7D 1 0)).
Proof. vm_compute. reflexivity. Qed.

(** C5: the second '.' of 1.2.3 ends the process through [log.Fatalf],
    with the line and the byte position of the first digit in the message;
    on {"a": 1.2.3} the second call of [Next] already returns "unexpected
    EOF" at the first quote, and the cursor stays there. *)
Theorem second_decimal_point_is_fatal (extra : list byte) :
  Next (NewLexer (bytes "1.2.3,") extra)
  = Halt (Fatalf (Fatal_unexpected_lexer 0x2E 1 0)) /\
  (exists l, NextN 2 (NewLexer malformed_input extra)
             = Ret [ (1, None); (0, Some (unexpected_EOF 1 1)) ] l
             /\ pos l = 1).
Proof.
  split; [vm_compute; reflexivity|].
  eexists; vm_compute; split; reflexivity.
Qed.

(** C8: on three lines of input the closing bracket is the third character
    of line 3 and starts at byte 6; its token has [Line] 3, but [Col] 6 (the
    byte position) and [Pos] 0, while the column kept by the lexer is 3. *)
Theorem third_line_token_has_byte_offset_in_Col (extra : list byte) :
  exists rs l,
    NextN 7 (NewLexer three_lines extra) = Ret rs l /\
    Token_ l = Some {| Typ := RBRACKET; Literal := "RBRACKET";
                       Line := 3; Col := 6; Pos := 0 |} /\
    col l = 3 /\ pos l = 7.
Proof.
  do 2 eexists. vm_compute. repeat split; reflexivity.
Qed.

(** ** The parser *)

#[local] Hint Unfold onLexer new Token CreateObject : go.






(** ** The loops of the model end *)

Lemma slice_from_nonempty (s p : list byte) (lo : Z) :
  slice_from s lo = Some p -> lo < len s -> exists b p', p = b :: p'.
Proof.
  intros H Hlt. apply slice_from_Some in H. destruct H as [_ H].
  destruct p as [|b p']; [|eauto].
  unfold len in *. cbn [length] in H. lia.
Qed.

Lemma readReserved_real (l : Lexer) (h : halt) :
  readReserved l = Halt h -> halts_for_real h.
Proof.
  intros H. unfold readReserved in H. run H; exact I.
Qed.

(** The scan of a number ends within the rounds it is given: every round
    that does not leave the loop moves past one rune of the buffer. *)
Lemma readNumber_loop_real (fuel : nat) :
  forall (dec : bool) (size : Z) (l : Lexer) (h : halt),
    Z.max 0 (len (input l) - (pos l + size)) < Z.of_nat fuel ->
    readNumber_loop fuel dec size l = Halt h -> halts_for_real h.
Proof.
  induction fuel as [|fuel IH]; intros dec size l h Hm H; [lia|].
  cbn [readNumber_loop] in H. destruct l as [i sp tk ln c p].
  cbn [input pos] in Hm.
  run H; try exact I;
    (eapply IH; [|exact H]); cbn [input pos];
    match goal with
    | E : slice_from _ _ = Some ?s, D : DecodeRune ?s = _ |- _ =>
      eqb_lia;
      destruct (slice_from_nonempty _ _ _ E) as (b & p' & ->); [lia|];
      pose proof (DecodeRune_nonempty b p') as Hw; rewrite D in Hw;
      cbn [snd] in Hw; lia
    end.
Qed.

(** [Next] gives its loops rounds enough: it never stops for lack of fuel. *)
Lemma Next_real (l : Lexer) (h : halt) :
  Next l = Halt h -> halts_for_real h.
Proof.
  intros H. unfold Next, readString, readNumber, rounds in H.
  cbn [readString_loop] in H. destruct l as [i sp tk ln c p].
  run H; try exact I.
  - eapply readReserved_real; eassumption.
  - eapply readNumber_loop_real; [|eassumption]. cbn [input pos].
    match goal with
    | E : slice_from _ _ = Some ?s, D : DecodeRune ?s = _ |- _ =>
      apply slice_from_Some in E; destruct E as [Hp Hl];
      pose proof (DecodeRune_width s) as Hw; rewrite D in Hw;
      cbn [snd] in Hw; pose proof (len_nonneg s)
    end.
    unfold len in *. lia.
Qed.

(** ** What a call returns depends on buffer and cursor only *)

Ltac same_cursor_now :=
  repeat split; cbn [input spare pos]; try reflexivity; try discriminate.

Ltac two_calls H1 H2 :=
  match goal with
  | |- agree ?a ?b =>
    let n := fresh "n" in let e := fresh "e" in let l := fresh "l" in
    let h := fresh "h" in
    destruct a as [[n e] l|h] eqn:H1;
    let n' := fresh "n" in let e' := fresh "e" in let l' := fresh "l" in
    let h' := fresh "h" in
    destruct b as [[n' e'] l'|h'] eqn:H2
  end.

Ltac pair_up l1 l2 :=
  destruct l1 as [i sp tk1 ln1 c1 p], l2 as [i2 sp2 tk2 ln2 c2 p2];
  match goal with
  | Hs : same_cursor _ _ |- _ =>
    destruct Hs as (Hi & Hs & Hp); cbn [input spare pos] in Hi, Hs, Hp;
    subst i2 sp2 p2
  end.

Lemma readReserved_same_cursor (l1 l2 : Lexer) :
  same_cursor l1 l2 -> agree (readReserved l1) (readReserved l2).
Proof.
  intros Hs. pair_up l1 l2.
  two_calls H1 H2;
    unfold readReserved in H1, H2; run H1; run H2;
    cbn [agree]; try exact I; same_cursor_now.
Qed.

Lemma readString_loop_same_cursor (fuel : nat) :
  forall (size : Z) (l1 l2 : Lexer),
    same_cursor l1 l2 ->
    agree (readString_loop fuel size l1) (readString_loop fuel size l2).
Proof.
  induction fuel as [|fuel IH]; intros size l1 l2 Hs; [exact I|].
  pair_up l1 l2.
  two_calls H1 H2;
    cbn [readString_loop] in H1, H2; run H1; run H2;
    cbn [agree]; try exact I; try (same_cursor_now; fail);
    match goal with
    | A : readString_loop fuel ?s ?a = _, B : readString_loop fuel ?s ?b = _
      |- _ =>
      let R := fresh "R" in
      assert (R : agree (readString_loop fuel s a) (readString_loop fuel s b))
        by (apply IH; same_cursor_now);
      rewrite A, B in R; exact R
    end.
Qed.

Lemma readNumber_loop_same_cursor (fuel : nat) :
  forall (dec : bool) (size : Z) (l1 l2 : Lexer),
    same_cursor l1 l2 ->
    agree (readNumber_loop fuel dec size l1) (readNumber_loop fuel dec size l2).
Proof.
  induction fuel as [|fuel IH]; intros dec size l1 l2 Hs; [exact I|].
  pair_up l1 l2.
  two_calls H1 H2;
    cbn [readNumber_loop] in H1, H2; run H1; run H2;
    cbn [agree]; try exact I; try (same_cursor_now; fail);
    match goal with
    | A : readNumber_loop fuel ?d ?s ?a = _,
      B : readNumber_loop fuel ?d ?s ?b = _ |- _ =>
      let R := fresh "R" in
      assert (R : agree (readNumber_loop fuel d s a) (readNumber_loop fuel d s b))
        by (apply IH; same_cursor_now);
      rewrite A, B in R; exact R
    end.
Qed.

(** Two lexers over the same buffer with the cursor at the same byte get
    the same count from [Next], an error both or neither, and agree on
    buffer and cursor afterwards. *)
Lemma Next_same_cursor (l1 l2 : Lexer) :
  same_cursor l1 l2 -> agree (Next l1) (Next l2).
Proof.
  intros Hs. pair_up l1 l2.
  two_calls H1 H2;
    unfold Next, readString, readNumber, rounds in H1, H2;
    cbn [input] in H1, H2; run H1; run H2;
    cbn [agree]; try exact I; try (same_cursor_now; fail);
    try (exfalso; eqb_lia; lia);
    match goal with
    | A : readReserved ?a = _, B : readReserved ?b = _ |- _ =>
      let R := fresh "R" in
      assert (R : agree (readReserved a) (readReserved b))
        by (apply readReserved_same_cursor; same_cursor_now);
      rewrite A, B in R
    | A : readString_loop ?f ?s ?a = _, B : readString_loop ?f ?s ?b = _
      |- _ =>
      let R := fresh "R" in
      assert (R : agree (readString_loop f s a) (readString_loop f s b))
        by (apply readString_loop_same_cursor; same_cursor_now);
      rewrite A, B in R
    | A : readNumber_loop ?f ?d ?s ?a = _,
      B : readNumber_loop ?f ?d ?s ?b = _ |- _ =>
      let R := fresh "R" in
      assert (R : agree (readNumber_loop f d s a) (readNumber_loop f d s b))
        by (apply readNumber_loop_same_cursor; same_cursor_now);
      rewrite A, B in R
    end;
    cbn [agree] in R; try contradiction;
    destruct R as (Rn & Re & Ri & Rs & Rp);
    try (destruct Re as [Re1 Re2];
         first [ specialize (Re1 eq_refl); discriminate Re1
               | specialize (Re2 eq_refl); discriminate Re2 ]);
    subst; same_cursor_now; try assumption; try congruence.
Qed.

(** ** The specification's examples through [CreateObject] *)






(** ** The theorems at concrete inputs *)

(** [Next_on_null_appends_TRUE] on a lexer just made over null. *)
Lemma Next_on_null_appends_TRUE_witness :
  slice_from (bytes "null") 0 = Some (bytes "null" ++ []) /\
  Next (NewLexer (bytes "null") [])
  = Ret (4, None)
        {| input := bytes "null"; spare := [];
           tokens := [ {| Typ := TRUE; Literal := "null";
                          Line := 1; Col := 0; Pos := 0 |} ];
           line := 1; col := 3; pos := 4 |}.
Proof.
  split; [reflexivity|].
  exact (Next_on_null_appends_TRUE (NewLexer (bytes "null") []) [] eq_refl).
Defined.

(** [Next_on_quote_is_unexpected_EOF] on the string "a" between quotes. *)
Lemma Next_on_quote_is_unexpected_EOF_witness :
  byte_at_cursor (NewLexer (quoted "a") []) = Some x22 /\
  Next (NewLexer (quoted "a") [])
  = Ret (0, Some (unexpected_EOF 1 0)) (NewLexer (quoted "a") []).
Proof.
  split; [reflexivity|].
  exact (Next_on_quote_is_unexpected_EOF (NewLexer (quoted "a") []) eq_refl).
Defined.

(** [Next_on_number_appends_no_token] on 12 followed by a comma: the call
    returns 3 and the log stays empty. *)
Lemma Next_on_number_appends_no_token_witness :
  byte_at_cursor (NewLexer (bytes "12,") []) = Some x31 /\
  0x30 <= byteZ x31 <= 0x39 /\
  Next (NewLexer (bytes "12,") [])
  = Ret (3, None) {| input := bytes "12,"; spare := []; tokens := [];
                     line := 1; col := 1; pos := 3 |} /\
  tokens {| input := bytes "12,"; spare := []; tokens := [];
            line := 1; col := 1; pos := 3 |}
  = tokens (NewLexer (bytes "12,") []).
Proof.
  assert (Hd : 0x30 <= byteZ x31 <= 0x39) by (vm_compute; split; discriminate).
  split; [reflexivity|]. split; [exact Hd|]. split; [reflexivity|].
  exact (Next_on_number_appends_no_token
           (NewLexer (bytes "12,") []) x31 eq_refl (or_intror Hd)
           3 None _ eq_refl).
Defined.

(** [Next_cursor_forward_and_EOF_repeats] on a lexer that read both bytes
    of an empty object: three more calls return 0 and append [EOF]. *)
Lemma Next_cursor_forward_and_EOF_repeats_witness :
  len (bytes "{}") <= 2 /\
  exists l' eofs,
    NextN 3 {| input := bytes "{}"; spare := []; tokens := [];
               line := 1; col := 2; pos := 2 |}
    = Ret (repeat (0, None) 3) l' /\
    pos l' = 2 /\
    tokens l' = [] ++ eofs /\
    length eofs = 3%nat /\
    Forall (fun t => Typ t = EOF) eofs.
Proof.
  assert (Hend : len (bytes "{}") <= 2) by (vm_compute; discriminate).
  split; [exact Hend|].
  exact (proj2 (Next_cursor_forward_and_EOF_repeats
                  {| input := bytes "{}"; spare := []; tokens := [];
                     line := 1; col := 2; pos := 2 |}) Hend 3%nat).
Defined.

(** [Reset_is_NewLexer] after two calls on an empty object. *)
Lemma Reset_is_NewLexer_witness :
  exists rs l,
    NextN 2 (NewLexer (bytes "{}") []) = Ret rs l /\
    tokens l <> [] /\
    Reset l = NewLexer (bytes "{}") [] /\
    tokens (Reset l) = [] /\
    input (Reset l) = bytes "{}" /\
    forall k : nat, NextN k (Reset l) = NextN k (NewLexer (bytes "{}") []).
Proof.
  eexists _, _. split; [vm_compute; reflexivity|].
  split; [discriminate|].
  exact (Reset_is_NewLexer (bytes "{}") [] 2 _ _ eq_refl).
Defined.

(** [Token_defined_iff_log_nonempty] on a lexer just made: [Token] has no
    value, and still none after a call that returned an error. *)
Lemma Token_defined_iff_log_nonempty_witness :
  Token_ (NewLexer (quoted "a") []) = None /\
  forall n e l',
    Next (NewLexer (quoted "a") []) = Ret (n, Some e) l' ->
    Token_ l' = Token_ (NewLexer (quoted "a") []).
Proof.
  split; [reflexivity|].
  exact (proj2 (proj2 (proj2 (proj2
           (Token_defined_iff_log_nonempty (NewLexer (quoted "a") [])))))).
Defined.


(** ** Further properties of [Next] *)

(** What the code run by one call of [Next] does to the line and the
    column before the cursor is moved, when the line is not bumped: the
    line stays, the column does not shrink, the appended tokens carry the
    line. *)
Lemma readReserved_lines (l l' : Lexer) (x : Z * option error) :
  readReserved l = Ret x l' ->
  line l' = line l /\ col l <= col l' /\
  exists new, tokens l' = tokens l ++ new /\
              Forall (fun t => Line t = line l) new.
Proof.
  intros H. unfold readReserved in H. destruct l as [i sp tk ln c p].
  run H; cbn [line col tokens]; (split; [reflexivity|]); (split; [lia|]);
    (eexists; split; [ first [ reflexivity | symmetry; apply app_nil_r ]
                     | repeat constructor ]).
Qed.

Lemma readString_loop_lines (fuel : nat) :
  forall (size : Z) (l l' : Lexer) (x : Z * option error),
    readString_loop fuel size l = Ret x l' ->
    line l' = line l /\ col l <= col l' /\
    exists new, tokens l' = tokens l ++ new /\
                Forall (fun t => Line t = line l) new.
Proof.
  induction fuel as [|fuel IH]; intros size l l' x H; [discriminate H|].
  cbn [readString_loop] in H. destruct l as [i sp tk ln c p].
  run H; cbn [line col tokens];
    try ((split; [reflexivity|]); (split; [lia|]);
         (eexists; split;
          [ first [ reflexivity | symmetry; apply app_nil_r
                  | rewrite <- app_assoc; reflexivity ]
          | repeat constructor ]); fail).
  apply IH in H. cbn [line col tokens] in H.
  destruct H as (Hl & Hc & new & Ht & Hf).
  split; [exact Hl|]. split; [lia|]. eauto.
Qed.

Lemma readNumber_loop_lines (fuel : nat) :
  forall (dec : bool) (size : Z) (l l' : Lexer) (x : Z * option error),
    readNumber_loop fuel dec size l = Ret x l' ->
    line l' = line l /\ col l <= col l'.
Proof.
  induction fuel as [|fuel IH]; intros dec size l l' x H; [discriminate H|].
  cbn [readNumber_loop] in H. destruct l as [i sp tk ln c p].
  run H; cbn [line col]; try (split; [reflexivity | lia]);
    apply IH in H; cbn [line col] in H; destruct H as [Hl Hc];
    (split; [exact Hl | lia]).
Qed.

(** One call of [Next], line and column: the line grows by one at most, a
    call that returns an error leaves the line and does not shrink the
    column, every appended token carries the line the lexer has after the
    call, and a call that returns no error before the end of the buffer
    returns 1 at least. *)
Lemma Next_effects (l l' : Lexer) (n : Z) (err : option error) :
  Next l = Ret (n, err) l' ->
  (line l' = line l \/ line l' = line l + 1) /\
  (exists new, tokens l' = tokens l ++ new /\
               Forall (fun t => Line t = line l') new) /\
  (err <> None -> line l' = line l /\ col l <= col l') /\
  (err = None -> pos l < len (input l) -> 1 <= n) /\
  (0 <= col l -> 0 <= col l').
Proof.
  intros H. unfold Next, readString, readNumber in H.
  destruct l as [i sp tk ln c p].
  run H;
    try match goal with
        | E : DecodeRune ?s = (_, ?w) |- _ =>
          pose proof (DecodeRune_width s) as Hw; rewrite E in Hw; simpl in Hw
        end;
    try match goal with
        | E : readReserved _ = Ret _ _ |- _ =>
          pose proof (readReserved_spec _ _ _ _ E) as [_ Hr];
          apply readReserved_lines in E;
          destruct E as (Hl & Hc & new & Ht & Hf)
        | E : readString_loop _ _ _ = Ret _ _ |- _ =>
          pose proof (readString_loop_spec _ _ _ _ _ _ E) as [_ Hr];
          apply readString_loop_lines in E;
          destruct E as (Hl & Hc & new & Ht & Hf)
        | E : readNumber_loop _ _ _ _ = Ret _ _ |- _ =>
          pose proof (readNumber_loop_spec _ _ _ _ _ _ _ E) as (_ & Ht & Hr);
          apply readNumber_loop_lines in E;
          destruct E as (Hl & Hc)
        end;
    cbn [input tokens line col pos] in *.
  all: split;
    [ first [ left; congruence | right; congruence
            | left; reflexivity | right; reflexivity ] |].
  all: split;
    [ first [ exists new; split; [exact Ht | rewrite Hl; exact Hf]
            | exists []; split; [rewrite app_nil_r; congruence | constructor]
            | eexists; split;
              [ first [ reflexivity | symmetry; apply app_nil_r ]
              | repeat constructor ] ] |].
  all: split;
    [ intros He; first [ congruence | split; [congruence | lia] ] |].
  all: split; [| intros Hc0; lia].
  all: intros He Hin; eqb_lia;
    first [ discriminate He | lia | destruct Hr; lia
          | specialize (Hr (Z.le_refl 0)); lia
          | match goal with
            | S : slice_from _ _ = Some ?s, D : DecodeRune ?s = _ |- _ =>
              destruct (slice_from_nonempty _ _ _ S) as (b & p' & ->); [lia|];
              pose proof (DecodeRune_nonempty b p') as Hn; rewrite D in Hn;
              cbn [snd] in Hn; lia
            end ].
Qed.

(** X1: the count [Next] returns is the number of bytes the cursor moved,
    the buffer is never written, and the count is 0 exactly when an error
    comes back or the cursor was at or past the end of the buffer. *)
Theorem Next_count_is_cursor_move (l l' : Lexer) (n : Z) (err : option error) :
  Next l = Ret (n, err) l' ->
  input l' = input l /\ spare l' = spare l /\ pos l' = pos l + n /\
  (n = 0 <-> err <> None \/ len (input l) <= pos l).
Proof.
  intros H.
  pose proof (Next_spec _ _ _ _ H) as (Hi & Hs & Hp & Hn & _ & He).
  pose proof (Next_effects _ _ _ _ H) as (_ & _ & _ & Hg & _).
  repeat split; try assumption.
  - intros ->. destruct err as [e|]; [left; discriminate|].
    right. destruct (Z.le_gt_cases (len (input l)) (pos l)) as [Hle|Hgt];
      [exact Hle|]. specialize (Hg eq_refl Hgt). lia.
  - intros [Hne|Hend]; [apply He; exact Hne|].
    rewrite (Next_past_end l Hend) in H. congruence.
Qed.

(** X2: a call of [Next] that returns an error returns the count 0 and
    leaves the buffer, the log, the line and the cursor as they were; of
    the lexer only the column may have changed, and it has not shrunk. *)
Theorem Next_error_leaves_lexer (l l' : Lexer) (n : Z) (e : error) :
  Next l = Ret (n, Some e) l' ->
  n = 0 /\
  l' = {| input := input l; spare := spare l; tokens := tokens l;
          line := line l; col := col l'; pos := pos l |} /\
  col l <= col l'.
Proof.
  intros H.
  pose proof (Next_spec _ _ _ _ H) as (Hi & Hs & Hp & _ & _ & He).
  pose proof (Next_effects _ _ _ _ H) as (_ & _ & Hl & _).
  destruct (He ltac:(discriminate)) as [-> Ht].
  destruct (Hl ltac:(discriminate)) as [Hln Hc].
  split; [reflexivity|]. split; [|exact Hc].
  destruct l'. cbn [input spare tokens line col pos] in *.
  f_equal; try assumption. lia.
Qed.

(** X3: on one of the six structure runes [Next] returns 1 and appends the
    token the map [structures] gives for it, with the name of its type as
    literal; the column grows by 1. *)
Theorem Next_on_structure (l : Lexer) (b : byte) (ty : TokenType) :
  byte_at_cursor l = Some b ->
  structures !! byteZ b = Some ty ->
  Next l = Ret (1, None)
             {| input := input l; spare := spare l;
                tokens := tokens l ++ [ {| Typ := ty;
                                           Literal := TokenType_String ty;
                                           Line := line l; Col := pos l;
                                           Pos := 0 |} ];
                line := line l; col := col l + 1; pos := pos l + 1 |}.
Proof.
  intros Hb Hty. destruct (byte_at_cursor_slice l _ Hb) as (Hlen & rest & Hsl).
  assert (Hr : byteZ b < 0x80).
  { rewrite structures_spec in Hty.
    repeat match type of Hty with
           | context [?a =? ?c] => destruct (Z.eqb_spec a c); [lia|]
           end.
    discriminate Hty. }
  pose proof (DecodeRune_ascii b rest Hr) as Hd.
  destruct l as [i sp tk ln c p]. cbn [input pos line col tokens spare] in *.
  match goal with |- ?lhs = _ => destruct lhs as [[n err] l'|h] eqn:H end;
    unfold Next in H; run H; try reflexivity;
    exfalso; eqb_lia; unfold RuneError in *; lia.
Qed.

(** X4: on a line feed [Next] returns 1, bumps the line and resets the
    column to 0 before it appends the [NEWLINE] token, so that the token
    carries the number of the line that follows. *)
Theorem Next_on_newline (l : Lexer) :
  byte_at_cursor l = Some x0a ->
  Next l = Ret (1, None)
             {| input := input l; spare := spare l;
                tokens := tokens l ++ [ {| Typ := NEWLINE;
                                           Literal := "NEWLINE";
                                           Line := line l + 1; Col := pos l;
                                           Pos := 0 |} ];
                line := line l + 1; col := 0; pos := pos l + 1 |}.
Proof.
  intros Hb. destruct (byte_at_cursor_slice l _ Hb) as (Hlen & rest & Hsl).
  pose proof (DecodeRune_ascii x0a rest eq_refl) as Hd.
  change (byteZ x0a) with 0x0A in Hd.
  assert (Hq : structures !! 0x0A = None)
    by (rewrite structures_spec; reflexivity).
  destruct l as [i sp tk ln c p]. cbn [input pos line col tokens spare] in *.
  match goal with |- ?lhs = _ => destruct lhs as [[n err] l'|h] eqn:H end;
    unfold Next in H; run H; reflexivity.
Qed.

(** X5: on a space, a tab or a carriage return [Next] returns 1 and appends
    a [WHITESPACE] token; the column grows by 4 for a tab, by 1 for the two
    others. *)
Theorem Next_on_whitespace (l : Lexer) (b : byte) :
  byte_at_cursor l = Some b ->
  b = x20 \/ b = x09 \/ b = x0d ->
  Next l = Ret (1, None)
             {| input := input l; spare := spare l;
                tokens := tokens l ++ [ {| Typ := WHITESPACE;
                                           Literal := "WHITESPACE";
                                           Line := line l; Col := pos l;
                                           Pos := 0 |} ];
                line := line l;
                col := col l + (if byteZ b =? 0x09 then 4 else 1);
                pos := pos l + 1 |}.
Proof.
  intros Hb Hws. destruct (byte_at_cursor_slice l _ Hb) as (Hlen & rest & Hsl).
  destruct l as [i sp tk ln c p]. cbn [input pos line col tokens spare] in *.
  destruct Hws as [-> | [-> | ->]];
    match goal with
    | Hsl : slice_from _ _ = Some (?b :: _) |- _ =>
      pose proof (DecodeRune_ascii b rest eq_refl) as Hd;
      let v := eval vm_compute in (byteZ b) in
      change (byteZ b) with v in Hd;
      assert (Hq : structures !! v = None)
        by (rewrite structures_spec; reflexivity)
    end;
    (match goal with |- ?lhs = _ => destruct lhs as [[n err] l'|h] eqn:H end;
     unfold Next in H; run H; reflexivity).
Qed.

(** X6: a rune that decodes to U+FFFD ends the process with the message
    "Invalid UTF-8 character" and the line and byte position of the cursor:
    a malformed sequence, and also the well-formed bytes EF BF BD, which
    encode U+FFFD itself. *)
Theorem Next_on_RuneError_is_fatal (l : Lexer) (b : byte) (rest : list byte) :
  slice_from (input l) (pos l) = Some (b :: rest) ->
  fst (DecodeRune (b :: rest)) = RuneError ->
  Next l = Halt (Fatalf (Fatal_invalid_utf8 (line l) (pos l))).
Proof.
  intros Hsl Hr. destruct (slice_from_Some _ _ _ Hsl) as [Hp Hl].
  assert (Hlen : (len (input l) <=? pos l) = false)
    by (apply Z.leb_gt; rewrite Hl; unfold len; cbn [length]; lia).
  destruct (DecodeRune (b :: rest)) as [r w] eqn:Hd. cbn [fst] in Hr. subst r.
  destruct l as [i sp tk ln c p]. cbn [input pos line col tokens spare] in *.
  match goal with |- ?lhs = _ => destruct lhs as [[n err] l'|h] eqn:H end;
    unfold Next in H; run H; reflexivity.
Qed.

(** X7: on an ASCII byte that starts no token (no structure rune, line
    feed, blank, t, f, n, double quote, '-' or digit) [Next] returns the
    error "unexpected rune" with the rune, the line and the column, and
    leaves the lexer as it was. *)
Theorem Next_on_other_byte (l : Lexer) (b : byte) :
  byte_at_cursor l = Some b ->
  byteZ b < 0x80 ->
  structures !! byteZ b = None ->
  ~ In (byteZ b) [0x0A; 0x20; 0x09; 0x0D; 0x74; 0x66; 0x6E; 0x22; 0x2D] ->
  ~ 0x30 <= byteZ b <= 0x39 ->
  Next l = Ret (0, Some (unexpected_rune (byteZ b) (line l) (col l))) l.
Proof.
  intros Hb Hr Hq Hnot Hdig.
  destruct (byte_at_cursor_slice l _ Hb) as (Hlen & rest & Hsl).
  pose proof (DecodeRune_ascii b rest Hr) as Hd.
  assert (HD : IsDigit (byteZ b) = false).
  { unfold IsDigit. pose proof (byteZ_range b).
    replace (byteZ b <=? 0xFF) with true by (symmetry; apply Z.leb_le; lia).
    apply andb_false_iff.
    destruct (Z.le_gt_cases 0x30 (byteZ b));
      [right; apply Z.leb_gt; lia | left; apply Z.leb_gt; lia]. }
  cbn [In] in Hnot.
  destruct l as [i sp tk ln c p]. cbn [input pos line col tokens spare] in *.
  match goal with |- ?lhs = _ => destruct lhs as [[n err] l'|h] eqn:H end;
    unfold Next in H; run H; try reflexivity;
    exfalso; eqb_lia; unfold RuneError in *; try lia; try congruence;
    intuition lia.
Qed.

(** ** Further properties of the reserved words *)

Lemma string_of_list_byte_eqb (bs : list byte) (s : string) :
  (string_of_list_byte bs =? s)%string = true -> bs = list_byte_of_string s.
Proof.
  intros H. apply String.eqb_eq in H. subst s.
  symmetry. apply list_byte_of_string_of_list_byte.
Qed.

(** X8: with the keyword true or false under the cursor, whatever follows,
    [Next] appends one token of type [TRUE] or [FALSE] with the keyword as
    literal, returns the length of the keyword and moves the cursor past
    it; the column grows by the length less one. *)
Theorem Next_on_true_and_false (l : Lexer) (rest : list byte) :
  (slice_from (input l) (pos l) = Some (bytes "true" ++ rest) ->
   Next l = Ret (4, None)
              {| input := input l; spare := spare l;
                 tokens := tokens l ++ [ {| Typ := TRUE; Literal := "true";
                                            Line := line l; Col := pos l;
                                            Pos := 0 |} ];
                 line := line l; col := col l + 3; pos := pos l + 4 |}) /\
  (slice_from (input l) (pos l) = Some (bytes "false" ++ rest) ->
   Next l = Ret (5, None)
              {| input := input l; spare := spare l;
                 tokens := tokens l ++ [ {| Typ := FALSE; Literal := "false";
                                            Line := line l; Col := pos l;
                                            Pos := 0 |} ];
                 line := line l; col := col l + 4; pos := pos l + 5 |}).
Proof.
  split; [apply Next_on_true | apply Next_on_false].
Qed.

(** Facts on a word of four bytes or more that starts with t, f or n. *)
Ltac word_facts Hsl Hin :=
  let Hp := fresh "Hp" in let Hl := fresh "Hl" in
  destruct (slice_from_Some _ _ _ Hsl) as [Hp Hl];
  match type of Hsl with
  | slice_from (input ?l) _ = Some (?b0 :: ?tl) =>
    assert (Hlen : (len (input l) <=? pos l) = false)
      by (apply Z.leb_gt; rewrite Hl; unfold len; cbn [length]; lia);
    assert (Hr : byteZ b0 = 0x74 \/ byteZ b0 = 0x66 \/ byteZ b0 = 0x6E)
      by (cbn [In] in Hin;
          destruct Hin as [<- | [<- | [<- | []]]];
          [left | right; left | right; right]; reflexivity);
    assert (Hd : DecodeRune (b0 :: tl) = (byteZ b0, 1))
      by (apply DecodeRune_ascii; lia);
    assert (Hq : structures !! byteZ b0 = None)
      by (rewrite structures_spec;
          repeat match goal with
                 | |- context [?a =? ?c] =>
                   destruct (Z.eqb_spec a c); [lia|]
                 end; reflexivity)
  end.

(** X9: a word of four bytes or more that starts with t, f or n and is
    none of true, false and null makes [Next] return the error "unexpected
    identifier" with the line and the column, and leaves the lexer as it
    was. *)
Theorem Next_on_unknown_word (l : Lexer) (b0 b1 b2 b3 : byte)
        (rest : list byte) :
  slice_from (input l) (pos l) = Some (b0 :: b1 :: b2 :: b3 :: rest) ->
  In b0 [x74; x66; x6e] ->
  [b0; b1; b2; b3] <> bytes "true" ->
  [b0; b1; b2; b3] <> bytes "null" ->
  (forall b4 rest', rest = b4 :: rest' ->
                    [b0; b1; b2; b3; b4] <> bytes "false") ->
  Next l = Ret (0, Some (unexpected_identifier (line l) (col l))) l.
Proof.
  intros Hsl Hin Ht Hn Hf. word_facts Hsl Hin.
  assert (H4 : slice_range (b0 :: b1 :: b2 :: b3 :: rest) (spare l) 0 4
               = Some [b0; b1; b2; b3])
    by (rewrite slice_range_prefix;
        [reflexivity | unfold len; cbn [length]; lia]).
  destruct l as [i sp tk ln c p]. cbn [input pos line col tokens spare] in *.
  match goal with |- ?lhs = _ => destruct lhs as [[n err] l'|h] eqn:H end;
    unfold Next, readReserved in H; run H; try reflexivity; exfalso;
    repeat match goal with
           | E : (string_of_list_byte _ =? _)%string = true |- _ =>
             apply string_of_list_byte_eqb in E
           end;
    try (eqb_lia; unfold RuneError in *; lia);
    try (apply Ht; assumption); try (apply Hn; assumption);
    try match goal with
        | E : slice_range _ _ 0 5 = _ |- _ =>
          destruct rest as [|b4 rest'];
          [ eqb_lia; unfold len in *; cbn [length] in *; lia
          | rewrite slice_range_prefix in E
              by (unfold len; cbn [length]; lia);
            first [ discriminate E
                  | injection E as <-; eapply Hf; [reflexivity | assumption] ] ]
        end.
Qed.

(** X10: a word that starts with t, f or n with fewer than four bytes left
    in the buffer is re-sliced to four bytes all the same (the comparison
    with "null" is not guarded by the length test): when the capacity of
    the buffer does not give four bytes, [Next] panics. *)
Theorem Next_on_short_word_panics (l : Lexer) (b : byte) (rest : list byte) :
  slice_from (input l) (pos l) = Some (b :: rest) ->
  In b [x74; x66; x6e] ->
  len (b :: rest) + len (spare l) < 4 ->
  Next l = Halt (Panic slice_bounds_out_of_range).
Proof.
  intros Hsl Hin Hcap. word_facts Hsl Hin.
  pose proof (len_nonneg (spare l)) as Hsp.
  assert (H4 : slice_range (b :: rest) (spare l) 0 4 = None).
  { unfold slice_range.
    replace (4 <=? len (b :: rest) + len (spare l)) with false
      by (symmetry; apply Z.leb_gt; lia).
    reflexivity. }
  destruct l as [i sp tk ln c p]. cbn [input pos line col tokens spare] in *.
  match goal with |- ?lhs = _ => destruct lhs as [[n err] l'|h] eqn:H end;
    unfold Next, readReserved in H; run H; try reflexivity; exfalso;
    eqb_lia; unfold RuneError in *; lia.
Qed.

(** X11: a keyword null cut by the end of the buffer is completed from the
    bytes of the backing array that follow the buffer: when these continue
    the word, [Next] appends the [TRUE] token with literal "null" and moves
    the cursor past the end of the buffer. *)
Theorem Next_on_null_reads_spare (l : Lexer) (pre post tail : list byte) :
  slice_from (input l) (pos l) = Some pre ->
  pre <> [] ->
  pre ++ post = bytes "null" ->
  spare l = post ++ tail ->
  Next l = Ret (4, None)
             {| input := input l; spare := spare l;
                tokens := tokens l ++ [ {| Typ := TRUE; Literal := "null";
                                           Line := line l; Col := pos l;
                                           Pos := 0 |} ];
                line := line l; col := col l + 3; pos := pos l + 4 |} /\
  (post <> [] -> len (input l) < pos l + 4).
Proof.
  intros Hsl Hne Hw Hsp.
  assert (Hcases : (pre = [x6e; x75; x6c; x6c] /\ post = []) \/
                   (pre = [x6e; x75; x6c] /\ post = [x6c]) \/
                   (pre = [x6e; x75] /\ post = [x6c; x6c]) \/
                   (pre = [x6e] /\ post = [x75; x6c; x6c])).
  { change (bytes "null") with [x6e; x75; x6c; x6c] in *.
    destruct pre as [|a [|a0 [|a1 [|a2 [|a3 pre]]]]]; [congruence|..];
      cbn [app] in Hw; inversion Hw; subst; auto. }
  destruct (slice_from_Some _ _ _ Hsl) as [Hp Hl].
  split.
  - destruct l as [i sp tk ln c p]. cbn [input pos line col tokens spare] in *.
    subst sp.
    destruct Hcases as [[-> ->] | [[-> ->] | [[-> ->] | [-> ->]]]];
      (assert (Hlen : (len i <=? p) = false)
         by (apply Z.leb_gt; rewrite Hl; unfold len; cbn [length]; lia));
      match type of Hsl with
      | _ = Some (?b0 :: ?tl) =>
        pose proof (DecodeRune_ascii b0 tl eq_refl) as Hd;
        change (byteZ b0) with 0x6E in Hd
      end;
      (assert (Hq : structures !! 0x6E = None)
         by (rewrite structures_spec; reflexivity));
      match type of Hsl with
      | _ = Some ?s =>
        match goal with
        | |- context [mkLexer _ ?sp _ _ _ _] =>
          assert (H4 : slice_range s sp 0 4 = Some (bytes "null"))
            by (unfold slice_range;
                replace (4 <=? len s + len sp) with true
                  by (symmetry; apply Z.leb_le; unfold len;
                      rewrite ?length_app; cbn [length]; lia);
                reflexivity)
        end
      end;
      (match goal with |- ?lhs = _ => destruct lhs as [[n err] l'|h] eqn:H end;
       unfold Next, readReserved in H; run H;
       first [ right_keyword | wrong_keyword ]).
  - intros Hpost.
    destruct Hcases as [[-> ->] | [[-> ->] | [[-> ->] | [-> ->]]]];
      [congruence|..]; unfold len in *; cbn [length] in *; lia.
Qed.

(** ** Further properties of the scan of a number *)

Lemma slice_from_step (s t : list byte) (b : byte) (lo : Z) :
  slice_from s lo = Some (b :: t) -> slice_from s (lo + 1) = Some t.
Proof.
  intros H. pose proof (slice_from_Some _ _ _ H) as [Hlo Hl].
  unfold slice_from in *.
  destruct ((0 <=? lo) && (lo <=? len s)) eqn:E; [|discriminate H].
  injection H as H.
  replace ((0 <=? lo + 1) && (lo + 1 <=? len s)) with true.
  - f_equal. replace (Z.to_nat (lo + 1)) with (Z.to_nat lo + 1)%nat by lia.
    rewrite <- drop_drop, H. reflexivity.
  - symmetry. unfold len in *. cbn [length] in Hl.
    apply andb_true_iff. split; apply Z.leb_le; lia.
Qed.

Lemma structures_at_number_byte (r : rune) :
  0x30 <= r <= 0x39 \/ r = 0x2E \/ r = 0x2D ->
  bool_decide (structures_at r = WHITESPACE)
  || bool_decide (structures_at r = NEWLINE)
  || bool_decide (structures_at r = COMMA) = false.
Proof.
  intros H. unfold structures_at. rewrite structures_spec.
  repeat match goal with
         | |- context [?a =? ?c] => destruct (Z.eqb_spec a c); [lia|]
         end.
  reflexivity.
Qed.

(** The scan passes over the digits and the one '.' of a number, a round
    and a column for each byte. *)
Lemma readNumber_loop_tail (bs : list byte) :
  forall (fuel : nat) (dec d : bool) (size size' c' : Z) (rest : list byte)
         (l : Lexer),
    slice_from (input l) (pos l + size) = Some (bs ++ rest) ->
    number_tail dec bs = Some d ->
    size' = size + len bs ->
    c' = col l + len bs ->
    readNumber_loop (length bs + fuel) dec size l
    = readNumber_loop fuel d size' (with_col l c').
Proof.
  induction bs as [|b bs IH];
    intros fuel dec d size size' c' rest l Hsl Hn -> ->.
  - cbn [number_tail] in Hn. injection Hn as ->.
    unfold len, with_col. cbn [length Nat.add Z.of_nat].
    rewrite !Z.add_0_r. destruct l. reflexivity.
  - cbn [number_tail] in Hn. cbn [app] in Hsl.
    pose proof (slice_from_Some _ _ _ Hsl) as [Hp Hl].
    pose proof (slice_from_step _ _ _ _ Hsl) as Hnext.
    assert (Hlen : (len (input l) <=? pos l + size) = false)
      by (apply Z.leb_gt; rewrite Hl; unfold len; cbn [length]; lia).
    assert (Hb : 0x30 <= byteZ b <= 0x39 \/ byteZ b = 0x2E /\ dec = false).
    { destruct ((0x30 <=? byteZ b) && (byteZ b <=? 0x39)) eqn:E1;
        [left; eqb_lia; lia|].
      destruct ((byteZ b =? 0x2E) && negb dec) eqn:E2; [|discriminate Hn].
      right. apply andb_true_iff in E2. destruct E2 as [E2 E3].
      apply Z.eqb_eq in E2. apply negb_true_iff in E3. auto. }
    assert (Hd : DecodeRune (b :: bs ++ rest) = (byteZ b, 1))
      by (apply DecodeRune_ascii; lia).
    assert (Ht : bool_decide (structures_at (byteZ b) = WHITESPACE)
                 || bool_decide (structures_at (byteZ b) = NEWLINE)
                 || bool_decide (structures_at (byteZ b) = COMMA) = false)
      by (apply structures_at_number_byte; lia).
    assert (Hrec : forall dec', number_tail dec' bs = Some d ->
              readNumber_loop (length bs + fuel) dec' (size + 1)
                              (with_col l (col l + 1))
              = readNumber_loop fuel d (size + len (b :: bs))
                                (with_col l (col l + len (b :: bs)))).
    { intros dec' Hn'.
      rewrite (IH fuel dec' d (size + 1) (size + len (b :: bs))
                  (col l + len (b :: bs)) rest (with_col l (col l + 1)));
        try assumption.
      - unfold with_col. reflexivity.
      - unfold with_col. cbn [input pos]. rewrite Z.add_assoc. exact Hnext.
      - unfold len. cbn [length]. lia.
      - unfold with_col, len. cbn [col length]. lia. }
    cbn [length Nat.add readNumber_loop].
    destruct l as [i sp tk ln c p]. unfold with_col in *.
    cbn [input pos line col tokens spare] in *.
    destruct Hb as [Hdig | [Hdot ->]].
    + assert (E1 : (0x30 <=? byteZ b) && (byteZ b <=? 0x39) = true)
        by (apply andb_true_iff; split; apply Z.leb_le; lia).
      assert (HD : negb (IsDigit (byteZ b)) = false)
        by (rewrite IsDigit_ascii by lia; reflexivity).
      rewrite E1 in Hn. rewrite <- (Hrec dec Hn).
      match goal with |- ?lhs = ?rhs => set (R := rhs);
        destruct lhs as [x s|h] eqn:H end;
        run H;
        try (cbn [input spare tokens line col pos] in H; symmetry; exact H);
        exfalso; eqb_lia; unfold RuneError in *; lia.
    + assert (E1 : (0x30 <=? byteZ b) && (byteZ b <=? 0x39) = false)
        by (apply andb_false_iff; left; apply Z.leb_gt; lia).
      assert (E2 : (byteZ b =? 0x2E) && negb false = true)
        by (apply andb_true_iff; split; [apply Z.eqb_eq; lia | reflexivity]).
      rewrite E1, E2 in Hn. rewrite <- (Hrec true Hn).
      match goal with |- ?lhs = ?rhs => set (R := rhs);
        destruct lhs as [x s|h] eqn:H end;
        run H;
        try (cbn [input spare tokens line col pos] in H; symmetry; exact H);
        exfalso; eqb_lia; unfold RuneError in *; lia.
Qed.

Lemma slice_from_app (s a t : list byte) :
  forall lo : Z,
    slice_from s lo = Some (a ++ t) -> slice_from s (lo + len a) = Some t.
Proof.
  induction a as [|b a IH]; intros lo H.
  - unfold len. cbn [length Z.of_nat]. rewrite Z.add_0_r. exact H.
  - cbn [app] in H. apply slice_from_step in H. apply IH in H.
    replace (lo + len (b :: a)) with (lo + 1 + len a)
      by (unfold len; cbn [length]; lia).
    exact H.
Qed.

(** [Next] on the first byte of a number hands over to the scan. *)
Lemma Next_on_number_start (l : Lexer) (b : byte) (tl : list byte) :
  slice_from (input l) (pos l) = Some (b :: tl) ->
  b = x2d \/ 0x30 <= byteZ b <= 0x39 ->
  Next l = match readNumber_loop (S (length (input l))) false 1 l with
           | Ret (_, Some err) l1 => Ret (0, Some err) l1
           | Ret (s, None) l1 =>
             Ret (1 + s, None)
                 {| input := input l1; spare := spare l1;
                    tokens := tokens l1; line := line l1; col := col l1;
                    pos := pos l1 + (1 + s) |}
           | Halt h => Halt h
           end.
Proof.
  intros Hsl Hnum. destruct (slice_from_Some _ _ _ Hsl) as [Hp Hl].
  assert (Hlen : (len (input l) <=? pos l) = false)
    by (apply Z.leb_gt; rewrite Hl; unfold len; cbn [length]; lia).
  assert (Hr : byteZ b = 0x2D \/ 0x30 <= byteZ b <= 0x39)
    by (destruct Hnum as [-> | Hnum]; [left; reflexivity | right; exact Hnum]).
  assert (Hd : DecodeRune (b :: tl) = (byteZ b, 1))
    by (apply DecodeRune_ascii; lia).
  pose proof (structures_number _ Hr) as Hq.
  assert (Hn : (byteZ b =? 0x2D) || IsDigit (byteZ b) = true).
  { destruct Hr as [-> | Hr]; [reflexivity|].
    rewrite IsDigit_ascii by lia. apply orb_true_r. }
  destruct l as [i sp tk ln c p]. cbn [input pos line col tokens spare] in *.
  match goal with |- ?lhs = _ => destruct lhs as [[n err] l'|h] eqn:H end;
    unfold Next, readNumber, rounds in H; cbn [input] in H; run H;
    try reflexivity;
    exfalso; eqb_lia; unfold RuneError in *; lia.
Qed.

Lemma readNumber_loop_comma (fuel : nat) (dec : bool) (size : Z) (l : Lexer)
      (rest : list byte) :
  slice_from (input l) (pos l + size) = Some (x2c :: rest) ->
  readNumber_loop (S fuel) dec size l = Ret (size, None) l.
Proof.
  intros Hsl. destruct (slice_from_Some _ _ _ Hsl) as [Hp Hl].
  assert (Hlen : (len (input l) <=? pos l + size) = false)
    by (apply Z.leb_gt; rewrite Hl; unfold len; cbn [length]; lia).
  pose proof (DecodeRune_ascii x2c rest eq_refl) as Hd.
  change (byteZ x2c) with 0x2C in Hd.
  destruct l as [i sp tk ln c p]. cbn [input pos line col tokens spare] in *.
  match goal with |- ?lhs = _ => destruct lhs as [[n err] l'|h] eqn:H end;
    cbn [readNumber_loop] in H; run H; reflexivity.
Qed.

Lemma readNumber_loop_end (fuel : nat) (dec : bool) (size : Z) (l : Lexer) :
  slice_from (input l) (pos l + size) = Some [] ->
  readNumber_loop (S fuel) dec size l
  = Ret (0, Some (unexpected_EOF (line l) (col l))) l.
Proof.
  intros Hsl. destruct (slice_from_Some _ _ _ Hsl) as [Hp Hl].
  assert (Hlen : (len (input l) <=? pos l + size) = true)
    by (apply Z.leb_le; rewrite Hl; unfold len; cbn [length]; lia).
  destruct l as [i sp tk ln c p]. cbn [input pos line col tokens spare] in *.
  match goal with |- ?lhs = _ => destruct lhs as [[n err] l'|h] eqn:H end;
    cbn [readNumber_loop] in H; run H; reflexivity.
Qed.

Lemma readNumber_loop_bad (fuel : nat) (dec : bool) (size : Z) (l : Lexer)
      (c : byte) (rest : list byte) :
  slice_from (input l) (pos l + size) = Some (c :: rest) ->
  byteZ c < 0x80 ->
  ~ 0x30 <= byteZ c <= 0x39 ->
  byteZ c <> 0x2C ->
  (byteZ c = 0x2E -> dec = true) ->
  readNumber_loop (S fuel) dec size l
  = Halt (Fatalf (Fatal_unexpected_lexer (byteZ c) (line l) (pos l))).
Proof.
  intros Hsl Hc Hdig Hcomma Hdot.
  destruct (slice_from_Some _ _ _ Hsl) as [Hp Hl].
  assert (Hlen : (len (input l) <=? pos l + size) = false)
    by (apply Z.leb_gt; rewrite Hl; unfold len; cbn [length]; lia).
  pose proof (DecodeRune_ascii c rest Hc) as Hd.
  assert (HD : negb (IsDigit (byteZ c)) = true).
  { unfold IsDigit. pose proof (byteZ_range c).
    replace (byteZ c <=? 0xFF) with true by (symmetry; apply Z.leb_le; lia).
    apply negb_true_iff. apply andb_false_iff.
    destruct (Z.le_gt_cases 0x30 (byteZ c));
      [right; apply Z.leb_gt; lia | left; apply Z.leb_gt; lia]. }
  assert (Ht : bool_decide (structures_at (byteZ c) = WHITESPACE)
               || bool_decide (structures_at (byteZ c) = NEWLINE)
               || bool_decide (structures_at (byteZ c) = COMMA) = false).
  { unfold structures_at. rewrite structures_spec.
    repeat match goal with
           | |- context [?a =? ?v] => destruct (Z.eqb_spec a v); [try lia|]
           end; reflexivity. }
  destruct l as [i sp tk ln c0 p]. cbn [input pos line col tokens spare] in *.
  match goal with |- ?lhs = _ => destruct lhs as [[n err] l'|h] eqn:H end;
    cbn [readNumber_loop] in H; run H; try reflexivity;
    exfalso; eqb_lia; unfold RuneError in *; try lia;
    match goal with
    | E : byteZ c = 0x2E |- _ => specialize (Hdot E); discriminate Hdot
    end.
Qed.

(** Fuel of the scan over a buffer that holds the number. *)
Lemma rounds_cover (i bs tl : list byte) (b : byte) (p : Z) :
  slice_from i p = Some (b :: bs ++ tl) ->
  S (length i) = (length bs + S (length i - length bs))%nat.
Proof.
  intros H. apply slice_from_Some in H. destruct H as [Hp Hl].
  unfold len in Hl. cbn [length] in Hl. rewrite length_app in Hl. lia.
Qed.

(** X12: a number (a '-' or an ASCII digit, then digits with one '.' at
    most) followed by a comma: [Next] returns the length of the number
    plus one and moves the cursor past the comma, which is consumed with
    the number; no token is appended, and the column grows by the length
    of the number less one. *)
Theorem Next_on_number_comma (l : Lexer) (b : byte) (bs rest : list byte)
        (d : bool) :
  slice_from (input l) (pos l) = Some (b :: bs ++ x2c :: rest) ->
  b = x2d \/ 0x30 <= byteZ b <= 0x39 ->
  number_tail false bs = Some d ->
  Next l = Ret (len bs + 2, None)
             {| input := input l; spare := spare l; tokens := tokens l;
                line := line l; col := col l + len bs;
                pos := pos l + (len bs + 2) |}.
Proof.
  intros Hsl Hnum Hn.
  rewrite (Next_on_number_start l b _ Hsl Hnum).
  rewrite (rounds_cover _ _ _ _ _ Hsl).
  pose proof (slice_from_step _ _ _ _ Hsl) as H1.
  rewrite (readNumber_loop_tail bs _ false d 1 (1 + len bs) (col l + len bs)
             (x2c :: rest) l H1 Hn eq_refl eq_refl).
  apply slice_from_app in H1.
  rewrite (readNumber_loop_comma _ d (1 + len bs) (with_col l _) rest)
    by (unfold with_col; cbn [input pos]; rewrite <- Z.add_assoc in H1;
        exact H1).
  unfold with_col. cbn [input spare tokens line col pos].
  replace (1 + (1 + len bs)) with (len bs + 2) by lia. reflexivity.
Qed.

(** X13: a number that runs to the end of the buffer: [Next] returns 0 and
    the error "unexpected EOF"; the cursor stays on the first byte of the
    number, but the column has grown by the length of the number less one,
    and it is this column the error carries. *)
Theorem Next_on_number_at_end (l : Lexer) (b : byte) (bs : list byte)
        (d : bool) :
  slice_from (input l) (pos l) = Some (b :: bs) ->
  b = x2d \/ 0x30 <= byteZ b <= 0x39 ->
  number_tail false bs = Some d ->
  Next l = Ret (0, Some (unexpected_EOF (line l) (col l + len bs)))
             (with_col l (col l + len bs)).
Proof.
  intros Hsl Hnum Hn. rewrite <- (app_nil_r bs) in Hsl.
  rewrite (Next_on_number_start l b _ Hsl Hnum).
  rewrite (rounds_cover _ _ _ _ _ Hsl).
  pose proof (slice_from_step _ _ _ _ Hsl) as H1.
  rewrite (readNumber_loop_tail bs _ false d 1 (1 + len bs) (col l + len bs)
             [] l H1 Hn eq_refl eq_refl).
  apply slice_from_app in H1.
  rewrite (readNumber_loop_end _ d (1 + len bs) (with_col l _))
    by (unfold with_col; cbn [input pos]; rewrite <- Z.add_assoc in H1;
        exact H1).
  reflexivity.
Qed.

(** X14: a number followed by an ASCII byte that is no digit and no comma,
    and is no '.' unless the number holds one already (a blank, a line
    feed, a closing brace or bracket, a second '.'): [Next] ends the
    process through [log.Fatalf], whose message carries that byte, the
    line, and the byte position of the first byte of the number. *)
Theorem Next_on_number_bad_byte (l : Lexer) (b c : byte) (bs rest : list byte)
        (d : bool) :
  slice_from (input l) (pos l) = Some (b :: bs ++ c :: rest) ->
  b = x2d \/ 0x30 <= byteZ b <= 0x39 ->
  number_tail false bs = Some d ->
  byteZ c < 0x80 ->
  ~ 0x30 <= byteZ c <= 0x39 ->
  byteZ c <> 0x2C ->
  (byteZ c = 0x2E -> d = true) ->
  Next l = Halt (Fatalf (Fatal_unexpected_lexer (byteZ c) (line l) (pos l))).
Proof.
  intros Hsl Hnum Hn Hc Hdig Hcomma Hdot.
  rewrite (Next_on_number_start l b _ Hsl Hnum).
  rewrite (rounds_cover _ _ _ _ _ Hsl).
  pose proof (slice_from_step _ _ _ _ Hsl) as H1.
  rewrite (readNumber_loop_tail bs _ false d 1 (1 + len bs) (col l + len bs)
             (c :: rest) l H1 Hn eq_refl eq_refl).
  apply slice_from_app in H1.
  rewrite (readNumber_loop_bad _ d (1 + len bs) (with_col l _) c rest)
    by (first [ assumption
              | unfold with_col; cbn [input pos];
                rewrite <- Z.add_assoc in H1; exact H1 ]).
  reflexivity.
Qed.

(** ** The log of the lexer *)

Lemma Next_well_formed (l l' : Lexer) (x : Z * option error) :
  well_formed l -> Next l = Ret x l' -> well_formed l'.
Proof.
  intros (Hln & Hc & Hp & Hall & Hord) H. destruct x as [n err].
  pose proof (Next_spec _ _ _ _ H) as (_ & _ & Hpos & Hn & (new & Ht & Hf) & _).
  pose proof (Next_effects _ _ _ _ H) as (Hl & (new' & Ht' & Hf') & _ & _ & Hc').
  assert (new' = new) by (rewrite Ht in Ht'; apply app_inv_head in Ht'; auto).
  subst new'.
  assert (Hnew : Forall (fun t => Line t = line l' /\ Col t = pos l /\ Pos t = 0)
                        new).
  { rewrite Forall_forall in *. intros t Hin. specialize (Hf t Hin).
    specialize (Hf' t Hin). tauto. }
  repeat split; try lia.
  - rewrite Ht. apply Forall_app. split.
    + eapply Forall_impl; [exact Hall|]. cbn beta. intros t ?. lia.
    + eapply Forall_impl; [exact Hnew|]. cbn beta. intros t ?. lia.
  - rewrite Ht in *.
    apply lookup_app_Some in H1. apply lookup_app_Some in H2.
    rewrite Forall_forall in Hall, Hnew.
    destruct H1 as [H1 | [Hi H1]], H2 as [H2 | [Hj H2]].
    + apply (Hord _ _ _ _ H0 H1 H2).
    + apply list_elem_of_lookup_2 in H1, H2.
      specialize (Hall _ H1). specialize (Hnew _ H2). lia.
    + apply lookup_lt_Some in H2. lia.
    + apply list_elem_of_lookup_2 in H1, H2.
      pose proof (Hnew _ H1). pose proof (Hnew _ H2). lia.
  - rewrite Ht in *.
    apply lookup_app_Some in H1. apply lookup_app_Some in H2.
    rewrite Forall_forall in Hall, Hnew.
    destruct H1 as [H1 | [Hi H1]], H2 as [H2 | [Hj H2]].
    + apply (Hord _ _ _ _ H0 H1 H2).
    + apply list_elem_of_lookup_2 in H1, H2.
      specialize (Hall _ H1). specialize (Hnew _ H2). lia.
    + apply lookup_lt_Some in H2. lia.
    + apply list_elem_of_lookup_2 in H1, H2.
      pose proof (Hnew _ H1). pose proof (Hnew _ H2). lia.
Qed.

Lemma NextN_well_formed (k : nat) :
  forall (l l' : Lexer) (rs : list (Z * option error)),
    well_formed l -> NextN k l = Ret rs l' -> well_formed l'.
Proof.
  induction k as [|k IH]; intros l l' rs Hw H; cbn [NextN] in H.
  - run H. exact Hw.
  - run H. eapply IH; [|eassumption]. eapply Next_well_formed; eassumption.
Qed.

(** X15: in every lexer reached from [NewLexer] by calls of [Next], the
    line is 1 at least, the column and the cursor are not negative, and
    every token of the log has a line between 1 and the line of the lexer,
    in [Col] a byte position between 0 and the cursor, and 0 in [Pos]; the
    log is in the order of the lines and of the byte positions. *)
Theorem log_is_ordered (buf extra : list byte) (n : nat)
        (rs : list (Z * option error)) (l : Lexer) :
  NextN n (NewLexer buf extra) = Ret rs l -> well_formed l.
Proof.
  apply NextN_well_formed. unfold well_formed, NewLexer.
  cbn [line col pos tokens]. repeat split; try lia.
  - constructor.
  - rewrite lookup_nil in H0. discriminate H0.
  - rewrite lookup_nil in H0. discriminate H0.
Qed.

(** X16: a call of [Next] ends: it returns, or it halts on [log.Fatalf] or
    on a panic.  The loops of the two scans never go on for ever inside
    [Next]: the scan of a number moves by one rune a round, and the scan
    of a string leaves its loop in the first round. *)
Theorem Next_ends (l : Lexer) : Next l <> Halt Diverges.
Proof.
  intros H. apply Next_real in H. exact H.
Qed.

(** X17: what [Next] returns does not depend on the line, the column or
    the log: two lexers over the same buffer with the cursor at the same
    byte both halt, or both return, with the same count, an error both or
    neither, and the cursor at the same byte again. *)
Theorem Next_depends_on_buffer_and_cursor (l1 l2 : Lexer) :
  same_cursor l1 l2 -> agree (Next l1) (Next l2).
Proof. apply Next_same_cursor. Qed.

(** ** Further properties of the parser *)

(** The loop of [CreateObject] returns with a [RBRACE] token last in the
    log, over the buffer it started with. *)
Lemma CreateObject_loop_spec (fuel : nat) :
  forall (l l' : Lexer),
    CreateObject_loop fuel l = Ret tt l' ->
    input l' = input l /\ spare l' = spare l /\ pos l <= pos l' /\
    exists t, Token_ l' = Some t /\ Typ t = RBRACE.
Proof.
  induction fuel as [|fuel IH]; intros l l' H; cbn [CreateObject_loop] in H.
  - run H.
  - run H;
      repeat match goal with
             | E : Next _ = Ret ?a _ |- _ =>
               destruct a; apply Next_spec in E;
               destruct E as (? & ? & ? & ? & _)
             | E : bool_decide _ = true |- _ => apply bool_decide_eq_true in E
             end;
      try (apply IH in H; destruct H as (? & ? & ? & ?));
      repeat split; try congruence; try lia; eauto.
Qed.

(** X19: when [CreateObject] returns, the element it returns is a fresh
    address that holds an object with an allocated, empty map and no
    parent; the rest of the heap is as before, the last token of the log
    is a [RBRACE], and the buffer of the lexer is untouched.  Whatever
    tokens were read on the way, none is kept in the object. *)
Theorem CreateObject_returns_empty_object (fuel : nat) (w w' : World)
        (e : element) :
  CreateObject fuel w = Ret e w' ->
  exists p,
    e = Some p /\ heap w !! p = None /\
    heap w' = <[ p := Object {| o_parent := None; m := Some ∅ |} ]> (heap w) /\
    (exists t, Token_ (lexer (this w')) = Some t /\ Typ t = RBRACE) /\
    input (lexer (this w')) = input (lexer (this w)).
Proof.
  intros H. destruct w as [[l] hp]. run H.
  match goal with
  | E : CreateObject_loop _ _ = Ret ?u _ |- _ =>
    destruct u; apply CreateObject_loop_spec in E;
    destruct E as (Hi & _ & _ & Ht)
  end.
  exists (fresh (dom hp)). cbn [heap this lexer].
  repeat split; try assumption.
  apply not_elem_of_dom. apply is_fresh.
Qed.

(** X20: when the end of the buffer is reached before a [RBRACE] was read,
    [CreateObject] ends the process with "unexpected EOF", and the message
    carries the line and the [Col] of the [EOF] token: the line after the
    last one, and the byte position of the cursor. *)
Theorem CreateObject_at_end_is_fatal (fuel : nat) (l : Lexer)
        (t : lexer.Token) :
  Token_ l = Some t ->
  Typ t <> RBRACE ->
  len (input l) <= pos l ->
  CreateObject_loop (S fuel) l
  = Halt (Fatalf (Fatal_object_EOF (line l + 1) (pos l))).
Proof.
  intros Ht Hty Hend. pose proof (Next_past_end l Hend) as HN.
  pose proof (bool_decide_eq_false_2 _ Hty) as Hb.
  match type of HN with
  | _ = Ret _ ?l1 =>
    assert (Ht1 : Token_ l1
                  = Some {| Typ := EOF; Literal := "EOF"; Line := line l + 1;
                            Col := pos l; Pos := 0 |})
      by (unfold Token_; cbn [tokens]; apply last_snoc)
  end.
  match goal with |- ?lhs = _ => destruct lhs as [[] l'|h] eqn:H end;
    cbn [CreateObject_loop] in H; run H; try reflexivity;
    match goal with
    | E : bool_decide _ = false |- _ => cbn [Typ] in E; discriminate E
    end.
Qed.

(** With the cursor on a double quote [Next] returns an error and the
    lexer as it was. *)
Lemma Next_stuck_on_quote (l : Lexer) :
  byte_at_cursor l = Some x22 ->
  Next l = Ret (0, Some (unexpected_EOF (line l) (col l))) l.
Proof.
  intros Hb. destruct (byte_at_cursor_slice l _ Hb) as (Hlen & rest & Hsl).
  pose proof (DecodeRune_ascii x22 rest eq_refl) as Hd.
  change (byteZ x22) with 0x22 in Hd.
  pose proof structures_quote as Hq.
  destruct l as [i sp tk ln c p]. cbn [input pos line col] in *.
  match goal with |- ?lhs = _ => destruct lhs as [[n err] l'|h] eqn:H end;
    unfold Next, readString, rounds in H; cbn [readString_loop] in H;
    run H; reflexivity.
Qed.

(** X21: [CreateObject] never returns from a lexer on which [Next] fails
    without moving (the cursor on a double quote, on an unknown word, on a
    byte that starts no token) while the last token of the log is none of
    [RBRACE], [EOF] and [STRING]: every round calls [Next], drops its
    error and finds the same token, so no number of rounds is enough. *)
Theorem CreateObject_never_returns (l : Lexer) (t : lexer.Token) (e : error) :
  Next l = Ret (0, Some e) l ->
  Token_ l = Some t ->
  Typ t <> RBRACE -> Typ t <> EOF -> Typ t <> STRING ->
  forall fuel : nat, CreateObject_loop fuel l = Halt Diverges.
Proof.
  intros HN Ht H1 H2 H3 fuel. induction fuel as [|fuel IH]; [reflexivity|].
  cbn [CreateObject_loop]. unfold Token. autounfold with go. cbn beta iota.
  rewrite Ht. cbn beta iota. rewrite (bool_decide_eq_false_2 _ H1).
  rewrite HN. cbn beta iota. rewrite Ht. cbn beta iota.
  rewrite (bool_decide_eq_false_2 _ H2). rewrite Ht. cbn beta iota.
  rewrite (bool_decide_eq_false_2 _ H3). cbn beta iota.
  exact IH.
Qed.

(** X22: [AddElement] on a value is [AddElement] on the container that
    encloses it: through any number of values linked by [parent], the call
    reaches the object or the array at the end of the chain and has the
    effect of a call on it; when the chain ends on a nil parent instead,
    the call panics. *)
Theorem AddElement_through_values (w : World) (k : nat) (e q : element)
        (name : string) (x : element) :
  reaches (heap w) k e q ->
  (container (heap w) q ->
   forall depth, (k <= depth)%nat ->
     AddElement depth e name x w = AddElement 0 q name x w) /\
  (q = None ->
   forall depth, (k <= depth)%nat ->
     AddElement depth e name x w = Halt (Panic nil_pointer_dereference)).
Proof.
  revert e. induction k as [|k IH]; intros e Hr; cbn [reaches] in Hr.
  - subst e. split.
    + intros (p & -> & Hc) depth _.
      destruct depth; cbn [AddElement]; autounfold with go; cbn beta iota;
        destruct Hc as [[o Ho] | [a Ha]];
        first [rewrite Ho | rewrite Ha]; reflexivity.
    + intros -> depth _. destruct depth; reflexivity.
  - destruct Hr as (p & v & -> & Hp & Hr). destruct (IH _ Hr) as [IH1 IH2].
    split.
    + intros Hc depth Hd. destruct depth as [|depth]; [lia|].
      cbn [AddElement]. autounfold with go. cbn beta iota. rewrite Hp.
      apply IH1; [exact Hc | lia].
    + intros Hq depth Hd. destruct depth as [|depth]; [lia|].
      cbn [AddElement]. autounfold with go. cbn beta iota. rewrite Hp.
      apply IH2; [exact Hq | lia].
Qed.

(** X23: [AddElement] on an array never fails and keeps no name: two calls
    in a row, under any names (the same one twice included), leave the
    array with the two elements appended in the order of the calls. *)
Theorem AddElement_array_appends (w : World) (p : nat) (a : array)
        (n1 n2 : string) (x1 x2 : element) (d1 d2 : nat) :
  heap w !! p = Some (Array a) ->
  exists w1 w2,
    AddElement d1 (Some p) n1 x1 w = Ret tt w1 /\
    AddElement d2 (Some p) n2 x2 w1 = Ret tt w2 /\
    heap w2 = <[ p := Array {| a_parent := a_parent a;
                               e := parser.e a ++ [x1; x2] |} ]> (heap w) /\
    this w2 = this w.
Proof.
  intros Hp. eexists _, _. split; [|split; [|split]].
  - destruct d1; cbn [AddElement]; autounfold with go; cbn beta iota;
      rewrite Hp; reflexivity.
  - destruct d2; cbn [AddElement]; autounfold with go; cbn beta iota;
      cbn [heap]; rewrite lookup_insert_eq; reflexivity.
  - cbn [heap a_parent parser.e]. rewrite insert_insert_eq.
    rewrite <- app_assoc. reflexivity.
  - reflexivity.
Qed.

(** X24: [peek] leaves the lexer as it is and panics exactly when the
    cursor is outside the buffer (before its first byte or past its end);
    inside, it returns a rune with its width, and the pair (0, 0) when the
    rune under the cursor is the last one. *)
Theorem peek_panics_outside_buffer (l : Lexer) :
  (0 <= pos l <= len (input l) ->
   exists r w, peek l = Ret (r, w) l /\ 0 <= w <= 4 /\
               (forall p, slice_from (input l) (pos l) = Some p ->
                          len (input l) <= pos l + snd (DecodeRune p) ->
                          (r, w) = (0, 0))) /\
  (~ 0 <= pos l <= len (input l) ->
   peek l = Halt (Panic slice_bounds_out_of_range)).
Proof.
  split.
  - intros Hin.
    assert (Hs : exists p, slice_from (input l) (pos l) = Some p).
    { unfold slice_from.
      replace ((0 <=? pos l) && (pos l <=? len (input l))) with true
        by (symmetry; apply andb_true_iff; split; apply Z.leb_le; lia).
      eauto. }
    destruct Hs as [p Hs].
    pose proof (DecodeRune_width p) as Hw.
    destruct (DecodeRune p) as [r0 w0] eqn:Hd. cbn [snd] in Hw.
    destruct (len (input l) <=? pos l + w0) eqn:E.
    + exists 0, 0. split; [|split; [lia|]].
      * unfold peek. autounfold with go. cbn beta iota.
        rewrite Hs. cbn beta iota. rewrite Hd, E. reflexivity.
      * reflexivity.
    + assert (Hq : exists q, slice_from (input l) (pos l + w0) = Some q).
      { unfold slice_from. apply Z.leb_gt in E.
        replace ((0 <=? pos l + w0) && (pos l + w0 <=? len (input l)))
          with true
          by (symmetry; apply andb_true_iff; split; apply Z.leb_le; lia).
        eauto. }
      destruct Hq as [q Hq].
      pose proof (DecodeRune_width q) as Hw'.
      destruct (DecodeRune q) as [r w] eqn:Hd'. cbn [snd] in Hw'.
      exists r, w. split; [|split; [lia|]].
      * unfold peek. autounfold with go. cbn beta iota.
        rewrite Hs. cbn beta iota. rewrite Hd, E. cbn beta iota.
        rewrite Hq. cbn beta iota. rewrite Hd'. reflexivity.
      * intros p' Hp' Hle. rewrite Hs in Hp'. injection Hp' as <-.
        rewrite Hd in Hle. cbn [snd] in Hle. apply Z.leb_gt in E. lia.
  - intros Hout. unfold peek. autounfold with go. cbn beta iota.
    unfold slice_from.
    replace ((0 <=? pos l) && (pos l <=? len (input l))) with false;
      [reflexivity|].
    symmetry. apply andb_false_iff.
    destruct (Z.le_gt_cases 0 (pos l));
      [right; apply Z.leb_gt; lia | left; apply Z.leb_gt; lia].
Qed.

(** ** The lexer with the one-result [Next]: bytes, slices and the map *)

Ltac l0_simpl :=
  cbn [lexer0.input lexer0.pos lexer0.line lexer0.tokens lexer0.spare
       lexer0.index lexer0.tokenMap] in *.

Lemma string_of_rune_ascii (b : byte) :
  byteZ b < 0x80 -> string_of_rune (byteZ b) = lexer0.chr b.
Proof.
  destruct b; intros H; first [ reflexivity | vm_compute in H; discriminate H ].
Qed.

Lemma tokenMap_chr (l : lexer0.Lexer) (b : byte) :
  has_tokenMap l -> lexer0.tokenMap l !! lexer0.chr b = token_of_byte b.
Proof.
  intros ->. destruct b; vm_compute; reflexivity.
Qed.

Lemma byteZ_inj (a b : byte) : byteZ a = byteZ b -> a = b.
Proof.
  unfold byteZ. intros H. apply N2Z.inj in H.
  pose proof (Byte.of_to_N a) as Ha. pose proof (Byte.of_to_N b) as Hb.
  rewrite H in Ha. rewrite Ha in Hb. injection Hb as ->. reflexivity.
Qed.

(** [s[lo:hi]] in terms of [s[lo:]]. *)
Lemma slice_range_from (s extra p : list byte) (lo hi : Z) :
  slice_from s lo = Some p ->
  lo <= hi <= len s + len extra ->
  slice_range s extra lo hi = Some (take (Z.to_nat (hi - lo)) (p ++ extra)).
Proof.
  intros H Hhi. pose proof (slice_from_Some _ _ _ H) as [Hlo Hl].
  unfold slice_from in H.
  destruct ((0 <=? lo) && (lo <=? len s)) eqn:E; [|discriminate H].
  injection H as <-. unfold slice_range.
  replace ((0 <=? lo) && (lo <=? hi) && (hi <=? len s + len extra)) with true
    by (symmetry; repeat (apply andb_true_iff; split); apply Z.leb_le; lia).
  f_equal. apply andb_true_iff in E. destruct E as [_ E]. apply Z.leb_le in E.
  rewrite <- drop_app_le by (unfold len in E; lia).
  rewrite take_drop_commute.
  replace (Z.to_nat lo + Z.to_nat (hi - lo))%nat with (Z.to_nat hi) by lia.
  reflexivity.
Qed.

Lemma slice_range_inside (s extra a t : list byte) (lo : Z) :
  slice_from s lo = Some (a ++ t) ->
  slice_range s extra lo (lo + len a) = Some a.
Proof.
  intros H. pose proof (slice_from_Some _ _ _ H) as [Hlo Hl].
  pose proof (len_nonneg extra). pose proof (len_nonneg t).
  unfold len in Hl. rewrite length_app in Hl.
  rewrite (slice_range_from _ _ _ _ _ H) by (unfold len in *; lia).
  f_equal. replace (Z.to_nat (lo + len a - lo)) with (length a)
    by (unfold len; lia).
  rewrite <- app_assoc. apply take_app_length.
Qed.

Lemma slice_range_outside (s extra : list byte) (lo hi : Z) :
  len s + len extra < hi -> slice_range s extra lo hi = None.
Proof.
  intros H. unfold slice_range.
  replace (hi <=? len s + len extra) with false
    by (symmetry; apply Z.leb_gt; lia).
  rewrite andb_false_r. reflexivity.
Qed.

Lemma token_of_byte_None (b : byte) :
  ~ In (byteZ b) [0x7B; 0x7D; 0x5B; 0x5D; 0x2C; 0x3A; 0x22; 0x20; 0x09; 0x0D;
                  0x0A] ->
  token_of_byte b = None.
Proof.
  destruct b; intros H; try reflexivity; exfalso; apply H; cbn [In];
    repeat first [ left; reflexivity | right ].
Qed.

(** The map of [lexer0.NewLexer] under [string(r)] for an ASCII rune. *)
Lemma tokenMap_ascii (l : lexer0.Lexer) (b : byte) :
  has_tokenMap l -> byteZ b < 0x80 ->
  lexer0.tokenMap l !! string_of_rune (byteZ b) = token_of_byte b.
Proof.
  intros Hmap Hb. rewrite (string_of_rune_ascii b Hb).
  apply tokenMap_chr. exact Hmap.
Qed.

(** Of the tokens of single bytes, only those of the blanks, the line feed
    and the comma end a number. *)
Lemma token_of_byte_break (b : byte) (t : Z) :
  token_of_byte b = Some t ->
  ~ In b [x20; x09; x0d; x0a; x2c] ->
  (t =? lexer0.WHITESPACE) || (t =? lexer0.NEWLINE) || (t =? lexer0.COMMA)
  = false.
Proof.
  destruct b; cbn [token_of_byte]; intros H Hn; try discriminate H;
    injection H as <-; try reflexivity; exfalso; apply Hn; cbn [In];
    repeat first [ left; reflexivity | right ].
Qed.

Lemma slice_range_shorter (s extra w : list byte) (lo hi hi' : Z) :
  slice_range s extra lo hi = Some w ->
  lo <= hi' <= hi ->
  slice_range s extra lo hi' = Some (take (Z.to_nat (hi' - lo)) w).
Proof.
  unfold slice_range. intros H Hh.
  destruct ((0 <=? lo) && (lo <=? hi) && (hi <=? len s + len extra)) eqn:E;
    [|discriminate H].
  injection H as <-.
  apply andb_true_iff in E. destruct E as [E E3].
  apply andb_true_iff in E. destruct E as [E1 E2].
  apply Z.leb_le in E1, E2, E3.
  replace ((0 <=? lo) && (lo <=? hi') && (hi' <=? len s + len extra)) with true
    by (symmetry; repeat (apply andb_true_iff; split); apply Z.leb_le; lia).
  f_equal. rewrite take_drop_commute, take_take.
  replace (Z.to_nat lo + Z.to_nat (hi' - lo))%nat with (Z.to_nat hi') by lia.
  replace (Z.to_nat hi' `min` Z.to_nat hi)%nat with (Z.to_nat hi') by lia.
  reflexivity.
Qed.

(** ** The lexer with the one-result [Next]: strings *)

Lemma string_loop_step (fuel : nat) (size p : Z) (l : lexer0.Lexer) (b : byte)
      (tl : list byte) :
  slice_from (lexer0.input l) p = Some (b :: tl) ->
  0 < byteZ b < 0x80 -> b <> x22 ->
  lexer0.string_loop (S fuel) size p l = lexer0.string_loop fuel size (p + 1) l.
Proof.
  intros Hsl Hb Hq.
  assert (Hd : DecodeRune (b :: tl) = (byteZ b, 1))
    by (apply DecodeRune_ascii; lia).
  assert (Hq' : (byteZ b =? 0x22) = false).
  { apply Z.eqb_neq. intros E. apply Hq. apply byteZ_inj. exact E. }
  assert (He : (byteZ b =? RuneError) = false)
    by (apply Z.eqb_neq; unfold RuneError; lia).
  assert (H0 : (byteZ b =? lexer0.EOF) = false)
    by (apply Z.eqb_neq; unfold lexer0.EOF; lia).
  destruct l as [i sp tk p0 ix ln tm].
  cbn [lexer0.input lexer0.pos lexer0.line lexer0.tokens lexer0.spare] in *.
  match goal with |- ?lhs = _ => destruct lhs as [z l'|h] eqn:H end;
    cbn [lexer0.string_loop] in H; run0 H; symmetry; exact H.
Qed.

Lemma string_loop_body (body : list byte) :
  forall (fuel : nat) (size p : Z) (l : lexer0.Lexer) (rest : list byte),
    slice_from (lexer0.input l) p = Some (body ++ rest) ->
    Forall (fun b => 0 < byteZ b < 0x80 /\ b <> x22) body ->
    lexer0.string_loop (length body + fuel) size p l
    = lexer0.string_loop fuel size (p + len body) l.
Proof.
  induction body as [|b body IH]; intros fuel size p l rest Hsl Hall.
  - unfold len. cbn [length Nat.add Z.of_nat]. rewrite Z.add_0_r. reflexivity.
  - inversion Hall as [|? ? [Hb Hq] Hall']; subst. cbn [app] in Hsl.
    cbn [length Nat.add].
    rewrite (string_loop_step _ _ _ _ _ _ Hsl Hb Hq).
    rewrite (IH _ _ _ _ rest (slice_from_step _ _ _ _ Hsl) Hall').
    f_equal. unfold len. cbn [length]. lia.
Qed.

Lemma string_loop_quote (fuel : nat) (l : lexer0.Lexer) (body rest : list byte) :
  slice_from (lexer0.input l) (lexer0.pos l) = Some (x22 :: body ++ x22 :: rest) ->
  lexer0.string_loop (S fuel) 1 (lexer0.pos l + 1 + len body) l
  = Ret (lexer0.pos l + 1 + len body)
        {| lexer0.input := lexer0.input l; lexer0.spare := lexer0.spare l;
           lexer0.tokens :=
             (lexer0.tokens l
              ++ [ {| lexer0.Typ := lexer0.STRING;
                      lexer0.Literal := string_of_list_byte body;
                      lexer0.Line := lexer0.line l;
                      lexer0.Pos := lexer0.pos l |} ])
             ++ [ {| lexer0.Typ := lexer0.QUOTE;
                     lexer0.Literal := lexer0.chr x22;
                     lexer0.Line := lexer0.line l;
                     lexer0.Pos := lexer0.pos l |} ];
           lexer0.pos := lexer0.pos l; lexer0.index := lexer0.index l;
           lexer0.line := lexer0.line l;
           lexer0.tokenMap := lexer0.tokenMap l |}.
Proof.
  intros Hsl.
  pose proof (slice_from_step _ _ _ _ Hsl) as H1.
  pose proof (slice_from_app _ _ _ _ H1) as H2.
  pose proof (DecodeRune_ascii x22 rest eq_refl) as Hd.
  change (byteZ x22) with 0x22 in Hd.
  pose proof (slice_range_inside _ (lexer0.spare l) [x22] _ _ Hsl) as Hlit.
  change (len [x22]) with 1 in Hlit.
  pose proof (slice_range_inside _ (lexer0.spare l) _ _ _ H1) as Hstr.
  destruct l as [i sp tk p0 ix ln tm].
  cbn [lexer0.input lexer0.pos lexer0.line lexer0.tokens lexer0.spare
       lexer0.index lexer0.tokenMap] in *.
  match goal with |- ?lhs = _ => destruct lhs as [z l'|h] eqn:H end;
    cbn [lexer0.string_loop] in H; run0 H; reflexivity.
Qed.

(** X25: the one-result [Next] on a string: with a double quote under the
    cursor, then ASCII bytes other than NUL and the double quote, then a
    double quote, it appends a [QUOTE], a [STRING] with the bytes between
    the quotes as literal and a second [QUOTE], all three at the position
    of the opening quote, returns the length of the string with its quotes
    and moves the cursor past the closing quote.  A backslash is a byte as
    any other: the first double quote closes the string. *)
Theorem Next0_on_string (l : lexer0.Lexer) (body rest : list byte) :
  has_tokenMap l ->
  slice_from (lexer0.input l) (lexer0.pos l) = Some (x22 :: body ++ x22 :: rest) ->
  Forall (fun b => 0 < byteZ b < 0x80 /\ b <> x22) body ->
  lexer0.Next l
  = Ret (len body + 2)
        {| lexer0.input := lexer0.input l; lexer0.spare := lexer0.spare l;
           lexer0.tokens :=
             lexer0.tokens l
             ++ [ {| lexer0.Typ := lexer0.QUOTE;
                     lexer0.Literal := lexer0.chr x22;
                     lexer0.Line := lexer0.line l;
                     lexer0.Pos := lexer0.pos l |};
                  {| lexer0.Typ := lexer0.STRING;
                     lexer0.Literal := string_of_list_byte body;
                     lexer0.Line := lexer0.line l;
                     lexer0.Pos := lexer0.pos l |};
                  {| lexer0.Typ := lexer0.QUOTE;
                     lexer0.Literal := lexer0.chr x22;
                     lexer0.Line := lexer0.line l;
                     lexer0.Pos := lexer0.pos l |} ];
           lexer0.pos := lexer0.pos l + (len body + 2);
           lexer0.index := lexer0.index l;
           lexer0.line := lexer0.line l;
           lexer0.tokenMap := lexer0.tokenMap l |}.
Proof.
  intros Hmap Hsl Hall.
  destruct (slice_from_Some _ _ _ Hsl) as [Hp Hl].
  assert (Hlen0 : (len (lexer0.input l) =? 0) = false).
  { apply Z.eqb_neq. rewrite Hl. unfold len. cbn [length]. lia. }
  assert (Hlen : (len (lexer0.input l) <=? lexer0.pos l) = false)
    by (apply Z.leb_gt; rewrite Hl; unfold len; cbn [length]; lia).
  pose proof (DecodeRune_ascii x22 (body ++ x22 :: rest) eq_refl) as Hd.
  change (byteZ x22) with 0x22 in Hd.
  pose proof (tokenMap_chr l x22 Hmap) as Hk.
  change (lexer0.chr x22) with (string_of_rune 0x22) in Hk.
  change (token_of_byte x22) with (Some lexer0.QUOTE) in Hk.
  assert (Hfuel : exists k, S (length (lexer0.input l)) = (length body + S k)%nat).
  { exists (length (lexer0.input l) - length body)%nat.
    unfold len in Hl. cbn [length] in Hl. rewrite length_app in Hl. lia. }
  destruct Hfuel as [k Hfuel].
  pose proof (slice_from_step _ _ _ _ Hsl) as H1.
  destruct l as [i sp tk p0 ix ln tm].
  cbn [lexer0.input lexer0.pos lexer0.line lexer0.tokens lexer0.spare
       lexer0.index lexer0.tokenMap] in *.
  match goal with |- ?lhs = _ => destruct lhs as [z l'|h] eqn:H end;
    unfold lexer0.Next, lexer0.lexToken in H; run0 H;
    unfold lexer0.rounds in E; cbn [lexer0.input] in E; rewrite Hfuel in E;
    match type of E with
    | lexer0.string_loop _ _ _ ?L = _ =>
      rewrite (string_loop_body body (S k) 1 (p0 + 1) L (x22 :: rest) H1 Hall)
        in E;
      pose proof (string_loop_quote k L body rest Hsl) as Hq;
      cbn [lexer0.input lexer0.pos lexer0.line lexer0.tokens lexer0.spare
           lexer0.index lexer0.tokenMap] in Hq;
      rewrite Hq in E
    end;
    [injection E as <- <- | discriminate E].
  cbn [lexer0.input lexer0.pos lexer0.line lexer0.tokens lexer0.spare
       lexer0.index lexer0.tokenMap].
  rewrite <- !app_assoc. cbn [app].
  change (string_of_rune 34) with (lexer0.chr x22).
  replace (1 + (p0 + 1 + len body - p0)) with (len body + 2) by lia.
  reflexivity.
Qed.

(** ** The lexer with the one-result [Next]: numbers *)

Lemma number_loop_step (fuel : nat) (dec d : bool) (size : Z) (l : lexer0.Lexer)
      (b : byte) (tl : list byte) :
  has_tokenMap l ->
  slice_from (lexer0.input l) (lexer0.pos l + size) = Some (b :: tl) ->
  number_tail dec [b] = Some d ->
  lexer0.number_loop (S fuel) dec size l
  = lexer0.number_loop fuel d (size + 1) (with_index l (lexer0.index l + 1)).
Proof.
  intros Hmap Hsl Hn. cbn [number_tail] in Hn.
  assert (Hb : 0x30 <= byteZ b <= 0x39 /\ d = dec
               \/ byteZ b = 0x2E /\ dec = false /\ d = true).
  { destruct ((0x30 <=? byteZ b) && (byteZ b <=? 0x39)) eqn:E1.
    - left. injection Hn as ->. eqb_lia. split; [lia | reflexivity].
    - destruct ((byteZ b =? 0x2E) && negb dec) eqn:E2; [|discriminate Hn].
      right. injection Hn as <-. apply andb_true_iff in E2.
      destruct E2 as [E2 E3]. apply Z.eqb_eq in E2. apply negb_true_iff in E3.
      auto. }
  assert (Hd : DecodeRune (b :: tl) = (byteZ b, 1))
    by (apply DecodeRune_ascii; lia).
  assert (Hk : lexer0.tokenMap l !! string_of_rune (byteZ b) = None).
  { rewrite (tokenMap_ascii l b Hmap) by lia. apply token_of_byte_None.
    cbn [In]. lia. }
  assert (He : (byteZ b =? RuneError) = false)
    by (apply Z.eqb_neq; unfold RuneError; lia).
  assert (H0 : (byteZ b =? lexer0.EOF) = false)
    by (apply Z.eqb_neq; unfold lexer0.EOF; lia).
  assert (HD : 0x30 <= byteZ b <= 0x39 -> IsDigit (byteZ b) = true)
    by (intros Hr; rewrite IsDigit_ascii by lia; reflexivity).
  unfold with_index.
  destruct l as [i sp tk p0 ix ln tm]. l0_simpl.
  match goal with |- ?lhs = _ => destruct lhs as [z l'|h] eqn:H end;
    cbn [lexer0.number_loop] in H; run0 H.
  all: l0_simpl.
  all: destruct Hb as [[Hr Hdd] | (Hr & Hdec & Hdd)]; subst;
    try (symmetry; exact H).
  all: try (exfalso; eqb_lia; lia).
  all: try (rewrite (HD Hr) in *; discriminate).
Qed.

Lemma number_tail_cons (dec d : bool) (b : byte) (bs : list byte) :
  number_tail dec (b :: bs) = Some d ->
  exists d', number_tail dec [b] = Some d' /\ number_tail d' bs = Some d.
Proof.
  cbn [number_tail]. intros H.
  destruct ((0x30 <=? byteZ b) && (byteZ b <=? 0x39)); [eauto|].
  destruct ((byteZ b =? 0x2E) && negb dec); [eauto | discriminate H].
Qed.

(** The loop passes over the digits and the one '.' of a number, a round
    and a unit of [index] for each byte. *)
Lemma number_loop_tail (bs : list byte) :
  forall (fuel : nat) (dec d : bool) (size : Z) (rest : list byte)
         (l : lexer0.Lexer),
    has_tokenMap l ->
    slice_from (lexer0.input l) (lexer0.pos l + size) = Some (bs ++ rest) ->
    number_tail dec bs = Some d ->
    lexer0.number_loop (length bs + fuel) dec size l
    = lexer0.number_loop fuel d (size + len bs)
                         (with_index l (lexer0.index l + len bs)).
Proof.
  induction bs as [|b bs IH]; intros fuel dec d size rest l Hmap Hsl Hn.
  - cbn [number_tail] in Hn. injection Hn as ->.
    unfold len, with_index. cbn [length Nat.add Z.of_nat].
    rewrite !Z.add_0_r. destruct l. reflexivity.
  - destruct (number_tail_cons _ _ _ _ Hn) as (d' & Hn1 & Hn2).
    cbn [app] in Hsl. cbn [length Nat.add].
    rewrite (number_loop_step _ _ _ _ _ _ _ Hmap Hsl Hn1).
    rewrite (IH fuel d' d (size + 1) rest
                (with_index l (lexer0.index l + 1))); try assumption.
    + unfold with_index, len. cbn [lexer0.index lexer0.input lexer0.spare
        lexer0.tokens lexer0.pos lexer0.line lexer0.tokenMap length].
      f_equal; [lia | f_equal; lia].
    + unfold with_index. cbn [lexer0.input lexer0.pos].
      rewrite Z.add_assoc. exact (slice_from_step _ _ _ _ Hsl).
Qed.

(** The last round of the loop, on the byte after the number. *)
Lemma number_loop_break (fuel : nat) (dec : bool) (size : Z) (l : lexer0.Lexer)
      (c : byte) (rest : list byte) :
  has_tokenMap l ->
  slice_from (lexer0.input l) (lexer0.pos l + size) = Some (c :: rest) ->
  In c [x20; x09; x0d; x0a; x2c] ->
  lexer0.number_loop (S fuel) dec size l = Ret size l.
Proof.
  intros Hmap Hsl Hc.
  assert (Hlt : byteZ c < 0x80)
    by (cbn [In] in Hc;
        destruct Hc as [<- | [<- | [<- | [<- | [<- | []]]]]]; reflexivity).
  pose proof (tokenMap_ascii l c Hmap Hlt) as Hk.
  pose proof (DecodeRune_ascii c rest Hlt) as Hd.
  destruct l as [i sp tk p0 ix ln tm]. l0_simpl.
  cbn [In] in Hc.
  destruct Hc as [<- | [<- | [<- | [<- | [<- | []]]]]];
    cbn [token_of_byte] in Hk;
    (match goal with |- ?lhs = _ => destruct lhs as [z l'|h] eqn:H end;
     cbn [lexer0.number_loop] in H; run0 H; reflexivity).
Qed.

Lemma number_loop_end (fuel : nat) (dec : bool) (size : Z) (l : lexer0.Lexer) :
  slice_from (lexer0.input l) (lexer0.pos l + size) = Some [] ->
  lexer0.number_loop (S fuel) dec size l
  = Halt (Fatalf (Fatal_invalid_utf8 (lexer0.line l) (lexer0.pos l))).
Proof.
  intros Hsl.
  assert (Hd : DecodeRune [] = (RuneError, 0)) by reflexivity.
  destruct l as [i sp tk p0 ix ln tm]. l0_simpl.
  match goal with |- ?lhs = _ => destruct lhs as [z l'|h] eqn:H end;
    cbn [lexer0.number_loop] in H; run0 H; reflexivity.
Qed.

Lemma number_loop_bad (fuel : nat) (dec : bool) (size : Z) (l : lexer0.Lexer)
      (c : byte) (rest : list byte) :
  has_tokenMap l ->
  slice_from (lexer0.input l) (lexer0.pos l + size) = Some (c :: rest) ->
  0 < byteZ c < 0x80 ->
  ~ 0x30 <= byteZ c <= 0x39 ->
  ~ In c [x20; x09; x0d; x0a; x2c] ->
  (byteZ c = 0x2E -> dec = true) ->
  lexer0.number_loop (S fuel) dec size l
  = Halt (Fatalf (Fatal_unexpected_token (byteZ c) (lexer0.line l)
                                         (lexer0.pos l))).
Proof.
  intros Hmap Hsl Hc Hdig Hterm Hdot.
  pose proof (tokenMap_ascii l c Hmap ltac:(lia)) as Hk.
  pose proof (DecodeRune_ascii c rest ltac:(lia)) as Hd.
  assert (He : (byteZ c =? RuneError) = false)
    by (apply Z.eqb_neq; unfold RuneError; lia).
  assert (H0 : (byteZ c =? lexer0.EOF) = false)
    by (apply Z.eqb_neq; unfold lexer0.EOF; lia).
  assert (HD : negb (IsDigit (byteZ c)) = true).
  { apply negb_true_iff. unfold IsDigit.
    replace (byteZ c <=? 0xFF) with true by (symmetry; apply Z.leb_le; lia).
    apply andb_false_iff.
    destruct (Z.le_gt_cases 0x30 (byteZ c));
      [right; apply Z.leb_gt; lia | left; apply Z.leb_gt; lia]. }
  destruct (token_of_byte c) as [t|] eqn:Et.
  - pose proof (token_of_byte_break c t Et Hterm) as Hbr.
    destruct l as [i sp tk p0 ix ln tm]. l0_simpl.
    match goal with |- ?lhs = _ => destruct lhs as [z l'|h] eqn:H end;
      cbn [lexer0.number_loop] in H; run0 H; try reflexivity; exfalso;
      match goal with
      | E : (byteZ c =? 46) = true |- _ =>
        apply Z.eqb_eq in E; specialize (Hdot E); discriminate Hdot
      end.
  - destruct l as [i sp tk p0 ix ln tm]. l0_simpl.
    match goal with |- ?lhs = _ => destruct lhs as [z l'|h] eqn:H end;
      cbn [lexer0.number_loop] in H; run0 H; try reflexivity; exfalso;
      match goal with
      | E : (byteZ c =? 46) = true |- _ =>
        apply Z.eqb_eq in E; specialize (Hdot E); discriminate Hdot
      end.
Qed.

(** [Next] on the first byte of a number hands over to the loop. *)
Lemma Next0_on_number_start (l : lexer0.Lexer) (b : byte) (tl : list byte) :
  has_tokenMap l ->
  slice_from (lexer0.input l) (lexer0.pos l) = Some (b :: tl) ->
  b = x2d \/ 0x30 <= byteZ b <= 0x39 ->
  lexer0.Next l
  = match lexer0.number_loop (S (length (lexer0.input l))) false 1 l with
    | Ret s l1 =>
      match slice_range (lexer0.input l) (lexer0.spare l) (lexer0.pos l)
                        (lexer0.pos l + s) with
      | Some lit =>
        Ret s {| lexer0.input := lexer0.input l1;
                 lexer0.spare := lexer0.spare l1;
                 lexer0.tokens :=
                   lexer0.tokens l1
                   ++ [ {| lexer0.Typ := lexer0.NUMBER;
                           lexer0.Literal := string_of_list_byte lit;
                           lexer0.Line := lexer0.line l1;
                           lexer0.Pos := lexer0.pos l1 |} ];
                 lexer0.pos := lexer0.pos l1 + s;
                 lexer0.index := lexer0.index l1;
                 lexer0.line := lexer0.line l1;
                 lexer0.tokenMap := lexer0.tokenMap l1 |}
      | None => Halt (Panic slice_bounds_out_of_range)
      end
    | Halt h => Halt h
    end.
Proof.
  intros Hmap Hsl Hnum. destruct (slice_from_Some _ _ _ Hsl) as [Hp Hl].
  assert (Hlen0 : (len (lexer0.input l) =? 0) = false).
  { apply Z.eqb_neq. rewrite Hl. unfold len. cbn [length]. lia. }
  assert (Hlen : (len (lexer0.input l) <=? lexer0.pos l) = false)
    by (apply Z.leb_gt; rewrite Hl; unfold len; cbn [length]; lia).
  assert (Hr : byteZ b = 0x2D \/ 0x30 <= byteZ b <= 0x39)
    by (destruct Hnum as [-> | Hnum]; [left; reflexivity | right; exact Hnum]).
  assert (Hd : DecodeRune (b :: tl) = (byteZ b, 1))
    by (apply DecodeRune_ascii; lia).
  assert (Hk : lexer0.tokenMap l !! string_of_rune (byteZ b) = None).
  { rewrite (tokenMap_ascii l b Hmap) by lia. apply token_of_byte_None.
    cbn [In]. lia. }
  assert (He : (byteZ b =? RuneError) = false)
    by (apply Z.eqb_neq; unfold RuneError; lia).
  assert (Hn : IsDigit (byteZ b) || (byteZ b =? 0x2D) = true).
  { destruct Hr as [-> | Hr]; [reflexivity|].
    rewrite IsDigit_ascii by lia. reflexivity. }
  destruct l as [i sp tk p0 ix ln tm]. l0_simpl.
  match goal with |- ?lhs = _ => destruct lhs as [z l'|h] eqn:H end;
    unfold lexer0.Next, lexer0.rounds in H; cbn [lexer0.input] in H; run0 H;
    try reflexivity;
    exfalso; eqb_lia; lia.
Qed.

(** X26: the one-result [Next] on a number (a '-' or an ASCII digit, then
    ASCII digits with one '.' at most) followed by a blank, a line feed or
    a comma: it appends one [NUMBER] token whose literal is the text of the
    number, returns the length of the number and leaves the cursor on the
    byte that follows it; [index] grows by the length less one. *)
Theorem Next0_on_number (l : lexer0.Lexer) (b c : byte) (bs rest : list byte)
        (d : bool) :
  has_tokenMap l ->
  slice_from (lexer0.input l) (lexer0.pos l) = Some (b :: bs ++ c :: rest) ->
  b = x2d \/ 0x30 <= byteZ b <= 0x39 ->
  number_tail false bs = Some d ->
  In c [x20; x09; x0d; x0a; x2c] ->
  lexer0.Next l
  = Ret (len bs + 1)
        {| lexer0.input := lexer0.input l; lexer0.spare := lexer0.spare l;
           lexer0.tokens :=
             lexer0.tokens l
             ++ [ {| lexer0.Typ := lexer0.NUMBER;
                     lexer0.Literal := string_of_list_byte (b :: bs);
                     lexer0.Line := lexer0.line l;
                     lexer0.Pos := lexer0.pos l |} ];
           lexer0.pos := lexer0.pos l + (len bs + 1);
           lexer0.index := lexer0.index l + len bs;
           lexer0.line := lexer0.line l;
           lexer0.tokenMap := lexer0.tokenMap l |}.
Proof.
  intros Hmap Hsl Hnum Hn Hc.
  rewrite (Next0_on_number_start l b _ Hmap Hsl Hnum).
  rewrite (rounds_cover _ _ _ _ _ Hsl).
  pose proof (slice_from_step _ _ _ _ Hsl) as H1.
  rewrite (number_loop_tail bs _ false d 1 (c :: rest) l Hmap H1 Hn).
  apply slice_from_app in H1.
  rewrite (number_loop_break _ d (1 + len bs) (with_index l _) c rest)
    by (first [ exact Hmap | exact Hc
              | unfold with_index; cbn [lexer0.input lexer0.pos];
                rewrite <- Z.add_assoc in H1; exact H1 ]).
  change (b :: bs ++ c :: rest) with ((b :: bs) ++ c :: rest) in Hsl.
  pose proof (slice_range_inside _ (lexer0.spare l) _ _ _ Hsl) as Hlit.
  replace (len (b :: bs)) with (1 + len bs) in Hlit
    by (unfold len; cbn [length]; lia).
  rewrite Hlit. unfold with_index.
  cbn [lexer0.input lexer0.pos lexer0.line lexer0.tokens lexer0.spare
       lexer0.index lexer0.tokenMap].
  replace (1 + len bs) with (len bs + 1) by lia. reflexivity.
Qed.

(** X27: the one-result [Next] lexes a number only before a blank, a line
    feed or a comma.  A number that runs to the end of the buffer ends the
    process with "Invalid UTF-8 character"; a number followed by another
    ASCII byte that is no digit and no first '.' (a closing brace or
    bracket, a second '.') ends it with "Unexpected token" and that byte. *)
Theorem Next0_number_needs_separator (l : lexer0.Lexer) (b : byte)
        (bs : list byte) (d : bool) :
  has_tokenMap l ->
  b = x2d \/ 0x30 <= byteZ b <= 0x39 ->
  number_tail false bs = Some d ->
  (slice_from (lexer0.input l) (lexer0.pos l) = Some (b :: bs) ->
   lexer0.Next l
   = Halt (Fatalf (Fatal_invalid_utf8 (lexer0.line l) (lexer0.pos l)))) /\
  (forall (c : byte) (rest : list byte),
     slice_from (lexer0.input l) (lexer0.pos l) = Some (b :: bs ++ c :: rest) ->
     0 < byteZ c < 0x80 ->
     ~ 0x30 <= byteZ c <= 0x39 ->
     ~ In c [x20; x09; x0d; x0a; x2c] ->
     (byteZ c = 0x2E -> d = true) ->
     lexer0.Next l
     = Halt (Fatalf (Fatal_unexpected_token (byteZ c) (lexer0.line l)
                                            (lexer0.pos l)))).
Proof.
  intros Hmap Hnum Hn. split.
  - intros Hsl.
    rewrite (Next0_on_number_start l b _ Hmap Hsl Hnum).
    pose proof (slice_from_step _ _ _ _ Hsl) as H1.
    rewrite <- (app_nil_r bs) in Hsl, H1.
    rewrite (rounds_cover _ _ _ _ _ Hsl).
    rewrite (number_loop_tail bs _ false d 1 [] l Hmap H1 Hn).
    apply slice_from_app in H1.
    rewrite (number_loop_end _ d (1 + len bs) (with_index l _))
      by (unfold with_index; cbn [lexer0.input lexer0.pos];
          rewrite <- Z.add_assoc in H1; exact H1).
    reflexivity.
  - intros c rest Hsl Hc Hdig Hterm Hdot.
    rewrite (Next0_on_number_start l b _ Hmap Hsl Hnum).
    rewrite (rounds_cover _ _ _ _ _ Hsl).
    pose proof (slice_from_step _ _ _ _ Hsl) as H1.
    rewrite (number_loop_tail bs _ false d 1 (c :: rest) l Hmap H1 Hn).
    apply slice_from_app in H1.
    rewrite (number_loop_bad _ d (1 + len bs) (with_index l _) c rest)
      by (first [ exact Hmap | exact Hc | exact Hdig | exact Hterm | exact Hdot
                | unfold with_index; cbn [lexer0.input lexer0.pos];
                  rewrite <- Z.add_assoc in H1; exact H1 ]).
    reflexivity.
Qed.

(** ** The lexer with the one-result [Next]: words *)

(** Facts on a lexer whose cursor is on a t, an f or an n. *)
Ltac word0_facts l Hmap Hsl Hin :=
  let Hp := fresh "Hp" in let Hl := fresh "Hl" in
  destruct (slice_from_Some _ _ _ Hsl) as [Hp Hl];
  match type of Hsl with
  | slice_from _ _ = Some (?b0 :: ?tl) =>
    assert (Hlen0 : (len (lexer0.input l) =? 0) = false)
      by (apply Z.eqb_neq; rewrite Hl; unfold len; cbn [length]; lia);
    assert (Hlen : (len (lexer0.input l) <=? lexer0.pos l) = false)
      by (apply Z.leb_gt; rewrite Hl; unfold len; cbn [length]; lia);
    assert (Hr : byteZ b0 = 0x74 \/ byteZ b0 = 0x66 \/ byteZ b0 = 0x6E)
      by (first [ solve [left; reflexivity]
                | solve [right; left; reflexivity]
                | solve [right; right; reflexivity]
                | cbn [In] in Hin;
                  destruct Hin as [<- | [<- | [<- | []]]];
                  [left | right; left | right; right]; reflexivity ]);
    assert (Hd : DecodeRune (b0 :: tl) = (byteZ b0, 1))
      by (apply DecodeRune_ascii; lia);
    assert (Hk : lexer0.tokenMap l !! string_of_rune (byteZ b0) = None)
      by (rewrite (tokenMap_ascii l b0 Hmap) by lia;
          apply token_of_byte_None; cbn [In]; lia);
    assert (He : (byteZ b0 =? RuneError) = false)
      by (apply Z.eqb_neq; unfold RuneError; lia);
    assert (Hw : (byteZ b0 =? 0x74) || (byteZ b0 =? 0x66) || (byteZ b0 =? 0x6E)
                 = true)
      by (destruct Hr as [-> | [-> | ->]]; reflexivity)
  end.

(** X29: the one-result [Next] with a t, an f or an n under the cursor.
    With fewer than five bytes between the cursor and the capacity of the
    buffer it panics, also on a complete true or null that ends the buffer.
    With five bytes that spell none of the keywords it appends nothing,
    reports nothing, returns 1 and moves the cursor by one byte. *)
Theorem Next0_on_word (l : lexer0.Lexer) (b : byte) (rest : list byte) :
  has_tokenMap l ->
  slice_from (lexer0.input l) (lexer0.pos l) = Some (b :: rest) ->
  In b [x74; x66; x6e] ->
  (len (b :: rest) + len (lexer0.spare l) < 5 ->
   lexer0.Next l = Halt (Panic slice_bounds_out_of_range)) /\
  (forall w : list byte,
     slice_range (lexer0.input l) (lexer0.spare l) (lexer0.pos l)
                 (lexer0.pos l + 5) = Some w ->
     w <> bytes "false" -> take 4 w <> bytes "true" ->
     take 4 w <> bytes "null" ->
     lexer0.Next l
     = Ret 1 {| lexer0.input := lexer0.input l; lexer0.spare := lexer0.spare l;
                lexer0.tokens := lexer0.tokens l;
                lexer0.pos := lexer0.pos l + 1;
                lexer0.index := lexer0.index l;
                lexer0.line := lexer0.line l;
                lexer0.tokenMap := lexer0.tokenMap l |}).
Proof.
  intros Hmap Hsl Hin. word0_facts l Hmap Hsl Hin. split.
  - intros Hcap.
    assert (H5 : slice_range (lexer0.input l) (lexer0.spare l) (lexer0.pos l)
                             (lexer0.pos l + 5) = None)
      by (apply slice_range_outside; lia).
    destruct l as [i sp tk p0 ix ln tm]. l0_simpl.
    match goal with |- ?lhs = _ => destruct lhs as [z l'|h] eqn:H end;
      unfold lexer0.Next in H; run0 H; reflexivity.
  - intros w H5 Hf Ht Hn.
    pose proof (slice_range_shorter _ _ _ _ _ (lexer0.pos l + 4) H5
                  ltac:(lia)) as H4.
    replace (Z.to_nat (lexer0.pos l + 4 - lexer0.pos l)) with 4%nat in H4
      by lia.
    destruct l as [i sp tk p0 ix ln tm]. l0_simpl.
    match goal with |- ?lhs = _ => destruct lhs as [z l'|h] eqn:H end;
      unfold lexer0.Next in H; run0 H; try reflexivity; exfalso;
      repeat match goal with
             | E : (string_of_list_byte _ =? _)%string = true |- _ =>
               apply string_of_list_byte_eqb in E
             end;
      first [ apply Hf; assumption | apply Ht; assumption
            | apply Hn; assumption ].
Qed.

(** The five bytes read at the cursor when a four-byte word stands there. *)
Lemma word5_of_four (l : lexer0.Lexer) (a b c d : byte) (rest : list byte) :
  slice_from (lexer0.input l) (lexer0.pos l) = Some (a :: b :: c :: d :: rest) ->
  1 <= len rest + len (lexer0.spare l) ->
  slice_range (lexer0.input l) (lexer0.spare l) (lexer0.pos l)
              (lexer0.pos l + 5)
  = Some (a :: b :: c :: d :: take 1 (rest ++ lexer0.spare l)).
Proof.
  intros Hsl Hcap. destruct (slice_from_Some _ _ _ Hsl) as [Hp Hl].
  unfold len in Hl. cbn [length] in Hl.
  rewrite (slice_range_from _ _ _ _ _ Hsl) by (unfold len in *; lia).
  replace (Z.to_nat (lexer0.pos l + 5 - lexer0.pos l)) with 5%nat by lia.
  reflexivity.
Qed.

(** X28: the one-result [Next] on the keywords: false gives a [FALSE]
    token and the count 5; true and null give a [TRUE] and a [NULL] token
    and the count 4, provided the buffer has room for a fifth byte after
    the cursor (the first test slices five bytes); the literal is the
    keyword, and [index] grows by the count less one. *)
Theorem Next0_on_keyword (l : lexer0.Lexer) (rest : list byte) :
  has_tokenMap l ->
  (slice_from (lexer0.input l) (lexer0.pos l) = Some (bytes "false" ++ rest) ->
   lexer0.Next l
   = Ret 5 {| lexer0.input := lexer0.input l; lexer0.spare := lexer0.spare l;
              lexer0.tokens :=
                lexer0.tokens l
                ++ [ {| lexer0.Typ := lexer0.FALSE; lexer0.Literal := "false";
                        lexer0.Line := lexer0.line l;
                        lexer0.Pos := lexer0.pos l |} ];
              lexer0.pos := lexer0.pos l + 5;
              lexer0.index := lexer0.index l + 4;
              lexer0.line := lexer0.line l;
              lexer0.tokenMap := lexer0.tokenMap l |}) /\
  (slice_from (lexer0.input l) (lexer0.pos l) = Some (bytes "true" ++ rest) ->
   1 <= len rest + len (lexer0.spare l) ->
   lexer0.Next l
   = Ret 4 {| lexer0.input := lexer0.input l; lexer0.spare := lexer0.spare l;
              lexer0.tokens :=
                lexer0.tokens l
                ++ [ {| lexer0.Typ := lexer0.TRUE; lexer0.Literal := "true";
                        lexer0.Line := lexer0.line l;
                        lexer0.Pos := lexer0.pos l |} ];
              lexer0.pos := lexer0.pos l + 4;
              lexer0.index := lexer0.index l + 3;
              lexer0.line := lexer0.line l;
              lexer0.tokenMap := lexer0.tokenMap l |}) /\
  (slice_from (lexer0.input l) (lexer0.pos l) = Some (bytes "null" ++ rest) ->
   1 <= len rest + len (lexer0.spare l) ->
   lexer0.Next l
   = Ret 4 {| lexer0.input := lexer0.input l; lexer0.spare := lexer0.spare l;
              lexer0.tokens :=
                lexer0.tokens l
                ++ [ {| lexer0.Typ := lexer0.NULL; lexer0.Literal := "null";
                        lexer0.Line := lexer0.line l;
                        lexer0.Pos := lexer0.pos l |} ];
              lexer0.pos := lexer0.pos l + 4;
              lexer0.index := lexer0.index l + 3;
              lexer0.line := lexer0.line l;
              lexer0.tokenMap := lexer0.tokenMap l |}).
Proof.
  intros Hmap. repeat split.
  - intros Hsl.
    change (bytes "false" ++ rest) with (x66 :: [x61; x6c; x73; x65] ++ rest)
      in Hsl.
    assert (Hin : In x66 [x74; x66; x6e]) by (cbn [In]; auto).
    word0_facts l Hmap Hsl Hin.
    pose proof (slice_range_inside _ (lexer0.spare l) (bytes "false") _ _ Hsl)
      as H5.
    change (len (bytes "false")) with 5 in H5.
    destruct l as [i sp tk p0 ix ln tm]. l0_simpl.
    match goal with |- ?lhs = _ => destruct lhs as [z l'|h] eqn:H end;
      unfold lexer0.Next in H; run0 H; reflexivity.
  - intros Hsl Hcap.
    change (bytes "true" ++ rest) with (x74 :: [x72; x75; x65] ++ rest) in Hsl.
    assert (Hin : In x74 [x74; x66; x6e]) by (cbn [In]; auto).
    word0_facts l Hmap Hsl Hin.
    pose proof (word5_of_four l _ _ _ _ _ Hsl Hcap) as H5.
    pose proof (slice_range_inside _ (lexer0.spare l) (bytes "true") _ _ Hsl)
      as H4.
    change (len (bytes "true")) with 4 in H4.
    destruct l as [i sp tk p0 ix ln tm]. l0_simpl.
    match goal with |- ?lhs = _ => destruct lhs as [z l'|h] eqn:H end;
      unfold lexer0.Next in H; run0 H; try reflexivity;
      match goal with
      | E : (string_of_list_byte _ =? _)%string = true |- _ =>
        cbn in E; discriminate E
      end.
  - intros Hsl Hcap.
    change (bytes "null" ++ rest) with (x6e :: [x75; x6c; x6c] ++ rest) in Hsl.
    assert (Hin : In x6e [x74; x66; x6e]) by (cbn [In]; auto).
    word0_facts l Hmap Hsl Hin.
    pose proof (word5_of_four l _ _ _ _ _ Hsl Hcap) as H5.
    pose proof (slice_range_inside _ (lexer0.spare l) (bytes "null") _ _ Hsl)
      as H4.
    change (len (bytes "null")) with 4 in H4.
    destruct l as [i sp tk p0 ix ln tm]. l0_simpl.
    match goal with |- ?lhs = _ => destruct lhs as [z l'|h] eqn:H end;
      unfold lexer0.Next in H; run0 H; try reflexivity;
      match goal with
      | E : (string_of_list_byte _ =? _)%string = true |- _ =>
        cbn in E; discriminate E
      end.
Qed.

(** ** The lexer with the one-result [Next]: the index into the log *)

(** [Next] on one of the six structure runes: one token, whose literal is
    the rune; the index into the log stays where it is. *)
Lemma Next0_on_structure (l : lexer0.Lexer) (b : byte) (rest : list byte) :
  has_tokenMap l ->
  slice_from (lexer0.input l) (lexer0.pos l) = Some (b :: rest) ->
  In b [x7b; x7d; x5b; x5d; x2c; x3a] ->
  exists t,
    lexer0.tokenMap l !! lexer0.chr b = Some t /\
    lexer0.Next l
    = Ret 1 {| lexer0.input := lexer0.input l; lexer0.spare := lexer0.spare l;
               lexer0.tokens :=
                 lexer0.tokens l
                 ++ [ {| lexer0.Typ := t; lexer0.Literal := lexer0.chr b;
                         lexer0.Line := lexer0.line l;
                         lexer0.Pos := lexer0.pos l |} ];
               lexer0.pos := lexer0.pos l + 1;
               lexer0.index := lexer0.index l;
               lexer0.line := lexer0.line l;
               lexer0.tokenMap := lexer0.tokenMap l |}.
Proof.
  intros Hmap Hsl Hin. destruct (slice_from_Some _ _ _ Hsl) as [Hp Hl].
  assert (Hlen0 : (len (lexer0.input l) =? 0) = false)
    by (apply Z.eqb_neq; rewrite Hl; unfold len; cbn [length]; lia).
  assert (Hlen : (len (lexer0.input l) <=? lexer0.pos l) = false)
    by (apply Z.leb_gt; rewrite Hl; unfold len; cbn [length]; lia).
  assert (Hlt : byteZ b < 0x80)
    by (cbn [In] in Hin;
        destruct Hin as [<- | [<- | [<- | [<- | [<- | [<- | []]]]]]];
        reflexivity).
  pose proof (tokenMap_ascii l b Hmap Hlt) as Hk.
  pose proof (tokenMap_chr l b Hmap) as Hc.
  pose proof (string_of_rune_ascii b Hlt) as Hs.
  pose proof (DecodeRune_ascii b rest Hlt) as Hd.
  destruct l as [i sp tk p0 ix ln tm]. l0_simpl.
  cbn [In] in Hin.
  destruct Hin as [<- | [<- | [<- | [<- | [<- | [<- | []]]]]]];
    cbn [token_of_byte] in Hk, Hc;
    (eexists; split; [exact Hc|]);
    (match goal with |- ?lhs = _ => destruct lhs as [z l'|h] eqn:H end;
     unfold lexer0.Next, lexer0.lexToken in H; run0 H; rewrite ?Hs;
     reflexivity).
Qed.

Lemma NextN0_structures (n : nat) :
  forall (l : lexer0.Lexer) (bs : list byte),
    has_tokenMap l ->
    slice_from (lexer0.input l) (lexer0.pos l) = Some bs ->
    Forall (fun b => In b [x7b; x7d; x5b; x5d; x2c; x3a]) bs ->
    (n <= length bs)%nat ->
    exists l' new,
      NextN0 n l = Ret (repeat 1 n) l' /\
      lexer0.tokens l' = lexer0.tokens l ++ new /\ length new = n /\
      lexer0.index l' = lexer0.index l /\
      lexer0.pos l' = lexer0.pos l + Z.of_nat n /\
      lexer0.tokenMap l' = lexer0.tokenMap l.
Proof.
  induction n as [|n IH]; intros l bs Hmap Hsl Hall Hn.
  - exists l, []. cbn [NextN0 repeat length Z.of_nat]. unfold ret.
    rewrite app_nil_r, Z.add_0_r. repeat split.
  - destruct bs as [|b bs]; [cbn [length] in Hn; lia|].
    inversion Hall as [|? ? Hb Hall']; subst.
    destruct (Next0_on_structure l b bs Hmap Hsl Hb) as (t & _ & HN).
    set (l1 := {| lexer0.input := lexer0.input l;
                  lexer0.spare := lexer0.spare l;
                  lexer0.tokens :=
                    lexer0.tokens l
                    ++ [ {| lexer0.Typ := t; lexer0.Literal := lexer0.chr b;
                            lexer0.Line := lexer0.line l;
                            lexer0.Pos := lexer0.pos l |} ];
                  lexer0.pos := lexer0.pos l + 1;
                  lexer0.index := lexer0.index l;
                  lexer0.line := lexer0.line l;
                  lexer0.tokenMap := lexer0.tokenMap l |}) in *.
    destruct (IH l1 bs) as (l' & new & HNN & Htk & Hlen & Hix & Hpos & Hln).
    + exact Hmap.
    + exact (slice_from_step _ _ _ _ Hsl).
    + exact Hall'.
    + cbn [length] in Hn. lia.
    + exists l', ({| lexer0.Typ := t; lexer0.Literal := lexer0.chr b;
                     lexer0.Line := lexer0.line l;
                     lexer0.Pos := lexer0.pos l |} :: new).
      cbn [NextN0 repeat]. unfold bind at 1. rewrite HN.
      unfold bind at 1. rewrite HNN. unfold ret.
      subst l1. l0_simpl. rewrite Htk, <- app_assoc. cbn [app length].
      repeat split; try assumption; lia.
Qed.

Lemma NextN0_first_token (l : lexer0.Lexer) (b0 : byte) (bs : list byte)
      (n : nat) :
  has_tokenMap l ->
  lexer0.tokens l = [] -> lexer0.index l = 0 ->
  slice_from (lexer0.input l) (lexer0.pos l) = Some (b0 :: bs) ->
  Forall (fun b => In b [x7b; x7d; x5b; x5d; x2c; x3a]) (b0 :: bs) ->
  (1 <= n <= length (b0 :: bs))%nat ->
  exists l' t,
    NextN0 n l = Ret (repeat 1 n) l' /\
    length (lexer0.tokens l') = n /\
    lexer0.pos l' = lexer0.pos l + Z.of_nat n /\
    lexer0.Token_ l' = Some t /\
    lexer0.Literal t = lexer0.chr b0 /\ lexer0.Pos t = lexer0.pos l /\
    lexer0.tokenMap l' !! lexer0.chr b0 = Some (lexer0.Typ t).
Proof.
  intros Hmap Htk0 Hix0 Hsl Hall [Hn1 Hn2].
  destruct n as [|n]; [lia|].
  inversion Hall as [|? ? Hb Hall']; subst.
  destruct (Next0_on_structure l b0 bs Hmap Hsl Hb) as (t & Ht & HN).
  match type of HN with _ = Ret _ ?L => set (l1 := L) in * end.
  destruct (NextN0_structures n l1 bs)
    as (l' & new & HNN & Htk & Hlen & Hix & Hpos & Hmp).
  - exact Hmap.
  - exact (slice_from_step _ _ _ _ Hsl).
  - exact Hall'.
  - cbn [length] in Hn2. lia.
  - exists l', {| lexer0.Typ := t; lexer0.Literal := lexer0.chr b0;
                  lexer0.Line := lexer0.line l; lexer0.Pos := lexer0.pos l |}.
    cbn [NextN0 repeat]. unfold bind at 1. rewrite HN.
    unfold bind at 1. rewrite HNN. unfold ret.
    subst l1. l0_simpl. rewrite Htk0 in Htk. cbn [app] in Htk.
    repeat split.
    + rewrite Htk. cbn [length]. lia.
    + lia.
    + unfold lexer0.Token_. rewrite Hix, Hix0, Htk. reflexivity.
    + rewrite Hmp. exact Ht.
Qed.

(** X30: [Token] of the one-result lexer reads the log at [index], which
    a structure token does not advance: after any number of calls of [Next]
    (one at least) over a buffer of structure runes, each of which returned
    1 and appended a token, [Token] is still the token of the first rune. *)
Theorem Token0_stays_on_first_token (b0 : byte) (bs extra : list byte)
        (n : nat) :
  Forall (fun b => In b [x7b; x7d; x5b; x5d; x2c; x3a]) (b0 :: bs) ->
  (1 <= n <= length (b0 :: bs))%nat ->
  exists l t,
    NextN0 n (lexer0.NewLexer (b0 :: bs) extra) = Ret (repeat 1 n) l /\
    length (lexer0.tokens l) = n /\
    lexer0.pos l = Z.of_nat n /\
    lexer0.Token_ l = Some t /\
    lexer0.Literal t = lexer0.chr b0 /\ lexer0.Pos t = 0 /\
    lexer0.tokenMap l !! lexer0.chr b0 = Some (lexer0.Typ t).
Proof.
  intros Hall Hn.
  exact (NextN0_first_token (lexer0.NewLexer (b0 :: bs) extra) b0 bs n
           eq_refl eq_refl eq_refl eq_refl Hall Hn).
Qed.

(** ** parser.go over the lexer with the one-result [Next] *)

(** The loop of a string keeps the buffer and the cursor, and moves its
    own position forward only. *)
Lemma string_loop_spec (fuel : nat) :
  forall (size p p' : Z) (l l' : lexer0.Lexer),
    lexer0.string_loop fuel size p l = Ret p' l' ->
    lexer0.input l' = lexer0.input l /\ lexer0.pos l' = lexer0.pos l /\
    p <= p'.
Proof.
  induction fuel as [|fuel IH]; intros size p p' l l' H;
    cbn [lexer0.string_loop] in H.
  - run0 H.
  - destruct l as [i sp tk p0 ix ln tm]. run0 H;
      try (apply IH in H; destruct H as (Hi & Hp & Hle); l0_simpl);
      l0_simpl; repeat split; try assumption; try reflexivity; try lia;
      match goal with
      | D : DecodeRune ?s = _ |- _ =>
        pose proof (DecodeRune_width s) as Hw; rewrite D in Hw;
        cbn [snd] in Hw; lia
      end.
Qed.

Lemma number_loop_spec (fuel : nat) :
  forall (dec : bool) (size s' : Z) (l l' : lexer0.Lexer),
    lexer0.number_loop fuel dec size l = Ret s' l' ->
    lexer0.input l' = lexer0.input l /\ lexer0.pos l' = lexer0.pos l /\
    size <= s'.
Proof.
  induction fuel as [|fuel IH]; intros dec size s' l l' H;
    cbn [lexer0.number_loop] in H.
  - run0 H.
  - destruct l as [i sp tk p0 ix ln tm]. run0 H;
      try (apply IH in H; destruct H as (Hi & Hp & Hle); l0_simpl);
      l0_simpl; repeat split; try assumption; try reflexivity; try lia;
      match goal with
      | D : DecodeRune ?s = _ |- _ =>
        pose proof (DecodeRune_width s) as Hw; rewrite D in Hw;
        cbn [snd] in Hw; lia
      end.
Qed.

Lemma lexToken_spec (token r size n : Z) (l l' : lexer0.Lexer) :
  0 <= size ->
  lexer0.lexToken token r size l = Ret n l' ->
  lexer0.input l' = lexer0.input l /\ lexer0.pos l' = lexer0.pos l /\
  size <= n.
Proof.
  intros Hs H. unfold lexer0.lexToken in H.
  destruct l as [i sp tk p0 ix ln tm]. run0 H; l0_simpl;
    try (repeat split; try reflexivity; lia).
  match goal with
  | E : lexer0.string_loop _ _ _ _ = Ret _ _ |- _ =>
    apply string_loop_spec in E; destruct E as (Hi & Hp & Hle)
  end.
  l0_simpl. repeat split; try assumption; lia.
Qed.

(** What a call of the one-result [Next] that returns has done: it kept
    the buffer and moved the cursor by the count, which is 0 at the end of
    the buffer only. *)
Lemma Next0_spec (l l' : lexer0.Lexer) (n : Z) :
  lexer0.Next l = Ret n l' ->
  lexer0.input l' = lexer0.input l /\
  lexer0.pos l' = lexer0.pos l + n /\
  ((len (lexer0.input l) = 0 \/ len (lexer0.input l) <= lexer0.pos l) /\ n = 0
   \/ lexer0.pos l < len (lexer0.input l) /\ 1 <= n).
Proof.
  intros H. unfold lexer0.Next in H.
  destruct l as [i sp tk p0 ix ln tm]. run0 H; l0_simpl; eqb_lia;
    try (split; [reflexivity|]; split; [lia|]; left;
         split; [first [left; lia | right; lia] | reflexivity]; fail);
    match goal with
    | S : slice_from _ _ = Some ?s, D : DecodeRune ?s = _ |- _ =>
      destruct (slice_from_nonempty _ _ _ S) as (b & tl & ->); [lia|];
      pose proof (DecodeRune_nonempty b tl) as Hw; rewrite D in Hw;
      cbn [snd] in Hw
    end;
    repeat match goal with
           | E : lexer0.lexToken _ _ _ _ = Ret _ _ |- _ =>
             apply lexToken_spec in E; [|lia];
             destruct E as (Hi & Hp & Hle); l0_simpl
           | E : lexer0.number_loop _ _ _ _ = Ret _ _ |- _ =>
             apply number_loop_spec in E;
             destruct E as (Hi & Hp & Hle); l0_simpl
           end;
    repeat split; try assumption; try reflexivity; try lia;
    right; lia.
Qed.

(** At the end of the buffer the one-result [Next] returns 0, and leaves
    buffer and cursor as they are. *)
Lemma Next0_at_end (l : lexer0.Lexer) :
  len (lexer0.input l) = 0 \/ len (lexer0.input l) <= lexer0.pos l ->
  exists l', lexer0.Next l = Ret 0 l' /\
             lexer0.input l' = lexer0.input l /\
             lexer0.pos l' = lexer0.pos l.
Proof.
  intros Hend. destruct l as [i sp tk p0 ix ln tm]. l0_simpl.
  unfold lexer0.Next. autounfold with go0. cbn beta iota.
  cbn [lexer0.input lexer0.pos].
  destruct (len i =? 0) eqn:E0.
  - eexists. split; [reflexivity|]. split; reflexivity.
  - destruct Hend as [Hend | Hend]; [apply Z.eqb_neq in E0; lia|].
    replace (len i <=? p0) with true by (symmetry; apply Z.leb_le; lia).
    eexists. split; [reflexivity|]. cbn [lexer0.input lexer0.pos].
    split; [reflexivity | lia].
Qed.

Ltac plain_now := split; exact I.

(** From a round of a loop that went on: the rune it decoded is a byte
    wide at least. *)
Ltac rune_width :=
  match goal with
  | S : slice_from _ _ = Some ?s, D : DecodeRune ?s = _,
    E : (_ =? RuneError) = false |- _ =>
    destruct s as [|b tl];
    [ cbn in D; injection D as <- <-; discriminate E
    | pose proof (DecodeRune_nonempty b tl) as Hw; rewrite D in Hw;
      cbn [snd] in Hw;
      apply slice_from_Some in S; destruct S as [Hp Hl];
      unfold len in Hl; cbn [length] in Hl ]
  end.

(** The loops end within the rounds they are given: a round that goes on
    moves past a rune of the buffer. *)
Lemma string_loop_real (fuel : nat) :
  forall (size p : Z) (l : lexer0.Lexer) (h : halt),
    Z.max 0 (len (lexer0.input l) - p) < Z.of_nat fuel ->
    lexer0.string_loop fuel size p l = Halt h -> plain_halt h.
Proof.
  induction fuel as [|fuel IH]; intros size p l h Hm H; [lia|].
  cbn [lexer0.string_loop] in H. destruct l as [i sp tk p0 ix ln tm].
  cbn [lexer0.input] in Hm.
  run0 H; try plain_now;
    (eapply IH; [|exact H]); cbn [lexer0.input];
    rune_width; unfold len in *; lia.
Qed.

Lemma number_loop_real (fuel : nat) :
  forall (dec : bool) (size : Z) (l : lexer0.Lexer) (h : halt),
    Z.max 0 (len (lexer0.input l) - (lexer0.pos l + size)) < Z.of_nat fuel ->
    lexer0.number_loop fuel dec size l = Halt h -> plain_halt h.
Proof.
  induction fuel as [|fuel IH]; intros dec size l h Hm H; [lia|].
  cbn [lexer0.number_loop] in H. destruct l as [i sp tk p0 ix ln tm].
  cbn [lexer0.input lexer0.pos] in Hm.
  run0 H; try plain_now;
    (eapply IH; [|exact H]); cbn [lexer0.input lexer0.pos];
    rune_width; unfold len in *; lia.
Qed.

(** The one-result [Next] never stops for lack of rounds, and never in the
    duplicate-key failure. *)
Lemma Next0_real (l : lexer0.Lexer) (h : halt) :
  lexer0.Next l = Halt h -> plain_halt h.
Proof.
  intros H. unfold lexer0.Next, lexer0.lexToken, lexer0.rounds in H.
  destruct l as [i sp tk p0 ix ln tm]. cbn [lexer0.input] in H.
  run0 H; try plain_now.
  - eapply string_loop_real; [|eassumption]. cbn [lexer0.input].
    rune_width. unfold len in *. lia.
  - eapply number_loop_real; [|eassumption]. cbn [lexer0.input lexer0.pos].
    rune_width. unfold len in *. lia.
Qed.

(** The first loop of [Parse] ends within a round more than the bytes
    left, at the end of the buffer. *)
Lemma Parse_drain_spec (fuel : nat) :
  forall l : lexer0.Lexer,
    Z.max 0 (len (lexer0.input l) - lexer0.pos l) < Z.of_nat fuel ->
    match parser0.Parse_drain fuel l with
    | Ret _ l' =>
      len (lexer0.input l') = 0 \/ len (lexer0.input l') <= lexer0.pos l'
    | Halt h => plain_halt h
    end.
Proof.
  induction fuel as [|fuel IH]; intros l Hm; [lia|].
  cbn [parser0.Parse_drain]. unfold bind at 1.
  destruct (lexer0.Next l) as [n l1|h] eqn:E.
  - destruct (Next0_spec _ _ _ E) as (Hi & Hp & [[Hend ->] | [Hin Hn]]).
    + cbn. rewrite Hi, Hp. lia.
    + replace (negb (n =? 0)) with true
        by (symmetry; apply negb_true_iff; apply Z.eqb_neq; lia).
      apply IH. rewrite Hi, Hp. lia.
  - eapply Next0_real. exact E.
Qed.

(** X18: whatever the input and whatever the call of [CreateObject] would
    do, [Parse] ends, without the duplicate-key failure, and the document
    it returns when it does not halt has no element and no index: the
    first loop runs the lexer to the end of the buffer, where [Next]
    returns 0, so the first call of the second loop returns 0 as well and
    the loop that builds the document is never entered. *)
Theorem Parse_builds_nothing (CreateObject : M parser0.World element)
        (buf extra : list byte) :
  (exists w, parser0.Parse CreateObject (parser0.NewParser buf extra)
             = Ret {| index := None; elements := [] |} w) \/
  (exists h, parser0.Parse CreateObject (parser0.NewParser buf extra) = Halt h /\
             halts_for_real h /\ not_duplicate_key h).
Proof.
  pose proof (Parse_drain_spec (S (length buf)) (lexer0.NewLexer buf extra))
    as Hd.
  unfold parser0.Parse, parser0.NewParser, lexer0.rounds.
  autounfold with go0. cbn beta iota zeta.
  cbn [parser0.this parser0.lexer parser0.heap lexer0.input lexer0.NewLexer].
  cbn [lexer0.input lexer0.pos lexer0.NewLexer] in Hd.
  destruct (parser0.Parse_drain (S (length buf)) (lexer0.NewLexer buf extra))
    as [[] l'|h] eqn:E.
  - left. destruct (Next0_at_end l') as (l'' & HN & _).
    { apply Hd. unfold len. lia. }
    cbn [parser0.Parse_build]. autounfold with go0. cbn beta iota.
    cbn [parser0.this parser0.lexer parser0.heap]. rewrite HN.
    cbn beta iota. eexists. reflexivity.
  - right. exists h. split; [reflexivity|]. apply Hd. unfold len. lia.
Qed.

(** The inputs of the specification through [Parse]: the example gives an
    empty document, the two others end in [log.Fatalf] at the byte after a
    number that no blank, line feed or comma follows. *)
Example Parse_on_example_input (CreateObject : M parser0.World element) :
  (exists w, parser0.Parse CreateObject (parser0.NewParser example_input [])
             = Ret {| index := None; elements := [] |} w) /\
  (exists w, parser0.Parse CreateObject (parser0.NewParser main_input [])
             = Ret {| index := None; elements := [] |} w).
Proof. split; eexists; vm_compute; reflexivity. Qed.

Example Parse_on_duplicate_input (CreateObject : M parser0.World element) :
  parser0.Parse CreateObject (parser0.NewParser duplicate_input [])
  = Halt (Fatalf (Fatal_unexpected_token 0x7D 1 11)).
Proof. vm_compute. reflexivity. Qed.

Example Parse_on_malformed_input (CreateObject : M parser0.World element) :
  parser0.Parse CreateObject (parser0.NewParser malformed_input [])
  = Halt (Fatalf (Fatal_unexpected_token 0x2E 1 6)).
Proof. vm_compute. reflexivity. Qed.

(** ** The further properties at concrete inputs *)

Lemma Next_count_is_cursor_move_witness :
  let l := NewLexer (bytes "{}") [] in
  let l' := {| input := bytes "{}"; spare := [];
               tokens := [ {| Typ := LBRACE; Literal := "LBRACE"; Line := 1;
                              Col := 0; Pos := 0 |} ];
               line := 1; col := 1; pos := 1 |} in
  Next l = Ret (1, None) l' /\
  input l' = input l /\ spare l' = spare l /\ pos l' = pos l + 1 /\
  (1 = 0 <-> @None error <> None \/ len (input l) <= pos l).
Proof.
  intros l l'.
  assert (H : Next l = Ret (1, None) l') by (vm_compute; reflexivity).
  split; [exact H|].
  exact (Next_count_is_cursor_move l l' 1 None H).
Defined.

Lemma Next_error_leaves_lexer_witness :
  let l := NewLexer (bytes "12") [] in
  let l' := {| input := bytes "12"; spare := []; tokens := [];
               line := 1; col := 1; pos := 0 |} in
  Next l = Ret (0, Some (unexpected_EOF 1 1)) l' /\
  0 = 0 /\
  l' = {| input := input l; spare := spare l; tokens := tokens l;
          line := line l; col := col l'; pos := pos l |} /\
  col l <= col l'.
Proof.
  intros l l'.
  assert (H : Next l = Ret (0, Some (unexpected_EOF 1 1)) l')
    by (vm_compute; reflexivity).
  split; [exact H|].
  exact (Next_error_leaves_lexer l l' 0 (unexpected_EOF 1 1) H).
Defined.

Lemma Next_on_structure_witness :
  Next (NewLexer (bytes ":") [])
  = Ret (1, None)
        {| input := bytes ":"; spare := [];
           tokens := [ {| Typ := COLON; Literal := "COLON"; Line := 1;
                          Col := 0; Pos := 0 |} ];
           line := 1; col := 1; pos := 1 |}.
Proof.
  exact (Next_on_structure (NewLexer (bytes ":") []) x3a COLON eq_refl eq_refl).
Defined.

Lemma Next_on_newline_witness :
  Next (NewLexer [x0a] [])
  = Ret (1, None)
        {| input := [x0a]; spare := [];
           tokens := [ {| Typ := NEWLINE; Literal := "NEWLINE"; Line := 2;
                          Col := 0; Pos := 0 |} ];
           line := 2; col := 0; pos := 1 |}.
Proof.
  exact (Next_on_newline (NewLexer [x0a] []) eq_refl).
Defined.

Lemma Next_on_whitespace_witness :
  Next (NewLexer [x09] [])
  = Ret (1, None)
        {| input := [x09]; spare := [];
           tokens := [ {| Typ := WHITESPACE; Literal := "WHITESPACE";
                          Line := 1; Col := 0; Pos := 0 |} ];
           line := 1; col := 4; pos := 1 |}.
Proof.
  exact (Next_on_whitespace (NewLexer [x09] []) x09 eq_refl
           (or_intror (or_introl eq_refl))).
Defined.

(** The three bytes EF BF BD are the encoding of U+FFFD. *)
Lemma Next_on_RuneError_is_fatal_witness :
  DecodeRune [xef; xbf; xbd] = (RuneError, 3) /\
  Next (NewLexer [xef; xbf; xbd] [])
  = Halt (Fatalf (Fatal_invalid_utf8 1 0)).
Proof.
  split; [reflexivity|].
  exact (Next_on_RuneError_is_fatal (NewLexer [xef; xbf; xbd] []) xef
           [xbf; xbd] eq_refl eq_refl).
Defined.

Lemma Next_on_other_byte_witness :
  Next (NewLexer (bytes "a") [])
  = Ret (0, Some (unexpected_rune 0x61 1 0)) (NewLexer (bytes "a") []).
Proof.
  apply (Next_on_other_byte (NewLexer (bytes "a") []) x61).
  - reflexivity.
  - vm_compute. reflexivity.
  - reflexivity.
  - vm_compute. intuition discriminate.
  - vm_compute. intros [_ H]. apply H. reflexivity.
Defined.

Lemma Next_on_true_and_false_witness :
  Next (NewLexer (bytes "true}") [])
  = Ret (4, None)
        {| input := bytes "true}"; spare := [];
           tokens := [ {| Typ := TRUE; Literal := "true"; Line := 1;
                          Col := 0; Pos := 0 |} ];
           line := 1; col := 3; pos := 4 |}.
Proof.
  exact (proj1 (Next_on_true_and_false (NewLexer (bytes "true}") [])
                  (bytes "}")) eq_refl).
Defined.

Lemma Next_on_unknown_word_witness :
  Next (NewLexer (bytes "trux") [])
  = Ret (0, Some (unexpected_identifier 1 0)) (NewLexer (bytes "trux") []).
Proof.
  apply (Next_on_unknown_word (NewLexer (bytes "trux") [])
           x74 x72 x75 x78 []).
  - reflexivity.
  - left. reflexivity.
  - discriminate.
  - discriminate.
  - discriminate.
Defined.

Lemma Next_on_short_word_panics_witness :
  Next (NewLexer (bytes "tru") []) = Halt (Panic slice_bounds_out_of_range).
Proof.
  apply (Next_on_short_word_panics (NewLexer (bytes "tru") []) x74
           [x72; x75]).
  - reflexivity.
  - left. reflexivity.
  - vm_compute. reflexivity.
Defined.

Lemma Next_on_null_reads_spare_witness :
  exists l',
    Next (NewLexer (bytes "nul") (bytes "l")) = Ret (4, None) l' /\
    Token_ l' = Some {| Typ := TRUE; Literal := "null"; Line := 1; Col := 0;
                        Pos := 0 |} /\
    pos l' = 4 /\ len (bytes "nul") < 0 + 4.
Proof.
  destruct (Next_on_null_reads_spare (NewLexer (bytes "nul") (bytes "l"))
              (bytes "nul") (bytes "l") [] eq_refl ltac:(discriminate)
              eq_refl eq_refl) as [HN Hl].
  eexists. split; [exact HN|]. split; [reflexivity|]. split; [reflexivity|].
  apply Hl. discriminate.
Defined.

Lemma Next_on_number_comma_witness :
  Next (NewLexer (bytes "-1.5,2") [])
  = Ret (5, None)
        {| input := bytes "-1.5,2"; spare := []; tokens := [];
           line := 1; col := 3; pos := 5 |}.
Proof.
  exact (Next_on_number_comma (NewLexer (bytes "-1.5,2") []) x2d
           (bytes "1.5") (bytes "2") true eq_refl (or_introl eq_refl)
           eq_refl).
Defined.

Lemma Next_on_number_at_end_witness :
  Next (NewLexer (bytes "12") [])
  = Ret (0, Some (unexpected_EOF 1 1))
        {| input := bytes "12"; spare := []; tokens := [];
           line := 1; col := 1; pos := 0 |}.
Proof.
  assert (Hd : 0x30 <= byteZ x31 <= 0x39) by (vm_compute; split; discriminate).
  exact (Next_on_number_at_end (NewLexer (bytes "12") []) x31 (bytes "2")
           false eq_refl (or_intror Hd) eq_refl).
Defined.

(** The second '.' of 1.2.3, and the closing brace after 10000. *)
Lemma Next_on_number_bad_byte_witness :
  Next (NewLexer (bytes "1.2.3,") [])
  = Halt (Fatalf (Fatal_unexpected_lexer 0x2E 1 0)) /\
  Next (NewLexer (bytes "10000}") [])
  = Halt (Fatalf (Fatal_unexpected_lexer 0x7D 1 0)).
Proof.
  assert (Hd : 0x30 <= byteZ x31 <= 0x39) by (vm_compute; split; discriminate).
  split.
  - apply (Next_on_number_bad_byte (NewLexer (bytes "1.2.3,") []) x31 x2e
             (bytes ".2") (bytes "3,") true eq_refl (or_intror Hd) eq_refl).
    + vm_compute. reflexivity.
    + vm_compute. intros [H _]. apply H. reflexivity.
    + vm_compute. discriminate.
    + reflexivity.
  - apply (Next_on_number_bad_byte (NewLexer (bytes "10000}") []) x31 x7d
             (bytes "0000") [] false eq_refl (or_intror Hd) eq_refl).
    + vm_compute. reflexivity.
    + vm_compute. intros [_ H]. apply H. reflexivity.
    + vm_compute. discriminate.
    + vm_compute. discriminate.
Defined.

Lemma log_is_ordered_witness :
  exists rs l,
    NextN 4 (NewLexer three_lines []) = Ret rs l /\
    length (tokens l) = 4%nat /\ well_formed l.
Proof.
  eexists _, _.
  assert (H : NextN 4 (NewLexer three_lines []) = Ret _ _)
    by (vm_compute; reflexivity).
  split; [exact H|]. split; [reflexivity|].
  exact (log_is_ordered three_lines [] 4 _ _ H).
Defined.

Lemma Next_depends_on_buffer_and_cursor_witness :
  same_cursor (NewLexer (bytes "{}") [])
              {| input := bytes "{}"; spare := []; tokens := [];
                 line := 5; col := 7; pos := 0 |} /\
  agree (Next (NewLexer (bytes "{}") []))
        (Next {| input := bytes "{}"; spare := []; tokens := [];
                 line := 5; col := 7; pos := 0 |}).
Proof.
  assert (Hs : same_cursor (NewLexer (bytes "{}") [])
                 {| input := bytes "{}"; spare := []; tokens := [];
                    line := 5; col := 7; pos := 0 |})
    by (repeat split).
  split; [exact Hs|].
  exact (Next_depends_on_buffer_and_cursor _ _ Hs).
Defined.

Lemma CreateObject_returns_empty_object_witness :
  exists e w',
    CreateObject 2 {| this := {| lexer := after_brace (bytes "}") |};
                      heap := ∅ |} = Ret e w' /\
    e = Some 0%nat /\
    heap w' = <[ 0%nat := Object {| o_parent := None; m := Some ∅ |} ]> ∅.
Proof.
  eexists _, _. split; [vm_compute; reflexivity|].
  destruct (CreateObject_returns_empty_object 2
              {| this := {| lexer := after_brace (bytes "}") |}; heap := ∅ |}
              _ _ eq_refl) as (p & Hp & _ & Hh & _).
  split; [reflexivity|]. injection Hp as <-. exact Hh.
Defined.

Lemma CreateObject_at_end_is_fatal_witness :
  CreateObject_loop 1 (after_brace [])
  = Halt (Fatalf (Fatal_object_EOF 2 1)).
Proof.
  apply (CreateObject_at_end_is_fatal 0 (after_brace [])
           {| Typ := LBRACE; Literal := "LBRACE"; Line := 1; Col := 0;
              Pos := 0 |}).
  - reflexivity.
  - discriminate.
  - vm_compute. discriminate.
Defined.

Lemma CreateObject_never_returns_witness :
  Next (after_brace (quoted "a" ++ bytes ":1}"))
  = Ret (0, Some (unexpected_EOF 1 1)) (after_brace (quoted "a" ++ bytes ":1}"))
  /\ forall fuel : nat,
       CreateObject_loop fuel (after_brace (quoted "a" ++ bytes ":1}"))
       = Halt Diverges.
Proof.
  assert (HN : Next (after_brace (quoted "a" ++ bytes ":1}"))
               = Ret (0, Some (unexpected_EOF 1 1))
                     (after_brace (quoted "a" ++ bytes ":1}")))
    by (vm_compute; reflexivity).
  split; [exact HN|].
  apply (CreateObject_never_returns _
           {| Typ := LBRACE; Literal := "LBRACE"; Line := 1; Col := 0;
              Pos := 0 |} _ HN); [reflexivity | discriminate ..].
Defined.

(** An object at address 0, a value at 1 inside it, a value at 2 whose
    parent is the value at 1. *)
Lemma AddElement_through_values_witness :
  let tok := {| Typ := TRUE; Literal := "true"; Line := 1; Col := 0;
                Pos := 0 |} in
  let h : gmap nat node :=
    <[ 2%nat := Value {| v_parent := Some 1%nat; t := tok |} ]>
    (<[ 1%nat := Value {| v_parent := Some 0%nat; t := tok |} ]>
     (<[ 0%nat := Object {| o_parent := None; m := Some ∅ |} ]> ∅)) in
  let w := {| this := {| lexer := NewLexer [] [] |}; heap := h |} in
  reaches h 2 (Some 2%nat) (Some 0%nat) /\
  AddElement 2 (Some 2%nat) "k" None w = AddElement 0 (Some 0%nat) "k" None w.
Proof.
  intros tok h w.
  assert (Hr : reaches h 2 (Some 2%nat) (Some 0%nat)).
  { cbn [reaches]. eexists _, _. split; [reflexivity|]. split; [reflexivity|].
    eexists _, _. split; [reflexivity|]. split; [reflexivity|]. reflexivity. }
  split; [exact Hr|].
  apply (proj1 (AddElement_through_values w 2 (Some 2%nat) (Some 0%nat) "k"
                  None Hr)).
  - exists 0%nat. split; [reflexivity|]. left. eexists. reflexivity.
  - lia.
Defined.

Lemma AddElement_array_appends_witness :
  let w := {| this := {| lexer := NewLexer [] [] |};
              heap := {[ 0%nat := Array {| a_parent := None; e := [] |} ]} |} in
  exists w1 w2,
    AddElement 0 (Some 0%nat) "k" (Some 7%nat) w = Ret tt w1 /\
    AddElement 0 (Some 0%nat) "k" (Some 8%nat) w1 = Ret tt w2 /\
    heap w2 = <[ 0%nat := Array {| a_parent := None;
                                   e := [] ++ [Some 7%nat; Some 8%nat] |} ]>
              (heap w) /\
    this w2 = this w.
Proof.
  intros w.
  exact (AddElement_array_appends w 0 {| a_parent := None; e := [] |}
           "k" "k" (Some 7%nat) (Some 8%nat) 0 0 eq_refl).
Defined.

(** The bytes quote, a, backslash, quote, b, quote: the string ends at the
    quote that follows the backslash. *)
Lemma Next0_on_string_witness :
  lexer0.Next (lexer0.NewLexer [x22; x61; x5c; x22; x62; x22] [])
  = Ret 4
        {| lexer0.input := [x22; x61; x5c; x22; x62; x22]; lexer0.spare := [];
           lexer0.tokens :=
             [ {| lexer0.Typ := lexer0.QUOTE; lexer0.Literal := lexer0.chr x22;
                  lexer0.Line := 1; lexer0.Pos := 0 |};
               {| lexer0.Typ := lexer0.STRING;
                  lexer0.Literal := string_of_list_byte [x61; x5c];
                  lexer0.Line := 1; lexer0.Pos := 0 |};
               {| lexer0.Typ := lexer0.QUOTE; lexer0.Literal := lexer0.chr x22;
                  lexer0.Line := 1; lexer0.Pos := 0 |} ];
           lexer0.pos := 4; lexer0.index := 0; lexer0.line := 1;
           lexer0.tokenMap := lexer0.tokenMap (lexer0.NewLexer [] []) |}.
Proof.
  apply (Next0_on_string (lexer0.NewLexer [x22; x61; x5c; x22; x62; x22] [])
           [x61; x5c] [x62; x22]).
  - reflexivity.
  - reflexivity.
  - repeat constructor; discriminate.
Defined.

Lemma Next0_on_number_witness :
  lexer0.Next (lexer0.NewLexer (bytes "-1.5, 2") [])
  = Ret 4
        {| lexer0.input := bytes "-1.5, 2"; lexer0.spare := [];
           lexer0.tokens :=
             [ {| lexer0.Typ := lexer0.NUMBER; lexer0.Literal := "-1.5";
                  lexer0.Line := 1; lexer0.Pos := 0 |} ];
           lexer0.pos := 4; lexer0.index := 3; lexer0.line := 1;
           lexer0.tokenMap := lexer0.tokenMap (lexer0.NewLexer [] []) |}.
Proof.
  apply (Next0_on_number (lexer0.NewLexer (bytes "-1.5, 2") []) x2d x2c
           (bytes "1.5") (bytes " 2") true).
  - reflexivity.
  - reflexivity.
  - left. reflexivity.
  - reflexivity.
  - cbn [In]. auto 6.
Defined.

(** The number 12 at the end of the buffer, and 1 before a closing brace. *)
Lemma Next0_number_needs_separator_witness :
  lexer0.Next (lexer0.NewLexer (bytes "12") [])
  = Halt (Fatalf (Fatal_invalid_utf8 1 0)) /\
  lexer0.Next (lexer0.NewLexer (bytes "1}") [])
  = Halt (Fatalf (Fatal_unexpected_token 0x7D 1 0)).
Proof.
  assert (Hd : 0x30 <= byteZ x31 <= 0x39) by (vm_compute; split; discriminate).
  split.
  - apply (proj1 (Next0_number_needs_separator
                    (lexer0.NewLexer (bytes "12") []) x31 (bytes "2") false
                    eq_refl (or_intror Hd) eq_refl)).
    reflexivity.
  - apply (proj2 (Next0_number_needs_separator
                    (lexer0.NewLexer (bytes "1}") []) x31 [] false
                    eq_refl (or_intror Hd) eq_refl) x7d []).
    + reflexivity.
    + vm_compute. split; reflexivity.
    + vm_compute. intros [_ H]. apply H. reflexivity.
    + cbn [In]. intros H. repeat destruct H as [H | H]; try discriminate H.
      exact H.
    + vm_compute. discriminate.
Defined.

Lemma Next0_on_keyword_witness :
  lexer0.Next (lexer0.NewLexer (bytes "null}") [])
  = Ret 4
        {| lexer0.input := bytes "null}"; lexer0.spare := [];
           lexer0.tokens :=
             [ {| lexer0.Typ := lexer0.NULL; lexer0.Literal := "null";
                  lexer0.Line := 1; lexer0.Pos := 0 |} ];
           lexer0.pos := 4; lexer0.index := 3; lexer0.line := 1;
           lexer0.tokenMap := lexer0.tokenMap (lexer0.NewLexer [] []) |}.
Proof.
  apply (proj2 (proj2 (Next0_on_keyword (lexer0.NewLexer (bytes "null}") [])
                         (bytes "}") eq_refl))).
  - reflexivity.
  - vm_compute. discriminate.
Defined.

(** The whole buffer is the word true; and the word tru before a comma and
    a blank. *)
Lemma Next0_on_word_witness :
  lexer0.Next (lexer0.NewLexer (bytes "true") [])
  = Halt (Panic slice_bounds_out_of_range) /\
  lexer0.Next (lexer0.NewLexer (bytes "tru, ") [])
  = Ret 1
        {| lexer0.input := bytes "tru, "; lexer0.spare := [];
           lexer0.tokens := []; lexer0.pos := 1; lexer0.index := 0;
           lexer0.line := 1;
           lexer0.tokenMap := lexer0.tokenMap (lexer0.NewLexer [] []) |}.
Proof.
  assert (Hin : In x74 [x74; x66; x6e]) by (left; reflexivity).
  split.
  - apply (proj1 (Next0_on_word (lexer0.NewLexer (bytes "true") []) x74
                    (bytes "rue") eq_refl eq_refl Hin)).
    vm_compute. reflexivity.
  - apply (proj2 (Next0_on_word (lexer0.NewLexer (bytes "tru, ") []) x74
                    (bytes "ru, ") eq_refl eq_refl Hin) (bytes "tru, "));
      [reflexivity | discriminate ..].
Defined.

(** Three calls over the four bytes left brace, left bracket, right
    bracket, right brace. *)
Lemma Token0_stays_on_first_token_witness :
  exists l t,
    NextN0 3 (lexer0.NewLexer (bytes "{[]}") []) = Ret [1; 1; 1] l /\
    length (lexer0.tokens l) = 3%nat /\
    lexer0.pos l = 3 /\
    lexer0.Token_ l = Some t /\
    lexer0.Literal t = "{" /\ lexer0.Pos t = 0 /\
    lexer0.tokenMap l !! lexer0.chr x7b = Some (lexer0.Typ t).
Proof.
  apply (Token0_stays_on_first_token x7b (bytes "[]}") [] 3).
  - change (bytes "[]}") with [x5b; x5d; x7d].
    repeat (apply Forall_cons_2; [cbn [In]; auto 8|]). apply Forall_nil_2.
  - change (bytes "[]}") with [x5b; x5d; x7d]. cbn [length]. lia.
Defined.
